(** * AI_Email / SMOL_CHAT: generation session and output extractors

    A shallow embedding of the two servers under [SMOL_CHAT/]:

    - [llama_api_server.cpp]: the [LlamaInference] generation session
      ([generate], [tokenize_prompt], [decode_prompt], [generate_tokens]),
      the persona line selection ([extract_persona_line]) and the handler of
      [/ai/profile/persona] with its prompt, its fallback and [send_to_api];
    - [llama_api_server_cv_detection.cpp]: the three delimited-JSON extractors
      ([parse_cv_metadata], [parse_draft_reply], [parse_classification]), the
      helpers around the command line and the PDF files ([exec_command],
      [get_cli_version], [is_pdf_file], [pdf_to_image],
      [cleanup_temp_images]), the prompts, the three
      [process_..._with_vision] functions and the handlers of
      [/ai/inbox/detect-cv], [/ai/inbox/draft-reply] and
      [/ai/inbox/classify].

    A [std::string] is a list of bytes ([list ascii]).  Positions are natural
    numbers and [std::string::npos] is [None]: no position of a string can be
    [npos], so the two readings agree.  C++ exceptions are the [Throw] branch
    of [outcome]. *)

From Stdlib Require Import String Ascii List ZArith NArith Lia Bool Arith.
From Stdlib Require Import DecimalString.
Import ListNotations.

Set Implicit Arguments.
Set Warnings "-register-all".

(** ** Byte strings *)

Module Str.

Definition std_string := list ascii.

Definition char_eqb (a b : ascii) : bool := Ascii.eqb a b.

Fixpoint eqb (a b : std_string) : bool :=
  match a, b with
  | [], [] => true
  | x :: a', y :: b' => char_eqb x y && eqb a' b'
  | _, _ => false
  end.

Definition hex_val (c : ascii) : option nat :=
  let n := nat_of_ascii c in
  if (48 <=? n) && (n <=? 57) then Some (n - 48)
  else if (97 <=? n) && (n <=? 102) then Some (n - 87)
  else if (65 <=? n) && (n <=? 70) then Some (n - 55)
  else None.

(** Source literals.  A Rocq string cannot hold a double quote or an escape,
    so literals are written C-style and decoded here: [\n], [\r], [\t], [\\],
    [\xHH] for a byte, and an apostrophe stands for the double quote. *)
Fixpoint unescape (cs : list ascii) : std_string :=
  match cs with
  | [] => []
  | "\"%char :: "n"%char :: r => "010"%char :: unescape r
  | "\"%char :: "r"%char :: r => "013"%char :: unescape r
  | "\"%char :: "t"%char :: r => "009"%char :: unescape r
  | "\"%char :: "\"%char :: r => "\"%char :: unescape r
  | "\"%char :: "x"%char :: h :: l :: r =>
      match hex_val h, hex_val l with
      | Some a, Some b => ascii_of_nat (16 * a + b) :: unescape r
      | _, _ => "\"%char :: "x"%char :: h :: l :: unescape r
      end
  | "'"%char :: r => "034"%char :: unescape r
  | c :: r => c :: unescape r
  end.

Definition lit (s : string) : std_string := unescape (list_ascii_of_string s).

(** [s.find(pat) == 0] *)
Fixpoint starts_with (pat s : std_string) : bool :=
  match pat, s with
  | [], _ => true
  | p :: pat', c :: s' => char_eqb p c && starts_with pat' s'
  | _ :: _, [] => false
  end.

(** [s.find(pat)]: position of the first occurrence. *)
Fixpoint find (pat s : std_string) : option nat :=
  if starts_with pat s then Some 0
  else match s with
       | [] => None
       | _ :: s' => option_map S (find pat s')
       end.

(** [s.find(c)] *)
Fixpoint find_char (c : ascii) (s : std_string) : option nat :=
  match s with
  | [] => None
  | x :: s' => if char_eqb x c then Some 0 else option_map S (find_char c s')
  end.

(** [s.rfind(c)]: position of the last occurrence. *)
Fixpoint rfind_char (c : ascii) (s : std_string) : option nat :=
  match s with
  | [] => None
  | x :: s' =>
      match rfind_char c s' with
      | Some i => Some (S i)
      | None => if char_eqb x c then Some 0 else None
      end
  end.

(** [s.substr(pos, n)] for [pos <= s.size()]; the count is clipped. *)
Definition substr (pos n : nat) (s : std_string) : std_string :=
  firstn n (skipn pos s).

Definition mem (c : ascii) (set : std_string) : bool := existsb (char_eqb c) set.

(** [s.find_first_not_of(set)] *)
Fixpoint find_first_not_of (set s : std_string) : option nat :=
  match s with
  | [] => None
  | x :: s' => if mem x set then option_map S (find_first_not_of set s')
               else Some 0
  end.

(** [s.find_last_not_of(set)] *)
Fixpoint find_last_not_of (set s : std_string) : option nat :=
  match s with
  | [] => None
  | x :: s' =>
      match find_last_not_of set s' with
      | Some i => Some (S i)
      | None => if mem x set then None else Some 0
      end
  end.

(** [s.erase(0, n)] where [n] may be [npos]. *)
Definition erase_front (n : option nat) (s : std_string) : std_string :=
  match n with
  | Some k => skipn k s
  | None => []
  end.

(** [s.erase(pos)]: everything from [pos] on goes. *)
Definition erase_from (pos : nat) (s : std_string) : std_string := firstn pos s.

(** The parts with [sep] between them. *)
Definition join (sep : std_string) (parts : list std_string) : std_string :=
  match parts with
  | [] => []
  | p :: ps => p ++ flat_map (fun q => sep ++ q) ps
  end.

(** [s.back()] *)
Definition back (s : std_string) : option ascii := last (map Some s) None.

(** One call of [std::getline(stream, line)] on the unread part of the stream:
    [None] when nothing is left, else the line (delimiter dropped) and the
    rest. *)
Fixpoint take_line (s : std_string) : std_string * std_string :=
  match s with
  | [] => ([], [])
  | c :: r => if char_eqb c "010"%char then ([], r)
              else let (l, rest) := take_line r in (c :: l, rest)
  end.

Definition getline (stream : std_string) : option (std_string * std_string) :=
  match stream with
  | [] => None
  | _ => Some (take_line stream)
  end.

(** All the lines the loop [while (std::getline(stream, line))] sees. *)
Fixpoint getlines_from (cur : std_string) (pending : bool) (s : std_string)
  : list std_string :=
  match s with
  | [] => if pending then [rev cur] else []
  | c :: r => if char_eqb c "010"%char then rev cur :: getlines_from [] false r
              else getlines_from (c :: cur) true r
  end.

Definition getlines (s : std_string) : list std_string := getlines_from [] false s.

End Str.

Import Str.

(** ** Persona line selection ([llama_api_server.cpp]) *)

Module Persona.

Definition trim_set : std_string := lit " \n\r\t'".

(** The two [erase] calls that trim a line. *)
Definition trim (line : std_string) : std_string :=
  let line1 := erase_front (find_first_not_of trim_set line) line in
  let pos := match find_last_not_of trim_set line1 with
             | Some i => i + 1
             | None => 0
             end in
  erase_from pos line1.

Definition is_skipped (line : std_string) : bool :=
  match line with [] => true | _ => false end
  || Str.eqb line (lit "```")
  || match find (lit "Persona:") line with Some _ => true | None => false end.

Definition starts_with_name (name line : std_string) : bool :=
  match find name line with Some 0 => true | _ => false end
  && (50 <? length line).

Definition persona_shaped (line : std_string) : bool :=
  (50 <? length line)
  && match find (lit "(") line with Some _ => true | None => false end
  && match find (lit ")") line with Some _ => true | None => false end.

(** The body of the [while] loop over the remaining lines; [best_line] is the
    local of the same name. *)
Fixpoint scan_lines (name : std_string) (lines : list std_string)
  (best_line : std_string) : std_string :=
  match lines with
  | [] => best_line
  | raw :: rest =>
      let line := trim raw in
      if is_skipped line then scan_lines name rest best_line
      else if starts_with_name name line then line
      else if persona_shaped line then scan_lines name rest line
      else scan_lines name rest best_line
  end.

Definition extract_persona_line (raw_output name : std_string) : std_string :=
  match raw_output with
  | [] => []
  | _ => scan_lines name (getlines raw_output) []
  end.

(** The caller's test in [main]:
    [persona_string.empty() || persona_string.length() < 20]. *)
Definition uses_fallback (persona_string : std_string) : bool :=
  match persona_string with [] => true | _ => false end
  || (length persona_string <? 20).





End Persona.

(** ** The selection rule, in the words of the specification

    These definitions do not use the tests of the loop.  They say what it
    is for a line to be trimmed, skipped, to start with the name and to
    look like a persona, and which line the rule selects among the lines of
    an output; [PersonaRuleFacts] compares them with the code. *)

Module PersonaRule.



Definition occurs_in (part line : std_string) : Prop :=
  exists pre post, line = pre ++ part ++ post.

(** Empty, a bare code-fence marker, or containing "Persona:". *)
Definition skipped (line : std_string) : Prop :=
  line = [] \/ line = lit "```" \/ occurs_in (lit "Persona:") line.





End PersonaRule.

(** ** Exceptions *)

(** The exceptions the modelled code can raise: [std::runtime_error] with its
    message, and the three classes of [nlohmann::json::exception] that reach
    this code ([parse_error], [type_error] and [out_of_range], the last two
    with the library's numeric id). *)
Inductive exn : Type :=
| runtime_error (what : string)
| parse_error
| type_error (id : nat)
| out_of_range (id : nat).

Inductive outcome (A : Type) : Type :=
| Return (a : A)
| Throw (e : exn).

Arguments Return {A} a.
Arguments Throw {A} e.

Definition bind {A B : Type} (m : outcome A) (k : A -> outcome B) : outcome B :=
  match m with
  | Return a => k a
  | Throw e => Throw e
  end.

Notation "x <- m ;; k" := (bind m (fun x => k))
  (at level 61, m at next level, right associativity).

(** [try { body } catch (const json::parse_error&) { } rest]: only a
    [parse_error] is handled; control then continues with [rest]. *)
Definition catch_parse_error {A : Type} (body rest : outcome A) : outcome A :=
  match body with
  | Throw parse_error => rest
  | other => other
  end.

(** ** The JSON library ([nlohmann::json]) *)

Module Json.

(** A [number_float].  The library stores the binary64 nearest to the decimal
    it read; the model keeps the decimal itself, (-1)^neg * mant * 10^exp with
    no trailing zero in [mant], and does not round.  Rounding to binary64 is
    monotone and 0.0, 0.5 and 1.0 are exact, so a value the model puts
    between 0.0 and 1.0 is one the code puts there too. *)
Record decimal : Type := Dec { dneg : bool; dmant : N; dexp : Z }.

Fixpoint strip10 (fuel : nat) (m : N) (e : Z) : N * Z :=
  match fuel with
  | 0 => (m, e)
  | S f => if (m mod 10 =? 0)%N then strip10 f (m / 10)%N (e + 1)%Z else (m, e)
  end.

Definition mk_dec (neg : bool) (m : N) (e : Z) : decimal :=
  if (m =? 0)%N then Dec neg 0 0
  else let (m', e') := strip10 (N.to_nat (N.size m)) m e in Dec neg m' e'.

Definition dec_of_Z (z : Z) : decimal := mk_dec (z <? 0)%Z (Z.abs_N z) 0.

Definition dec_sval (d : decimal) : Z :=
  if dneg d then (- Z.of_N (dmant d))%Z else Z.of_N (dmant d).

Definition dec_compare (a b : decimal) : comparison :=
  let m := Z.min (dexp a) (dexp b) in
  (dec_sval a * 10 ^ (dexp a - m) ?= dec_sval b * 10 ^ (dexp b - m))%Z.

Definition dec_ltb (a b : decimal) : bool :=
  match dec_compare a b with Lt => true | _ => false end.

Definition dec_leb (a b : decimal) : bool :=
  match dec_compare a b with Gt => false | _ => true end.

(** The least magnitude that binary64 rounds to infinity. *)
Definition dbl_overflow : Z := (2 ^ 1024 - 2 ^ 970)%Z.

(** [std::isfinite] of the parsed double.  The first test of each branch
    only avoids a large power; it does not change the value. *)
Definition dec_is_finite (d : decimal) : bool :=
  let m := Z.of_N (dmant d) in
  if (dexp d <? 0)%Z
  then (N.size (dmant d) <? 1000)%N || (m <? dbl_overflow * 10 ^ (- dexp d))%Z
  else (m =? 0)%Z || ((dexp d <=? 400)%Z && (m * 10 ^ dexp d <? dbl_overflow)%Z).

(** [basic_json]; an object is a [std::map], kept as a list sorted by key
    without repeated keys.  [number_integer] stands for both integer kinds. *)
Inductive json : Type :=
| null
| boolean (b : bool)
| number_integer (z : Z)
| number_float (d : decimal)
| string_ (s : std_string)
| array (l : list json)
| object (m : list (std_string * json)).

Fixpoint str_ltb (a b : std_string) : bool :=
  match a, b with
  | _, [] => false
  | [], _ :: _ => true
  | x :: a', y :: b' =>
      (nat_of_ascii x <? nat_of_ascii y)
      || ((nat_of_ascii x =? nat_of_ascii y) && str_ltb a' b')
  end.

(** [m[k] = v] on the sorted list. *)
Fixpoint obj_set (k : std_string) (v : json) (m : list (std_string * json))
  : list (std_string * json) :=
  match m with
  | [] => [(k, v)]
  | (k', v') :: r =>
      if Str.eqb k k' then (k, v) :: r
      else if str_ltb k k' then (k, v) :: m
      else (k', v') :: obj_set k v r
  end.

Fixpoint obj_find (k : std_string) (m : list (std_string * json)) : option json :=
  match m with
  | [] => None
  | (k', v) :: r => if Str.eqb k k' then Some v else obj_find k r
  end.

(** [json{{k1, v1}, {k2, v2}, ...}]: the object of an initializer list of
    pairs; a repeated key keeps its first value. *)
Fixpoint json_object (kvs : list (std_string * json)) : list (std_string * json) :=
  match kvs with
  | [] => []
  | (k, v) :: r =>
      let m := json_object r in
      obj_set k v m
  end.

(** *** Lexer *)

Inductive token : Type :=
| tok_begin_array | tok_begin_object | tok_end_array | tok_end_object
| tok_name_separator | tok_value_separator
| tok_true | tok_false | tok_null
| tok_string (s : std_string)
| tok_unsigned (n : Z)
| tok_integer (z : Z)
| tok_float (d : decimal)
| tok_parse_error
| tok_end_of_input.

Local Open Scope N_scope.

Definition code (c : ascii) : N := N_of_ascii c.

Definition is_digit (c : ascii) : bool := (48 <=? code c) && (code c <=? 57).

Definition in_range (c : ascii) (lo hi : N) : bool :=
  (lo <=? code c) && (code c <=? hi).

Definition codepoint4 (h1 h2 h3 h4 : ascii) : option N :=
  match hex_val h1, hex_val h2, hex_val h3, hex_val h4 with
  | Some a, Some b, Some c, Some d =>
      Some (4096 * N.of_nat a + 256 * N.of_nat b + 16 * N.of_nat c + N.of_nat d)
  | _, _, _, _ => None
  end.

(** UTF-8 encoding of a code point, as [scan_string] appends it. *)
Definition utf8_encode (cp : N) : std_string :=
  if cp <? 128 then [ascii_of_N cp]
  else if cp <? 2048 then
    [ascii_of_N (192 + cp / 64); ascii_of_N (128 + cp mod 64)]
  else if cp <? 65536 then
    [ascii_of_N (224 + cp / 4096); ascii_of_N (128 + (cp / 64) mod 64);
     ascii_of_N (128 + cp mod 64)]
  else
    [ascii_of_N (240 + cp / 262144); ascii_of_N (128 + (cp / 4096) mod 64);
     ascii_of_N (128 + (cp / 64) mod 64); ascii_of_N (128 + cp mod 64)].

(** The ranges the bytes after a UTF-8 lead byte must lie in; [[]] for a byte
    that cannot start a sequence. *)
Definition utf8_tail (lead : N) : list (N * N) :=
  if (194 <=? lead) && (lead <=? 223) then [(128, 191)]
  else if lead =? 224 then [(160, 191); (128, 191)]
  else if ((225 <=? lead) && (lead <=? 236)) || (lead =? 238) || (lead =? 239)
       then [(128, 191); (128, 191)]
  else if lead =? 237 then [(128, 159); (128, 191)]
  else if lead =? 240 then [(144, 191); (128, 191); (128, 191)]
  else if (241 <=? lead) && (lead <=? 243) then [(128, 191); (128, 191); (128, 191)]
  else if lead =? 244 then [(128, 143); (128, 191); (128, 191)]
  else [].

Definition simple_escape (e : ascii) : option ascii :=
  let n := code e in
  if n =? 34 then Some "034"%char
  else if n =? 92 then Some "\"%char
  else if n =? 47 then Some "/"%char
  else if n =? 98 then Some "008"%char
  else if n =? 102 then Some "012"%char
  else if n =? 110 then Some "010"%char
  else if n =? 114 then Some "013"%char
  else if n =? 116 then Some "009"%char
  else None.

(** [lexer::scan_string], entered after the opening quote: the decoded
    string and the input after the closing quote, or [None] on any error.
    [acc] holds the decoded bytes in reverse. *)
Fixpoint scan_string (acc : std_string) (cs : list ascii)
  : option (std_string * list ascii) :=
  match cs with
  | [] => None
  | c :: r =>
      if code c =? 34 then Some (rev acc, r)
      else if code c =? 92 then
        match r with
        | [] => None
        | e :: r1 =>
            if code e =? 117 then
              match r1 with
              | h1 :: h2 :: h3 :: h4 :: r2 =>
                  match codepoint4 h1 h2 h3 h4 with
                  | None => None
                  | Some cp1 =>
                      if (55296 <=? cp1) && (cp1 <=? 56319) then
                        match r2 with
                        | b :: u :: g1 :: g2 :: g3 :: g4 :: r3 =>
                            if (code b =? 92) && (code u =? 117) then
                              match codepoint4 g1 g2 g3 g4 with
                              | None => None
                              | Some cp2 =>
                                  if (56320 <=? cp2) && (cp2 <=? 57343) then
                                    scan_string
                                      (rev_append
                                         (utf8_encode (65536 + (cp1 - 55296) * 1024
                                                       + (cp2 - 56320)))
                                         acc) r3
                                  else None
                              end
                            else None
                        | _ => None
                        end
                      else if (56320 <=? cp1) && (cp1 <=? 57343) then None
                      else scan_string (rev_append (utf8_encode cp1) acc) r2
                  end
              | _ => None
              end
            else
              match simple_escape e with
              | Some x => scan_string (x :: acc) r1
              | None => None
              end
        end
      else if code c <? 32 then None
      else if code c <? 128 then scan_string (c :: acc) r
      else
        match utf8_tail (code c) with
        | [(l1, u1)] =>
            match r with
            | b1 :: r1 =>
                if in_range b1 l1 u1 then scan_string (b1 :: c :: acc) r1 else None
            | _ => None
            end
        | [(l1, u1); (l2, u2)] =>
            match r with
            | b1 :: b2 :: r2 =>
                if in_range b1 l1 u1 && in_range b2 l2 u2
                then scan_string (b2 :: b1 :: c :: acc) r2 else None
            | _ => None
            end
        | [(l1, u1); (l2, u2); (l3, u3)] =>
            match r with
            | b1 :: b2 :: b3 :: r3 =>
                if in_range b1 l1 u1 && in_range b2 l2 u2 && in_range b3 l3 u3
                then scan_string (b3 :: b2 :: b1 :: c :: acc) r3 else None
            | _ => None
            end
        | _ => None
        end
  end.

Fixpoint span_digits (cs : list ascii) : list ascii * list ascii :=
  match cs with
  | c :: r => if is_digit c
              then let (ds, rest) := span_digits r in (c :: ds, rest)
              else ([], cs)
  | [] => ([], [])
  end.

Definition digits_value (ds : list ascii) : N :=
  fold_left (fun a c => 10 * a + (code c - 48)) ds 0.

Definition trailing_zeros (ds : list ascii) : nat :=
  (fix go (r : list ascii) : nat :=
     match r with
     | c :: r' => if code c =? 48 then S (go r') else 0%nat
     | [] => 0%nat
     end) (rev ds).

(** The token of a scanned number.  An integer that [strtoull] / [strtoll]
    can hold stays an integer; anything else is read by [strtod]. *)
Definition number_token (neg : bool) (ints fracs : list ascii) (is_float : bool)
  (e : Z) : token :=
  let v := Z.of_N (digits_value ints) in
  if negb is_float && negb neg && (v <? 2 ^ 64)%Z then tok_unsigned v
  else if negb is_float && neg && (v <=? 2 ^ 63)%Z then tok_integer (- v)
  else
    let ds := ints ++ fracs in
    let tz := trailing_zeros ds in
    let kept := firstn (length ds - tz)%nat ds in
    let m := digits_value kept in
    if m =? 0 then tok_float (Dec neg 0 0)
    else tok_float (Dec neg m (e - Z.of_nat (length fracs) + Z.of_nat tz)).

(** [lexer::scan_number] after the optional minus sign and the integer
    digits [ints]: fraction and exponent. *)
Definition scan_exponent (neg : bool) (ints fracs : list ascii) (is_float : bool)
  (cs : list ascii) : token * list ascii :=
  match cs with
  | x :: r =>
      if (code x =? 101) || (code x =? 69) then
        let '(eneg, r1) :=
          match r with
          | s :: r' => if code s =? 43 then (false, r')
                       else if code s =? 45 then (true, r')
                       else (false, r)
          | [] => (false, r)
          end in
        let (es, rest) := span_digits r1 in
        match es with
        | [] => (tok_parse_error, rest)
        | _ =>
            let ev := Z.of_N (digits_value es) in
            (number_token neg ints fracs true (if eneg then - ev else ev)%Z, rest)
        end
      else (number_token neg ints fracs is_float 0, cs)
  | [] => (number_token neg ints fracs is_float 0, cs)
  end.

Definition scan_fraction (neg : bool) (ints : list ascii) (cs : list ascii)
  : token * list ascii :=
  match cs with
  | p :: r =>
      if code p =? 46 then
        let (fs, rest) := span_digits r in
        match fs with
        | [] => (tok_parse_error, rest)
        | _ => scan_exponent neg ints fs true rest
        end
      else scan_exponent neg ints [] false cs
  | [] => scan_exponent neg ints [] false cs
  end.

(** [lexer::scan_number]; [cs] starts at the minus sign or first digit. *)
Definition scan_number (cs : list ascii) : token * list ascii :=
  let '(neg, cs1) :=
    match cs with
    | m :: r => if code m =? 45 then (true, r) else (false, cs)
    | [] => (false, cs)
    end in
  match cs1 with
  | d :: r =>
      if code d =? 48 then scan_fraction neg [d] r
      else if is_digit d then
        let (ds, rest) := span_digits r in scan_fraction neg (d :: ds) rest
      else (tok_parse_error, r)
  | [] => (tok_parse_error, [])
  end.

(** [lexer::scan_literal]: the rest of [true], [false] or [null]. *)
Definition scan_literal (text : std_string) (t : token) (cs : list ascii)
  : token * list ascii :=
  if starts_with text cs then (t, skipn (length text) cs)
  else (tok_parse_error, skipn 1%nat cs).

Fixpoint skip_whitespace (cs : list ascii) : list ascii :=
  match cs with
  | c :: r => if (code c =? 32) || (code c =? 9) || (code c =? 10) || (code c =? 13)
              then skip_whitespace r else cs
  | [] => []
  end.

(** [lexer::scan]: the next token and the input after it.  A NUL byte ends
    the input, as it does in the library. *)
Definition scan (cs : list ascii) : token * list ascii :=
  match skip_whitespace cs with
  | [] => (tok_end_of_input, [])
  | c :: r =>
      let n := code c in
      if n =? 91 then (tok_begin_array, r)
      else if n =? 93 then (tok_end_array, r)
      else if n =? 123 then (tok_begin_object, r)
      else if n =? 125 then (tok_end_object, r)
      else if n =? 58 then (tok_name_separator, r)
      else if n =? 44 then (tok_value_separator, r)
      else if n =? 116 then scan_literal (lit "rue") tok_true r
      else if n =? 102 then scan_literal (lit "alse") tok_false r
      else if n =? 110 then scan_literal (lit "ull") tok_null r
      else if n =? 34 then
        match scan_string [] r with
        | Some (s, rest) => (tok_string s, rest)
        | None => (tok_parse_error, r)
        end
      else if (n =? 45) || is_digit c then scan_number (c :: r)
      else if n =? 0 then (tok_end_of_input, r)
      else (tok_parse_error, r)
  end.

(** The tokens that end the stream. *)
Definition is_last (t : token) : bool :=
  match t with tok_end_of_input | tok_parse_error => true | _ => false end.

(** The tokens the parser pulls with [get_token], up to the first
    [end_of_input] or lexical error.  Every other token takes at least one
    byte, so [S (length cs)] rounds are enough (see [tokens_fuel]). *)
Fixpoint tokens (fuel : nat) (cs : list ascii) : list token :=
  match fuel with
  | O => [tok_parse_error]
  | S f =>
      let (t, rest) := scan cs in
      match t with
      | tok_end_of_input | tok_parse_error => [t]
      | _ => t :: tokens f rest
      end
  end.

(** [lexer::skip_bom]: a leading 0xEF must start a full byte-order mark. *)
Definition skip_bom (cs : list ascii) : option (list ascii) :=
  match cs with
  | a :: r =>
      if code a =? 239 then
        match r with
        | b :: c :: r' => if (code b =? 187) && (code c =? 191) then Some r' else None
        | _ => None
        end
      else Some cs
  | [] => Some cs
  end.

Definition lex (s : std_string) : list token :=
  match skip_bom s with
  | Some cs => tokens (S (length cs)) cs
  | None => [tok_parse_error]
  end.

Local Close Scope N_scope.

(** *** Parser *)

(** The containers still open, innermost first: an array with the elements
    read so far (latest first), an object with its entries and the key whose
    value is being read. *)
Inductive frame : Type :=
| in_array (elems : list json)
| in_object (m : list (std_string * json)) (key : std_string).

(** [parser::sax_parse_internal] driving the DOM builder, in strict mode and
    with exceptions on.  [parse_value] is the top of the loop (a value is
    expected at the current token); [after_value] is the part reached "after
    we successfully parsed a value".  A float that is not finite raises
    [out_of_range.406]; every other failure is a [parse_error]. *)
Fixpoint parse_value (stack : list frame) (ts : list token) {struct ts}
  : outcome json :=
  match ts with
  | [] => Throw parse_error
  | t :: ts' =>
      match t with
      | tok_begin_object =>
          match ts' with
          | tok_end_object :: ts'' => after_value stack (object []) ts''
          | tok_string k :: tok_name_separator :: ts'' =>
              parse_value (in_object [] k :: stack) ts''
          | _ => Throw parse_error
          end
      | tok_begin_array =>
          match ts' with
          | tok_end_array :: ts'' => after_value stack (array []) ts''
          | _ => parse_value (in_array [] :: stack) ts'
          end
      | tok_float d =>
          if dec_is_finite d then after_value stack (number_float d) ts'
          else Throw (out_of_range 406)
      | tok_false => after_value stack (boolean false) ts'
      | tok_true => after_value stack (boolean true) ts'
      | tok_null => after_value stack null ts'
      | tok_integer z => after_value stack (number_integer z) ts'
      | tok_unsigned n => after_value stack (number_integer n) ts'
      | tok_string s => after_value stack (string_ s) ts'
      | _ => Throw parse_error
      end
  end
with after_value (stack : list frame) (v : json) (ts : list token) {struct ts}
  : outcome json :=
  match stack with
  | [] =>
      match ts with
      | [tok_end_of_input] => Return v
      | _ => Throw parse_error
      end
  | in_array elems :: stack' =>
      match ts with
      | tok_value_separator :: ts' => parse_value (in_array (v :: elems) :: stack') ts'
      | tok_end_array :: ts' => after_value stack' (array (rev (v :: elems))) ts'
      | _ => Throw parse_error
      end
  | in_object m key :: stack' =>
      match ts with
      | tok_value_separator :: tok_string k :: tok_name_separator :: ts' =>
          parse_value (in_object (obj_set key v m) k :: stack') ts'
      | tok_end_object :: ts' => after_value stack' (object (obj_set key v m)) ts'
      | _ => Throw parse_error
      end
  end.

(** [json::parse(text)] *)
Definition parse (text : std_string) : outcome json := parse_value [] (lex text).

(** *** Typed access *)

(** [j.value(key, default_value)] with a string default. *)
Definition value_string (j : json) (key default_value : std_string)
  : outcome std_string :=
  match j with
  | object m =>
      match obj_find key m with
      | Some (string_ s) => Return s
      | Some _ => Throw (type_error 302)
      | None => Return default_value
      end
  | _ => Throw (type_error 306)
  end.

(** [j.value(key, default_value)] with a [double] default. *)
Definition value_double (j : json) (key : std_string) (default_value : decimal)
  : outcome decimal :=
  match j with
  | object m =>
      match obj_find key m with
      | Some (number_float d) => Return d
      | Some (number_integer z) => Return (dec_of_Z z)
      | Some _ => Throw (type_error 302)
      | None => Return default_value
      end
  | _ => Throw (type_error 306)
  end.

(** *** Serialization *)

Definition hex_digit (n : N) : ascii :=
  if (n <? 10)%N then ascii_of_N (48 + n) else ascii_of_N (87 + n).

(** [serializer::dump_escaped] without [ensure_ascii]; the bytes of a valid
    UTF-8 sequence pass unchanged. *)
Fixpoint dump_escaped (s : std_string) : std_string :=
  match s with
  | [] => []
  | c :: r =>
      let n := code c in
      (if (n =? 8)%N then lit "\\b"
       else if (n =? 9)%N then lit "\\t"
       else if (n =? 10)%N then lit "\\n"
       else if (n =? 12)%N then lit "\\f"
       else if (n =? 13)%N then lit "\\r"
       else if (n =? 34)%N then lit "\\'"
       else if (n =? 92)%N then lit "\\\\"
       else if (n <? 32)%N
            then lit "\\u00" ++ [hex_digit (n / 16)%N; hex_digit (n mod 16)%N]
       else [c]) ++ dump_escaped r
  end.

Definition digits_of_N (n : N) : std_string :=
  list_ascii_of_string (NilZero.string_of_uint (N.to_uint n)).

Definition dump_integer (z : Z) : std_string :=
  list_ascii_of_string (NilZero.string_of_int (Z.to_int z)).

(** [append_exponent]: sign and at least two digits. *)
Definition append_exponent (e : Z) : std_string :=
  (if (e <? 0)%Z then lit "-" else lit "+")
  ++ (if (Z.abs e <? 10)%Z then lit "0" else [])
  ++ digits_of_N (Z.abs_N e).

(** [format_buffer] with [min_exp = -4] and [max_exp = 15]: the digits [buf]
    of a positive number [buf * 10^decimal_exponent] laid out as the library
    prints a double. *)
Definition format_buffer (buf : std_string) (decimal_exponent : Z) : std_string :=
  let k := Z.of_nat (length buf) in
  let n := (k + decimal_exponent)%Z in
  if (k <=? n)%Z && (n <=? 15)%Z then
    buf ++ repeat "0"%char (Z.to_nat (n - k)) ++ lit ".0"
  else if (0 <? n)%Z && (n <=? 15)%Z then
    firstn (Z.to_nat n) buf ++ lit "." ++ skipn (Z.to_nat n) buf
  else if (-4 <? n)%Z && (n <=? 0)%Z then
    lit "0." ++ repeat "0"%char (Z.to_nat (- n)) ++ buf
  else
    (match buf with
     | [d] => [d]
     | d :: ds => d :: lit "." ++ ds
     | [] => []
     end) ++ lit "e" ++ append_exponent (n - 1).

(** [serializer::dump_float] for a finite value: the shortest digits that
    read back as the same number, here the digits of the decimal itself. *)
Definition dump_float (d : decimal) : std_string :=
  (if dneg d then lit "-" else [])
  ++ (if (dmant d =? 0)%N then lit "0.0"
      else format_buffer (digits_of_N (dmant d)) (dexp d)).

(** [serializer::dump(val, pretty_print, ensure_ascii = false, indent_step,
    current_indent)] *)
Fixpoint dump_at (pretty_print : bool) (indent_step current_indent : nat)
  (val : json) {struct val} : std_string :=
  let new_indent := current_indent + indent_step in
  match val with
  | object [] => lit "{}"
  | object m =>
      if pretty_print then
        lit "{\n"
        ++ join (lit ",\n")
             (map (fun kv : std_string * json =>
                     repeat " "%char new_indent ++ lit "'" ++ dump_escaped (fst kv)
                     ++ lit "': "
                     ++ dump_at pretty_print indent_step new_indent (snd kv)) m)
        ++ lit "\n" ++ repeat " "%char current_indent ++ lit "}"
      else
        lit "{"
        ++ join (lit ",")
             (map (fun kv : std_string * json =>
                     lit "'" ++ dump_escaped (fst kv) ++ lit "':"
                     ++ dump_at pretty_print indent_step new_indent (snd kv)) m)
        ++ lit "}"
  | array [] => lit "[]"
  | array l =>
      if pretty_print then
        lit "[\n"
        ++ join (lit ",\n")
             (map (fun v => repeat " "%char new_indent
                            ++ dump_at pretty_print indent_step new_indent v) l)
        ++ lit "\n" ++ repeat " "%char current_indent ++ lit "]"
      else
        lit "["
        ++ join (lit ",") (map (dump_at pretty_print indent_step new_indent) l)
        ++ lit "]"
  | string_ s => lit "'" ++ dump_escaped s ++ lit "'"
  | boolean true => lit "true"
  | boolean false => lit "false"
  | number_integer z => dump_integer z
  | number_float d => dump_float d
  | null => lit "null"
  end.

(** [j.dump(indent)]; a negative [indent] (the default, -1) is the compact
    form. *)
Definition dump (indent : Z) (j : json) : std_string :=
  dump_at (0 <=? indent)%Z (Z.to_nat indent) 0 j.

End Json.

Import Json.

(** ** Delimited-JSON extractors ([llama_api_server_cv_detection.cpp]) *)

Module Extract.

Definition is_blank (c : ascii) : bool :=
  char_eqb c "010"%char || char_eqb c "013"%char || char_eqb c " "%char.

(** The [while] loop that advances [start_marker] over newlines, carriage
    returns and spaces; [rest] is the text from [start_marker] on. *)
Fixpoint skip_blanks (rest : std_string) (start_marker : nat) : nat :=
  match rest with
  | c :: rest' => if is_blank c then skip_blanks rest' (S start_marker)
                  else start_marker
  | [] => start_marker
  end.

(** [start_marker] after the opening [if]/[else]. *)
Definition find_start_marker (model_output : std_string) : option nat :=
  match find (lit "```json") model_output with
  | None => find_char "{"%char model_output
  | Some p => Some (skip_blanks (skipn (p + 7) model_output) (p + 7))
  end.

Definition find_end_marker (model_output : std_string) : option nat :=
  rfind_char "}"%char model_output.

(** The guard [start_marker != npos && end_marker != npos && end_marker >
    start_marker] and the [substr] it protects: the initial [json_str]. *)
Definition json_span (model_output : std_string) : option std_string :=
  match find_start_marker model_output, find_end_marker model_output with
  | Some start_marker, Some end_marker =>
      if start_marker <? end_marker
      then Some (substr start_marker (end_marker - start_marker + 1) model_output)
      else None
  | _, _ => None
  end.

Definition is_tail_junk (c : ascii) : bool :=
  char_eqb c "`"%char || char_eqb c "010"%char || char_eqb c "013"%char
  || char_eqb c " "%char.

(** The [pop_back] loop, on the reversed string. *)
Fixpoint pop_junk (reversed : std_string) : std_string :=
  match reversed with
  | c :: r => if is_tail_junk c then pop_junk r else reversed
  | [] => []
  end.

Definition strip_tail (json_str : std_string) : std_string :=
  rev (pop_junk (rev json_str)).

Definition non_breaking_space_utf8 : std_string := lit "\xC2\xA0".

(** The [find]/[replace] loop.  Every round shortens the string by one byte,
    so [length json_str] rounds are enough (see [replace_nbsp_done]). *)
Fixpoint replace_nbsp_loop (fuel : nat) (json_str : std_string) : std_string :=
  match fuel with
  | 0 => json_str
  | S f =>
      match find non_breaking_space_utf8 json_str with
      | Some npos =>
          replace_nbsp_loop f
            (firstn npos json_str ++ lit " "
             ++ skipn (npos + length non_breaking_space_utf8) json_str)
      | None => json_str
      end
  end.

Definition replace_nbsp (json_str : std_string) : std_string :=
  replace_nbsp_loop (length json_str) json_str.

(** The string handed to [json::parse]. *)
Definition clean (json_str : std_string) : std_string :=
  replace_nbsp (strip_tail json_str).

Definition cv_fallback : json :=
  object (json_object
    [ (lit "name", string_ (lit "Unknown"));
      (lit "position", string_ (lit "Unknown"));
      (lit "skills", array []);
      (lit "experience", string_ (lit "Unknown"));
      (lit "education", string_ (lit "Unknown")) ]).

Definition parse_cv_metadata (model_output : std_string) : outcome json :=
  match json_span model_output with
  | Some json_str =>
      catch_parse_error (Json.parse (clean json_str)) (Return cv_fallback)
  | None => Return cv_fallback
  end.

Definition draft_fallback : json :=
  object (json_object
    [ (lit "subject", string_ (lit "Re: [Subject]"));
      (lit "draft_reply", string_ (lit "Unable to generate reply. Please try again.")) ]).

Definition parse_draft_reply (model_output : std_string) : outcome json :=
  match json_span model_output with
  | Some json_str =>
      catch_parse_error (Json.parse (clean json_str)) (Return draft_fallback)
  | None => Return draft_fallback
  end.

Definition default_category : std_string := lit "FYI / Low Priority".

Definition valid_categories : list std_string :=
  [ lit "Urgent & Action Required";
    lit "Normal Follow-up";
    lit "FYI / Low Priority";
    lit "Spam" ].

Definition dec_0_0 : decimal := Dec false 0 0.
Definition dec_0_5 : decimal := Dec false 5 (-1).
Definition dec_1_0 : decimal := Dec false 1 0.

(** The two [if]s that clamp [confidence]. *)
Definition clamp (confidence : decimal) : decimal :=
  let confidence := if dec_ltb confidence dec_0_0 then dec_0_0 else confidence in
  if dec_ltb dec_1_0 confidence then dec_1_0 else confidence.

(** The [for] loop over [valid_categories] and the [if (!valid)] after it. *)
Definition validate_category (category : std_string) : std_string :=
  let valid := existsb (Str.eqb category) valid_categories in
  if valid then category else default_category.

Definition classification (category : std_string) (confidence : decimal) : json :=
  object (json_object
    [ (lit "category", string_ category);
      (lit "confidence", number_float confidence) ]).

Definition classification_fallback : json :=
  classification default_category dec_0_5.

(** The body of the [try] block. *)
Definition classify (json_str : std_string) : outcome json :=
  parsed <- Json.parse json_str ;;
  category <- value_string parsed (lit "category") default_category ;;
  let category := validate_category category in
  confidence <- value_double parsed (lit "confidence") dec_0_5 ;;
  Return (classification category (clamp confidence)).

Definition parse_classification (model_output : std_string) : outcome json :=
  match json_span model_output with
  | Some json_str =>
      catch_parse_error (classify (clean json_str)) (Return classification_fallback)
  | None => Return classification_fallback
  end.

(** The test input of the specification and two inputs the extractors
    receive badly. *)
Definition spam_text : std_string :=
  lit "blah blah ```json\n{'category': 'Spam', 'confidence': 1.7}\n``` trailing".

Definition numeric_category_text : std_string :=
  lit "{'category': 5, 'confidence': 0.5}".

Definition huge_number_text : std_string :=
  lit "{'name': 1e999}".

End Extract.

(** ** Generation session ([LlamaInference], [llama_api_server.cpp]) *)

Module Generation.

Definition llama_token := Z.

(** One slot of a [llama_batch]: token, position, whether logits are wanted,
    and the sequence id. *)
Record batch_slot : Type :=
  Slot { slot_token : llama_token; slot_pos : Z; slot_logits : bool; slot_seq_id : Z }.

(** The calls made into llama.cpp, with what they returned. *)
Inductive event : Type :=
| ev_memory_clear
| ev_sampler_reset
| ev_tokenize (prompt : std_string) (n_tokens : Z)
| ev_decode (batch : list batch_slot) (result : Z)
| ev_sampler_accept (t : llama_token)
| ev_sampler_sample (t : llama_token).

(** llama.cpp itself is not modelled: each call answers as an arbitrary
    function of the calls made before it (which fix the state of the context
    and of the sampler chain) and of its arguments. *)
Record llama : Type := {
  (* n_tokens and the contents of the token buffer *)
  llama_tokenize : list event -> std_string -> Z -> Z * list llama_token;
  llama_decode : list event -> list batch_slot -> Z;
  llama_sampler_sample : list event -> llama_token;
  llama_vocab_eos : llama_token;
  (* n and the contents of [buf] *)
  llama_token_to_piece : llama_token -> Z * std_string
}.

Definition to_int32 (z : Z) : Z := ((z + 2 ^ 31) mod 2 ^ 32 - 2 ^ 31)%Z.
Definition to_uint32 (z : Z) : Z := (z mod 2 ^ 32)%Z.

(** [v.resize(n)] on a vector of tokens. *)
Definition resize (n : nat) (v : list llama_token) : list llama_token :=
  firstn n v ++ repeat 0%Z (n - length v).

Definition is_accept (e : event) : bool :=
  match e with ev_sampler_accept _ => true | _ => false end.

Definition is_decode (e : event) : bool :=
  match e with ev_decode _ _ => true | _ => false end.

Definition is_sample (e : event) : bool :=
  match e with ev_sampler_sample _ => true | _ => false end.

(** The tokens [llama_sampler_accept] was called with, in order. *)
Definition accepted (evs : list event) : list llama_token :=
  flat_map (fun e => match e with ev_sampler_accept t => [t] | _ => [] end) evs.

(** The tokens [llama_sampler_sample] returned, in order. *)
Definition sampled (evs : list event) : list llama_token :=
  flat_map (fun e => match e with ev_sampler_sample t => [t] | _ => [] end) evs.

Inductive stop_reason : Type :=
| EndOfSequence | MaxTokensReached | InvalidToken | DecodeFailure.

(** What [generate_tokens] leaves behind.  The function returns [text] (its
    local [response]); [tokens_emitted] is its local [n_generated] and
    [stop] names the exit of the loop that was taken. *)
Record generation : Type :=
  Gen { text : std_string; tokens_emitted : Z; stop : stop_reason }.

Section Session.

Variable L : llama.
(* the constructor's [n_ctx] argument *)
Variable n_ctx : Z.

(** [ctx_params.n_ctx], a [uint32_t] assigned from the [int] argument. *)
Definition ctx_params_n_ctx : Z := to_uint32 n_ctx.

(** Every function takes [h], the calls made before it, and returns the
    calls it made itself. *)
Definition tokenize_prompt (h : list event) (prompt : std_string)
  : outcome (list llama_token) * list event :=
  let size := (Z.of_nat (length prompt) * 4 + 16)%Z in
  let '(n_tokens, buffer) := llama_tokenize L h prompt (to_int32 size) in
  let evs := [ev_tokenize prompt n_tokens] in
  if (n_tokens <? 0)%Z then (Throw (runtime_error "Tokenization failed"), evs)
  else (Return (resize (Z.to_nat n_tokens) (resize (Z.to_nat size) buffer)), evs).

(** The batch [decode_prompt] fills: positions from 0, logits for the last
    slot only, sequence 0. *)
Fixpoint prompt_batch (i : nat) (size : nat) (tokens : list llama_token)
  : list batch_slot :=
  match tokens with
  | [] => []
  | t :: r => Slot t (to_int32 (Z.of_nat i)) (i =? size - 1) 0
              :: prompt_batch (S i) size r
  end.

Definition decode_prompt (h : list event) (tokens : list llama_token)
  : outcome unit * list event :=
  let batch := prompt_batch 0 (length tokens) tokens in
  let decode_result := llama_decode L h batch in
  let evs := [ev_decode batch decode_result] in
  if (decode_result =? 0)%Z then (Return tt, evs)
  else (Throw (runtime_error "Failed to decode prompt"), evs).

(** The [while (n_generated < max_tokens)] loop of [generate_tokens], by
    recursion on [rounds], the number [max_tokens - n_generated] of rounds
    the test still allows.  [evs] are the calls made so far by this loop. *)
Fixpoint generate_loop (rounds : nat) (h evs : list event) (response : std_string)
  (n_generated cur_pos eos_count : Z) : generation * list event :=
  match rounds with
  | 0 => (Gen response n_generated MaxTokensReached, evs)
  | S rounds' =>
      let new_token := llama_sampler_sample L (h ++ evs) in
      let evs := evs ++ [ev_sampler_sample new_token] in
      let at_eos := (new_token =? llama_vocab_eos L)%Z in
      let eos_count := if at_eos then (eos_count + 1)%Z else eos_count in
      if at_eos && (1 <=? eos_count)%Z
      then (Gen response n_generated EndOfSequence, evs)
      else if (new_token <? 0)%Z
      then (Gen response n_generated InvalidToken, evs)
      else
        let '(n, buf) := llama_token_to_piece L new_token in
        let response :=
          if (0 <? n)%Z then response ++ firstn (Z.to_nat n) buf else response in
        let evs := evs ++ [ev_sampler_accept new_token] in
        let next_batch := [Slot new_token (to_int32 cur_pos) true 0] in
        let decode_result := llama_decode L (h ++ evs) next_batch in
        let evs := evs ++ [ev_decode next_batch decode_result] in
        if (decode_result =? 0)%Z
        then generate_loop rounds' h evs response (n_generated + 1) (cur_pos + 1)
               eos_count
        else (Gen response n_generated DecodeFailure, evs)
  end.

Definition generate_tokens (h : list event) (prompt_length : nat) (max_tokens : Z)
  : generation * list event :=
  generate_loop (Z.to_nat max_tokens) h [] [] 0 (Z.of_nat prompt_length) 0.

(** [LlamaInference::generate] on a constructed object ([model] and [ctx]
    are non-null once the constructor has returned). *)
Definition generate (h : list event) (prompt : std_string) (max_tokens : Z)
  : outcome generation * list event :=
  let evs := [ev_memory_clear; ev_sampler_reset] in
  let '(tokenized, evs1) := tokenize_prompt (h ++ evs) prompt in
  let evs := evs ++ evs1 in
  match tokenized with
  | Throw e => (Throw e, evs)
  | Return tokens =>
      if (ctx_params_n_ctx <=? Z.of_nat (length tokens))%Z
      then (Throw (runtime_error "Prompt exceeds context size"), evs)
      else
        let '(decoded, evs2) := decode_prompt (h ++ evs) tokens in
        let evs := evs ++ evs2 in
        match decoded with
        | Throw e => (Throw e, evs)
        | Return _ =>
            let evs := evs ++ map ev_sampler_accept tokens in
            let '(result, evs3) := generate_tokens (h ++ evs) (length tokens) max_tokens in
            (Return result, evs ++ evs3)
        end
  end.

End Session.

(** The text a token adds to the response: its piece when
    [llama_token_to_piece] reports a positive length, nothing otherwise. *)
Definition piece_of (L : llama) (t : llama_token) : std_string :=
  let '(n, buf) := llama_token_to_piece L t in
  if (0 <? n)%Z then firstn (Z.to_nat n) buf else [].

Definition pieces (L : llama) (ts : list llama_token) : std_string :=
  flat_map (piece_of L) ts.

(** What one run of the decode loop guarantees about the calls [new] it
    made, the response it started from and the result [g]. *)
Record loop_post (L : llama) (rounds : nat) (response : std_string) (n_generated : Z)
  (g : generation) (new : list event) : Prop := {
  post_text : text g = response ++ pieces L (accepted new);
  post_count : stop g <> DecodeFailure ->
               tokens_emitted g = (n_generated + Z.of_nat (length (accepted new)))%Z;
  post_fail : stop g = DecodeFailure ->
              (tokens_emitted g + 1 = n_generated + Z.of_nat (length (accepted new)))%Z;
  post_lower : (n_generated <= tokens_emitted g)%Z;
  post_no_eos : ~ In (llama_vocab_eos L) (accepted new);
  post_eos : stop g = EndOfSequence ->
             sampled new = accepted new ++ [llama_vocab_eos L];
  post_not_eos : stop g <> EndOfSequence -> ~ In (llama_vocab_eos L) (sampled new);
  post_max : stop g = MaxTokensReached ->
             sampled new = accepted new /\ length (accepted new) = rounds
             /\ tokens_emitted g = (n_generated + Z.of_nat rounds)%Z;
  post_early : stop g <> MaxTokensReached ->
               (tokens_emitted g < n_generated + Z.of_nat rounds)%Z
}.

(** A small engine for examples: every prompt tokenizes to
    [tokens_of_prompt], every decode succeeds, and the sampler answers with
    the [k]-th element of [script] on its [k]-th call (then with
    end-of-sequence, token 2, whose piece is not empty). *)
Definition scripted (tokens_of_prompt script : list llama_token) : llama := {|
  llama_tokenize := fun _ _ _ => (Z.of_nat (length tokens_of_prompt), tokens_of_prompt);
  llama_decode := fun _ _ => 0%Z;
  llama_sampler_sample := fun h => nth (length (sampled h)) script 2%Z;
  llama_vocab_eos := 2%Z;
  llama_token_to_piece := fun t =>
    if (t =? 2)%Z then (5%Z, lit "</s>xxx") else (1%Z, [ascii_of_N (Z.to_N (97 + t))])
|}.

End Generation.

(** ** What is submitted for decoding ([llama_api_server.cpp]) *)

Module Decoding.
Import Generation.

(** The slots of every batch handed to [llama_decode], in order. *)
Definition decoded_slots (evs : list event) : list batch_slot :=
  flat_map (fun e => match e with ev_decode batch _ => batch | _ => [] end) evs.

(** One slot per token at consecutive positions from [cur_pos], each asking
    for logits, in sequence 0: the batches of one token the decode loop
    builds, put end to end. *)
Fixpoint next_slots (cur_pos : Z) (tokens : list llama_token) : list batch_slot :=
  match tokens with
  | [] => []
  | t :: r => Slot t (to_int32 cur_pos) true 0 :: next_slots (cur_pos + 1) r
  end.

End Decoding.

(** ** Files and the command line ([llama_api_server_cv_detection.cpp]) *)

Module Cli.

(** [e.what()] of a [std::runtime_error], the only exceptions that reach
    the calls of [what] modelled with it.  The text the JSON library builds
    for its own exceptions is not modelled. *)
Definition what (e : exn) : std_string :=
  match e with
  | runtime_error message => list_ascii_of_string message
  | _ => []
  end.

(** [fgets(buffer, n + 1, pipe)]: at most [n] bytes, up to and including a
    newline; the bytes read and the rest of the stream. *)
Fixpoint fgets (n : nat) (stream : std_string) : std_string * std_string :=
  match n, stream with
  | S n', c :: r =>
      if char_eqb c "010"%char then ([c], r)
      else let (chunk, rest) := fgets n' r in (c :: chunk, rest)
  | _, _ => ([], stream)
  end.

(** [buffer.data()] read as a C string: the bytes before the first NUL. *)
Fixpoint c_str (buffer : std_string) : std_string :=
  match buffer with
  | c :: r => if char_eqb c "000"%char then [] else c :: c_str r
  | [] => []
  end.

(** The loop [while (fgets(...) != nullptr) result += buffer.data()] of
    [exec_command]; [fgets] fails at the end of the stream.  Every round
    takes at least one byte, so [length stream] rounds are enough. *)
Fixpoint read_pipe (fuel : nat) (stream result : std_string) : std_string :=
  match fuel with
  | 0 => result
  | S f =>
      match stream with
      | [] => result
      | _ => let (chunk, rest) := fgets 127 stream in
             read_pipe f rest (result ++ c_str chunk)
      end
  end.

(** [exec_command(cmd)], given what [popen(cmd, "r")] gives: no pipe, or the
    bytes the command writes before it closes its output.  A command that
    never closes it keeps the loop in [fgets]; such a run has no [stream]
    and is not covered. *)
Definition exec_command (pipe : option std_string) : outcome std_string :=
  match pipe with
  | None => Throw (runtime_error "popen() failed!")
  | Some stream => Return (read_pipe (length stream) stream [])
  end.

Definition whitespace : std_string := lit " \t\n\r".

(** [get_cli_version], given what [popen] gives for the version command
    ([llama_cli_path] followed by [--version 2>&1]). *)
Definition get_cli_version (pipe : option std_string) : std_string :=
  match exec_command pipe with
  | Return version_output =>
      match find_first_not_of whitespace version_output,
            find_last_not_of whitespace version_output with
      | Some first, Some last => substr first (last - first + 1) version_output
      | _, _ => lit "Version check failed or empty output."
      end
  | Throw e => lit "Version check failed: " ++ what e
  end.

(** [s] starts and ends with a byte outside [set]. *)
Definition edges_outside (set s : std_string) : bool :=
  match s with
  | x :: _ => negb (mem x set)
  | [] => false
  end
  && match back s with
     | Some y => negb (mem y set)
     | None => false
     end.

(** [std::tolower] in the "C" locale. *)
Definition tolower (c : ascii) : ascii :=
  if (65 <=? N_of_ascii c)%N && (N_of_ascii c <=? 90)%N
  then ascii_of_N (N_of_ascii c + 32) else c.

Definition is_pdf_file (filename : std_string) : bool :=
  if length filename <? 4 then false
  else
    let ext := skipn (length filename - 4) filename in
    Str.eqb (map tolower ext) (lit ".pdf").

(** [s.find_last_of(set)] *)
Fixpoint find_last_of (set s : std_string) : option nat :=
  match s with
  | [] => None
  | x :: s' =>
      match find_last_of set s' with
      | Some i => Some (S i)
      | None => if mem x set then Some 0 else None
      end
  end.

Definition separators : std_string := lit "/\\".

(** No byte of [s] is in [set]. *)
Definition free_of (set s : std_string) : bool :=
  forallb (fun c => negb (mem c set)) s.

(** How far poppler gets with a file: the failure [pdf_to_image] meets, if
    any. *)
Inductive pdf_status : Type :=
| pdf_ok | pdf_not_found | pdf_unreadable | pdf_no_first_page
| pdf_render_failed | pdf_save_failed.

(** [base_name] as [pdf_to_image] computes it: after the last separator, up
    to the last dot. *)
Definition base_name_of (pdf_path : std_string) : std_string :=
  let base_name :=
    skipn (match find_last_of (lit "/\\") pdf_path with
           | Some i => i + 1
           | None => 0
           end) pdf_path in
  match find_last_of (lit ".") base_name with
  | Some dot => firstn dot base_name
  | None => base_name
  end.

Definition runtime_error_at (message : string) (path : std_string) : exn :=
  runtime_error (message ++ string_of_list_ascii path).

Definition pdf_to_image (status : pdf_status) (pdf_path output_dir : std_string)
  : outcome std_string :=
  match status with
  | pdf_not_found => Throw (runtime_error_at "PDF file not found at: " pdf_path)
  | pdf_unreadable => Throw (runtime_error_at "Cannot open or read PDF: " pdf_path)
  | pdf_no_first_page => Throw (runtime_error "Cannot read first page of PDF")
  | pdf_render_failed => Throw (runtime_error "Failed to render PDF page to image")
  | _ =>
      let output_path :=
        output_dir ++ lit "/" ++ base_name_of pdf_path ++ lit "_page1.png" in
      match status with
      | pdf_save_failed => Throw (runtime_error_at "Failed to save image: " output_path)
      | _ => Return output_path
      end
  end.

End Cli.

(** ** Uses of the JSON library in the request handlers *)

Module JsonUse.

(** [j.contains(key)] *)
Definition contains (j : json) (key : std_string) : bool :=
  match j with
  | object m => match obj_find key m with Some _ => true | None => false end
  | _ => false
  end.

(** [j[key]] on a [json] that is not const, read as a value: a missing key
    gives null (the entry the call adds is not read again by the handlers),
    null behaves as an empty object, anything else is a [type_error.305].
    The const form is used only on keys already known to be there. *)
Definition subscript (j : json) (key : std_string) : outcome json :=
  match j with
  | object m => Return (match obj_find key m with Some v => v | None => null end)
  | null => Return null
  | _ => Throw (type_error 305)
  end.

(** [j.get<std::string>()], also the implicit conversion to [std::string]. *)
Definition get_string (j : json) : outcome std_string :=
  match j with
  | string_ s => Return s
  | _ => Throw (type_error 302)
  end.

Definition is_array (j : json) : bool :=
  match j with array _ => true | _ => false end.

(** What [for (const auto& x : j)] visits: the elements of an array, the
    values of an object, nothing for null, the value itself otherwise. *)
Definition elements (j : json) : list json :=
  match j with
  | array l => l
  | object m => map snd m
  | null => []
  | other => [other]
  end.

(** Well-formed UTF-8, as the serializer checks it. *)
Fixpoint utf8_valid (s : std_string) : bool :=
  match s with
  | [] => true
  | c :: r =>
      if (code c <? 128)%N then utf8_valid r
      else
        match utf8_tail (code c) with
        | [(l1, u1)] =>
            match r with
            | b1 :: r1 => in_range b1 l1 u1 && utf8_valid r1
            | _ => false
            end
        | [(l1, u1); (l2, u2)] =>
            match r with
            | b1 :: b2 :: r2 =>
                in_range b1 l1 u1 && in_range b2 l2 u2 && utf8_valid r2
            | _ => false
            end
        | [(l1, u1); (l2, u2); (l3, u3)] =>
            match r with
            | b1 :: b2 :: b3 :: r3 =>
                in_range b1 l1 u1 && in_range b2 l2 u2 && in_range b3 l3 u3
                && utf8_valid r3
            | _ => false
            end
        | _ => false
        end
  end.

Fixpoint strings_valid (j : json) : bool :=
  match j with
  | string_ s => utf8_valid s
  | array l => forallb strings_valid l
  | object m => forallb (fun kv => utf8_valid (fst kv) && strings_valid (snd kv)) m
  | _ => true
  end.

(** [j.dump(indent)] with the exception it can raise: a string that is not
    well-formed UTF-8 is a [type_error.316]. *)
Definition dump_checked (indent : Z) (j : json) : outcome std_string :=
  if strings_valid j then Return (dump indent j) else Throw (type_error 316).

(** [std::string x = j[key]] *)
Definition string_at (j : json) (key : std_string) : outcome std_string :=
  v <- subscript j key ;; get_string v.

End JsonUse.

(** ** Shapes of texts, tokens and values *)

Module JsonShape.
Import JsonUse.

(** Every string a token, an object or a parser frame holds is well-formed
    UTF-8. *)
Definition token_valid (t : token) : bool :=
  match t with tok_string s => utf8_valid s | _ => true end.

Definition entries_valid (m : list (std_string * json)) : bool :=
  forallb (fun kv => utf8_valid (fst kv) && strings_valid (snd kv)) m.

Definition frame_valid (f : frame) : bool :=
  match f with
  | in_array elems => forallb strings_valid elems
  | in_object m key => entries_valid m && utf8_valid key
  end.

Definition is_object (j : json) : bool :=
  match j with object _ => true | _ => false end.

(** The token list ends with a closing brace and the end of the input. *)
Fixpoint closes (ts : list token) : bool :=
  match ts with
  | [] => false
  | t :: ts' =>
      match t, ts' with
      | tok_end_object, [tok_end_of_input] => true
      | _, _ => closes ts'
      end
  end.

(** The token list ends with a lexical error. *)
Fixpoint fails (ts : list token) : bool :=
  match ts with
  | [] => false
  | t :: ts' =>
      match t, ts' with
      | tok_parse_error, [] => true
      | _, _ => fails ts'
      end
  end.

(** [cs] is not empty and its last byte is [c]. *)
Fixpoint ends_with (c : ascii) (cs : list ascii) : bool :=
  match cs with
  | [] => false
  | x :: r => match r with [] => char_eqb x c | _ => ends_with c r end
  end.

(** [rest] is what is left of [cs] after a closing [q]. *)
Inductive closed_by (q : ascii) (rest : list ascii) : list ascii -> Prop :=
| closed_here : closed_by q rest (q :: rest)
| closed_later (c : ascii) (cs : list ascii) :
    closed_by q rest cs -> closed_by q rest (c :: cs).

(** [rest] is what is left of [cs] after some bytes the last of which is
    not a closing brace. *)
Definition eats (cs rest : list ascii) : Prop :=
  exists consumed, cs = consumed ++ rest /\ ends_with "}"%char consumed = false.

Definition brace_free (cs : list ascii) : bool :=
  forallb (fun c => negb (code c =? 125)%N) cs.

(** [rest] is what is left of [cs] after some bytes none of which is a
    closing brace. *)
Definition takes (cs rest : list ascii) : Prop :=
  exists consumed, cs = consumed ++ rest /\ brace_free consumed = true.

(** One step of the lexer on a text that holds no NUL and ends with a
    closing brace: an error, the last brace, or a token that leaves such a
    text. *)
Definition step_ok (t : token) (rest : list ascii) : Prop :=
  t = tok_parse_error
  \/ (t = tok_end_object /\ rest = [])
  \/ (is_last t = false /\ ends_with "}"%char rest = true
      /\ ~ In "000"%char rest).

End JsonShape.

(** ** HTTP replies *)

Module Http.

(** The body of a reply: a text, or the text the [catch] clause builds
    around [e.what()] of the exception it caught.  The wording of [what] is
    not modelled, so that body is kept as the exception. *)
Inductive content : Type :=
| body_text (s : std_string)
| body_from (e : exn).

(** [status] is [None] when the handler leaves it alone; the server then
    sends 200. *)
Record response : Type := Resp { status : option Z; body : content }.

End Http.

(** ** The persona server ([llama_api_server.cpp]) *)

Module PersonaServer.
Import JsonUse Http Persona Generation.

Fixpoint samples_text_of (samples : list json) (samples_text : std_string)
  : outcome std_string :=
  match samples with
  | [] => Return samples_text
  | sample :: rest =>
      s <- get_string sample ;;
      samples_text_of rest (samples_text ++ s ++ lit " ")
  end.

Definition create_persona_prompt (input_json : json) : outcome std_string :=
  name <- string_at input_json (lit "name") ;;
  position <- string_at input_json (lit "position") ;;
  department <- string_at input_json (lit "department") ;;
  language <- string_at input_json (lit "language") ;;
  samples_text <-
    (if contains input_json (lit "samples")
     then samples <- subscript input_json (lit "samples") ;;
          if is_array samples then samples_text_of (elements samples) []
          else Return []
     else Return []) ;;
  Return
    (lit "Generate a one-sentence professional persona summary.\n\n"
     ++ lit "Input:\n"
     ++ lit "Name: " ++ name ++ lit "\n"
     ++ lit "Position: " ++ position ++ lit "\n"
     ++ lit "Department: " ++ department ++ lit "\n"
     ++ lit "Language: " ++ language ++ lit "\n"
     ++ lit "Writing samples: " ++ samples_text ++ lit "\n\n"
     ++ lit "Output format:it should include these fild specifically\n"
     ++ name ++ lit " (" ++ position ++ lit ", " ++ department
     ++ lit "). Preferred language: " ++ language
     ++ lit ". [tone] tone. [style] communication style.\n\n"
     ++ lit "Persona:").

Definition fallback_persona (name position department language : std_string)
  : std_string :=
  name ++ lit " (" ++ position ++ lit ", " ++ department
  ++ lit "). Preferred language: " ++ language
  ++ lit ". Professional tone inferred from writing samples. Direct communication style.".

Definition create_fallback_persona (input_json : json) : outcome std_string :=
  name <- string_at input_json (lit "name") ;;
  position <- string_at input_json (lit "position") ;;
  department <- string_at input_json (lit "department") ;;
  language <- string_at input_json (lit "language") ;;
  Return (fallback_persona name position department language).

Definition required_fields : list std_string :=
  [ lit "user_id"; lit "name"; lit "position"; lit "department";
    lit "language"; lit "samples" ].

(** What one request leaves behind: the reply, the calls made into
    llama.cpp and the body [send_to_api] posts to the profile API, if it
    posts one. *)
Record handled : Type :=
  Handled { reply : response; llama_calls : list event; posted : option std_string }.

Definition api_payload (text : std_string) : json :=
  object (json_object [ (lit "text", string_ text) ]).

(** [send_to_api]: the body it posts to [/ai/profile/persona], or nothing
    when serializing the payload fails inside its [try].  It keeps every
    exception to itself and the handler does not look at its result, so the
    answer of the peer is not modelled. *)
Definition send_to_api (text : std_string) : option std_string :=
  match dump_checked (-1) (api_payload text) with
  | Return body => Some body
  | Throw _ => None
  end.

Definition persona_output (user_id persona_string : std_string) : json :=
  object (json_object
    [ (lit "user_id", string_ user_id);
      (lit "persona_string", string_ persona_string) ]).

Definition missing_field_output (field : std_string) : json :=
  object (json_object
    [ (lit "error", string_ (lit "Missing required field: " ++ field)) ]).

Section Handler.

Variable L : llama.
Variable n_ctx : Z.

(** The handler of [POST /ai/profile/persona], after the required fields
    were found: the [try] block from [user_id] on.  [h] are the calls made
    into llama.cpp by earlier requests. *)
Definition persona_request (h : list event) (input_json : json)
  : outcome (std_string * std_string) * list event :=
  match (user_id <- string_at input_json (lit "user_id") ;;
         name <- string_at input_json (lit "name") ;;
         prompt <- create_persona_prompt input_json ;;
         Return (user_id, name, prompt)) with
  | Throw e => (Throw e, [])
  | Return (user_id, name, prompt) =>
      let '(generated, evs) := generate L n_ctx h prompt 256 in
      match generated with
      | Throw e => (Throw e, evs)
      | Return g =>
          let raw_output := Generation.text g in
          let persona_string := extract_persona_line raw_output name in
          match (if uses_fallback persona_string
                 then create_fallback_persona input_json
                 else Return persona_string) with
          | Throw e => (Throw e, evs)
          | Return persona_string => (Return (user_id, persona_string), evs)
          end
      end
  end.

(** The two [catch] clauses: a [parse_error] is answered 400, anything
    else 500.  Each clause builds its body from [e.what()]; the status is
    the one the clause sets before it does so. *)
Definition caught (e : exn) : response :=
  match e with
  | parse_error => Resp (Some 400%Z) (body_from e)
  | _ => Resp (Some 500%Z) (body_from e)
  end.

(** The handler of [POST /ai/profile/persona].  The body is serialized once
    for the log before anything else is done with it. *)
Definition persona_handler (h : list event) (req_body : std_string) : handled :=
  match (input_json <- Json.parse req_body ;;
         _ <- dump_checked 2 input_json ;;
         Return input_json) with
  | Throw e => Handled (caught e) [] None
  | Return input_json =>
      match List.find (fun field => negb (contains input_json field))
              required_fields with
      | Some field =>
          match dump_checked (-1) (missing_field_output field) with
          | Return s => Handled (Resp (Some 400%Z) (body_text s)) [] None
          | Throw e => Handled (caught e) [] None
          end
      | None =>
          match persona_request h input_json with
          | (Throw e, evs) => Handled (caught e) evs None
          | (Return (user_id, persona_string), evs) =>
              let posted := send_to_api persona_string in
              match dump_checked (-1) (persona_output user_id persona_string) with
              | Return s => Handled (Resp None (body_text s)) evs posted
              | Throw e => Handled (caught e) evs posted
              end
          end
      end
  end.

End Handler.

End PersonaServer.

(** ** The inbox server ([llama_api_server_cv_detection.cpp]) *)

Module InboxServer.
Import JsonUse Http Cli Extract.

Definition create_cv_detection_prompt : std_string :=
  lit "You are an AI assistant that extracts information from CV/resume images.\\n\\n"
  ++ lit "Please analyze the CV image and extract the following information:\\n"
  ++ lit "1. Name (full name of the candidate)\\n"
  ++ lit "2. Position (job title or desired position)\\n"
  ++ lit "3. Skills (list up to 10 key technical skills)\\n"
  ++ lit "4. Experience (total years of professional experience)\\n"
  ++ lit "5. Education (highest degree)\\n\\n"
  ++ lit "Return ONLY valid JSON in this exact format with no additional text:\\n"
  ++ lit "{\\n"
  ++ lit "  \\'name\\': \\'Full Name\\',\\n"
  ++ lit "  \\'position\\': \\'Job Title\\',\\n"
  ++ lit "  \\'skills\\': [\\'skill1\\', \\'skill2\\', \\'skill3\\'],\\n"
  ++ lit "  \\'experience\\': \\'X years\\',\\n"
  ++ lit "  \\'education\\': \\'Degree Name\\'\\n"
  ++ lit "}\\n\\n"
  ++ lit "Output:".

Definition attachments_note : std_string :=
  lit "Note: The email contains attachments (images shown above represent PDF content).\\n\\n".

Definition create_draft_reply_prompt
  (persona_string subject body instruction : std_string) (has_attachments : bool)
  : std_string :=
  let prompt :=
    lit "You are an AI assistant that drafts email replies based on user persona and instructions.\\n\\n"
    ++ lit "Persona: " ++ persona_string ++ lit "\\n\\n"
    ++ lit "Original Email Subject: " ++ subject ++ lit "\\n"
    ++ lit "Original Email Body: " ++ body ++ lit "\\n\\n" in
  let prompt := if has_attachments then prompt ++ attachments_note else prompt in
  let prompt :=
    match instruction with
    | [] => prompt
    | _ => prompt ++ lit "Instruction: " ++ instruction ++ lit "\\n\\n"
    end in
  let prompt :=
    prompt ++ lit "Draft a reply email that:\\n"
    ++ lit "1. Matches the persona" ++ ["'"%char]
    ++ lit "s tone and language preference\\n"
    ++ lit "2. " in
  let prompt :=
    match instruction with
    | [] => prompt ++ lit "Provides an appropriate response to the original email\\n"
    | _ => prompt ++ lit "Follows the given instruction\\n"
    end in
  prompt ++ lit "3. References attachment content if relevant\\n"
  ++ lit "4. Is professional and appropriate\\n\\n"
  ++ lit "Return ONLY valid JSON in this exact format with no additional text:\\n"
  ++ lit "{\\n"
  ++ lit "  \\'subject\\': \\'Re: [original subject]\\',\\n"
  ++ lit "  \\'draft_reply\\': \\'Your drafted email reply here\\'\\n"
  ++ lit "}\\n\\n"
  ++ lit "Output:".

Definition create_classification_prompt (subject body : std_string)
  (has_attachments : bool) : std_string :=
  let prompt :=
    lit "You are an AI assistant that classifies emails based on urgency and priority.\\n\\n"
    ++ lit "Email Subject: " ++ subject ++ lit "\\n"
    ++ lit "Email Body: " ++ body ++ lit "\\n\\n" in
  let prompt := if has_attachments then prompt ++ attachments_note else prompt in
  prompt ++ lit "Classify this email into ONE of the following categories:\\n"
  ++ lit "1. \\'Urgent & Action Required\\' - Requires immediate attention and action\\n"
  ++ lit "2. \\'Normal Follow-up\\' - Regular business communication requiring response\\n"
  ++ lit "3. \\'FYI / Low Priority\\' - Informational only, no immediate action needed\\n"
  ++ lit "4. \\'Spam\\' - Unsolicited, irrelevant, or suspicious content\\n\\n"
  ++ lit "Consider:\\n"
  ++ lit "- Time-sensitive keywords (deadline, urgent, ASAP, today, tomorrow)\\n"
  ++ lit "- Action verbs (submit, complete, respond, approve)\\n"
  ++ lit "- Sender context and attachment relevance\\n\\n"
  ++ lit "Return ONLY valid JSON in this exact format with no additional text:\\n"
  ++ lit "{\\n"
  ++ lit "  \\'category\\': \\'One of the four categories above\\',\\n"
  ++ lit "  \\'confidence\\': 0.85\\n"
  ++ lit "}\\n\\n"
  ++ lit "Output:".

(** The three paths [main] is configured with. *)
Record config : Type := {
  llama_cli_path : std_string;
  main_model_path : std_string;
  mmproj_path : std_string
}.

(** The paths [main] starts from. *)
Definition default_config : config := {|
  llama_cli_path := lit "../externals/llama.cpp/build/bin/llama-mtmd-cli";
  main_model_path :=
    lit "/home/nor/.cache/llama.cpp/google_gemma-3-4b-it-qat-q4_0-gguf_gemma-3-4b-it-q4_0.gguf";
  mmproj_path :=
    lit "/home/nor/.cache/llama.cpp/google_gemma-3-4b-it-qat-q4_0-gguf_mmproj-model-f16-4B.gguf"
|}.

(** The loop of [main] over [argv[1]], [argv[2]], ...: a flag takes the next
    argument as its value, whatever that argument is; a flag in the last
    place and any other argument are passed over. *)
Fixpoint parse_arguments (args : list std_string) (cfg : config) : config :=
  match args with
  | [] => cfg
  | arg :: rest =>
      match rest with
      | value :: rest' =>
          if Str.eqb arg (lit "--main-model-path") then
            parse_arguments rest'
              {| llama_cli_path := llama_cli_path cfg;
                 main_model_path := value;
                 mmproj_path := mmproj_path cfg |}
          else if Str.eqb arg (lit "--mmproj-path") then
            parse_arguments rest'
              {| llama_cli_path := llama_cli_path cfg;
                 main_model_path := main_model_path cfg;
                 mmproj_path := value |}
          else if Str.eqb arg (lit "--cli-path") then
            parse_arguments rest'
              {| llama_cli_path := value;
                 main_model_path := main_model_path cfg;
                 mmproj_path := mmproj_path cfg |}
          else parse_arguments rest cfg
      | [] => cfg
      end
  end.

(** [value] is [default_value] or stands in [args] right after [flag]. *)
Definition given_by (flag : std_string) (args : list std_string)
  (default_value value : std_string) : Prop :=
  value = default_value
  \/ exists before rest, args = before ++ flag :: value :: rest.

(** The file system, poppler and the shell are not modelled: for the [k]-th
    attachment of a request the world says whether [stat] finds the temp
    directory, whether [mkdir] succeeds when it is called and how far
    poppler gets with the file, and for a command what [popen] gives. *)
Record world : Type := {
  temp_dir_found : nat -> bool;
  mkdir_done : nat -> bool;
  pdf_result : nat -> std_string -> pdf_status;
  popen : std_string -> option std_string
}.

(** The calls a request makes that can change something outside the
    process, in the order they are made: [mkdir(path, 0755)], whatever it
    returns; [img.save(path, "png")], as [os_image] when it returns true
    and as [os_save_failed] when it returns false; [popen(cmd)] by
    [exec_command]; [remove(path)], whatever it returns, on the C string
    [path].  Calls that only read ([stat], loading and rendering the PDF)
    leave no event. *)
Inductive os_event : Type :=
| os_mkdir (path : std_string)
| os_image (path : std_string)
| os_save_failed (path : std_string)
| os_exec (cmd : std_string)
| os_remove (path : std_string).

Definition dirs_made (evs : list os_event) : list std_string :=
  flat_map (fun e => match e with os_mkdir p => [p] | _ => [] end) evs.

Definition images_written (evs : list os_event) : list std_string :=
  flat_map (fun e => match e with os_image p => [p] | _ => [] end) evs.

Definition commands_run (evs : list os_event) : list std_string :=
  flat_map (fun e => match e with os_exec c => [c] | _ => [] end) evs.

Definition files_removed (evs : list os_event) : list std_string :=
  flat_map (fun e => match e with os_remove p => [p] | _ => [] end) evs.

(** A path [../uploads/temp/<base>_page1.png] with no separator in
    [<base>]. *)
Definition in_temp_dir (path : std_string) : Prop :=
  exists base,
    path = lit "../uploads/temp/" ++ base ++ lit "_page1.png"
    /\ free_of separators base = true.


(** What is left of a conversion that gave no image: [mkdir] on the temp
    directory, or a [save] on a path inside it that reported failure. *)
Definition failed_conversion (e : os_event) : Prop :=
  e = os_mkdir (lit "../uploads/temp")
  \/ exists path, e = os_save_failed path /\ in_temp_dir path.

(** What an attachment loop may call: [mkdir] on the temp directory and
    [save] on a path inside it. *)
Definition conversion (e : os_event) : Prop :=
  failed_conversion e
  \/ exists path, e = os_image path /\ in_temp_dir path.

(** What an attachment loop keeps true: [image_paths] are the images saved
    so far, and nothing but conversions was called. *)
Definition converted (image_paths : list std_string) (evs : list os_event)
  : Prop :=
  images_written evs = image_paths /\ Forall conversion evs.


(** [cleanup_temp_images]: [remove(path.c_str())] for every path that is
    not empty. *)
Definition cleanup_temp_images (image_paths : list std_string) : list os_event :=
  map (fun path => os_remove (c_str path))
    (filter (fun path => match path with [] => false | _ => true end) image_paths).

Section Server.

Variable cfg : config.
Variable W : world.

(** The loop building [image_args]. *)
Definition image_args_of (image_paths : list std_string) : std_string :=
  flat_map (fun path => lit " --image " ++ path) image_paths.

Definition vision_command (image_paths : list std_string) (prompt : std_string)
  (tail : std_string) : std_string :=
  llama_cli_path cfg ++ lit " "
  ++ lit "-m " ++ main_model_path cfg ++ lit " "
  ++ lit "--mmproj " ++ mmproj_path cfg ++ lit " "
  ++ image_args_of image_paths ++ lit " "
  ++ lit "-p '" ++ prompt ++ lit "' "
  ++ lit "--n-gpu-layers 0 "
  ++ tail
  ++ lit "2>&1".

(** The [try]/[catch] that ends the three [process_..._with_vision]
    functions. *)
Definition run_vision (cmd : std_string) : outcome std_string :=
  match exec_command (popen W cmd) with
  | Return output => Return output
  | Throw e =>
      Throw (runtime_error
               ("Failed to execute vision model: " ++ string_of_list_ascii (what e)))
  end.

Definition cv_command (image_paths : list std_string) : std_string :=
  vision_command image_paths create_cv_detection_prompt
    (lit "--temp 0.3 " ++ lit "-n 800 ").

Definition process_cv_with_vision (image_paths : list std_string)
  : outcome std_string :=
  run_vision (cv_command image_paths).

Definition draft_reply_command (image_paths : list std_string)
  (persona_string subject body instruction : std_string) : std_string :=
  vision_command image_paths
    (create_draft_reply_prompt persona_string subject body instruction
       (match image_paths with [] => false | _ => true end))
    (lit "--temp 0.7 " ++ lit "-n 1000 ").

Definition process_draft_reply_with_vision (image_paths : list std_string)
  (persona_string subject body instruction : std_string) : outcome std_string :=
  run_vision (draft_reply_command image_paths persona_string subject body instruction).

Definition classification_command (image_paths : list std_string)
  (subject body : std_string) : std_string :=
  vision_command image_paths
    (create_classification_prompt subject body
       (match image_paths with [] => false | _ => true end))
    (lit "--temp 0.3 " ++ lit "-n 500 ").

Definition process_classification_with_vision (image_paths : list std_string)
  (subject body : std_string) : outcome std_string :=
  run_vision (classification_command image_paths subject body).

(** [pdf_to_image] as the loops call it: the result, and the [save] it
    made when poppler got that far. *)
Definition save_image (k : nat) (pdf_path temp_dir : std_string)
  : outcome std_string * list os_event :=
  let status := pdf_result W k pdf_path in
  match pdf_to_image status pdf_path temp_dir with
  | Return current_image_path =>
      (Return current_image_path, [os_image current_image_path])
  | Throw e =>
      (Throw e,
       match status with
       | pdf_save_failed =>
           [os_save_failed
              (temp_dir ++ lit "/" ++ base_name_of pdf_path ++ lit "_page1.png")]
       | _ => []
       end)
  end.

(** The inner [try] block of the attachment loops: [stat] on the temp
    directory, [mkdir] when it is not found, then [pdf_to_image].  The
    result and the calls made. *)
Definition convert (k : nat) (filename : std_string)
  : outcome std_string * list os_event :=
  let pdf_path := lit "../uploads/" ++ filename in
  let temp_dir := lit "../uploads/temp" in
  if temp_dir_found W k then save_image k pdf_path temp_dir
  else if mkdir_done W k then
    let '(current_image_path, saved) := save_image k pdf_path temp_dir in
    (current_image_path, os_mkdir temp_dir :: saved)
  else (Throw (runtime_error "Failed to create temp directory"),
        [os_mkdir temp_dir]).

(** One round of an attachment loop once the file name is known: a PDF that
    converts adds its image, anything else leaves [image_paths] as it is;
    [evs] are the calls made so far. *)
Definition add_attachment (k : nat) (filename : std_string)
  (image_paths : list std_string) (evs : list os_event)
  : list std_string * list os_event :=
  if is_pdf_file filename then
    match convert k filename with
    | (Return current_image_path, calls) =>
        (image_paths ++ [current_image_path], evs ++ calls)
    | (Throw _, calls) => (image_paths, evs ++ calls)
    end
  else (image_paths, evs).

(** The attachment loop of [/ai/inbox/detect-cv]: each attachment is a file
    name.  The result is [image_paths], the calls made and the exception
    that ended the loop, if any. *)
Fixpoint detect_attachments (k : nat) (attachments : list json)
  (image_paths : list std_string) (evs : list os_event)
  : list std_string * list os_event * option exn :=
  match attachments with
  | [] => (image_paths, evs, None)
  | attachment :: rest =>
      match get_string attachment with
      | Throw e => (image_paths, evs, Some e)
      | Return filename =>
          let '(image_paths, evs) :=
            add_attachment k filename image_paths evs in
          detect_attachments (S k) rest image_paths evs
      end
  end.

(** The attachment loop of the other two handlers: each attachment is an
    object with a [filename]. *)
Fixpoint named_attachments (k : nat) (attachments : list json)
  (image_paths : list std_string) (evs : list os_event)
  : list std_string * list os_event * option exn :=
  match attachments with
  | [] => (image_paths, evs, None)
  | attachment :: rest =>
      if contains attachment (lit "filename") then
        match string_at attachment (lit "filename") with
        | Throw e => (image_paths, evs, Some e)
        | Return filename =>
            let '(image_paths, evs) :=
              add_attachment k filename image_paths evs in
            named_attachments (S k) rest image_paths evs
        end
      else named_attachments (S k) rest image_paths evs
  end.

(** [if (contains("attachments") && input_json["attachments"].is_array())]
    with the loop inside. *)
Definition optional_attachments (input_json : json)
  : list std_string * list os_event * option exn :=
  if contains input_json (lit "attachments") then
    match subscript input_json (lit "attachments") with
    | Return attachments =>
        if is_array attachments
        then named_attachments 0 (elements attachments) [] []
        else ([], [], None)
    | Throw e => ([], [], Some e)
    end
  else ([], [], None).

(** The outer [catch]: clean up and answer 500. *)
Definition internal_error (e : exn) (image_paths : list std_string)
  (evs : list os_event) : response * list os_event :=
  (Resp (Some 500%Z) (body_from e), evs ++ cleanup_temp_images image_paths).

(** The end of a handler: [cleanup_temp_images], then [output_json] is
    built and serialized with [dump(2)].  An exception raised on the way
    reaches the outer [catch], which goes over the images once more. *)
Definition finish (output_json : outcome json) (image_paths : list std_string)
  (evs : list os_event) : response * list os_event :=
  let evs := evs ++ cleanup_temp_images image_paths in
  match (output_json <- output_json ;; dump_checked 2 output_json) with
  | Return s => (Resp None (body_text s), evs)
  | Throw e => internal_error e image_paths evs
  end.

Definition bad_request (message : std_string) : response * list os_event :=
  (Resp (Some 400%Z) (body_text message), []).

Definition detect_cv_output (email_id : std_string) (cv_detected : bool)
  (metadata : json) : json :=
  object (obj_set (lit "metadata") metadata
            (json_object [ (lit "email_id", string_ email_id);
                           (lit "cv_detected", boolean cv_detected) ])).

(** [POST /ai/inbox/detect-cv] *)
Definition detect_cv (req_body : std_string) : response * list os_event :=
  match Json.parse req_body with
  | Throw e => internal_error e [] []
  | Return input_json =>
      if negb (contains input_json (lit "attachments"))
      then bad_request (lit "{'error':'Missing required fields: attachments'}")
      else
        match (email_id <- string_at input_json (lit "email_id") ;;
               attachments <- subscript input_json (lit "attachments") ;;
               Return (email_id, attachments)) with
        | Throw e => internal_error e [] []
        | Return (email_id, attachments) =>
            let '(image_paths, evs, failure) :=
              detect_attachments 0 (elements attachments) [] [] in
            match failure with
            | Some e => internal_error e image_paths evs
            | None =>
                match image_paths with
                | [] => finish (Return (detect_cv_output email_id false (object [])))
                          image_paths evs
                | _ =>
                    let evs := evs ++ [os_exec (cv_command image_paths)] in
                    match (model_output <- process_cv_with_vision image_paths ;;
                           parse_cv_metadata model_output) with
                    | Throw e => internal_error e image_paths evs
                    | Return metadata =>
                        finish (Return (detect_cv_output email_id true metadata))
                          image_paths evs
                    end
                end
            end
        end
  end.

Definition draft_reply_output (email_id : std_string) (subject draft_reply : json)
  : json :=
  object (json_object [ (lit "email_id", string_ email_id);
                        (lit "subject", subject);
                        (lit "draft_reply", draft_reply) ]).

(** [POST /ai/inbox/draft-reply] *)
Definition draft_reply (req_body : std_string) : response * list os_event :=
  match Json.parse req_body with
  | Throw e => internal_error e [] []
  | Return input_json =>
      if negb (contains input_json (lit "email_id"))
         || negb (contains input_json (lit "subject"))
         || negb (contains input_json (lit "body"))
         || negb (contains input_json (lit "persona_string"))
      then bad_request
             (lit "{'error':'Missing required fields: email_id, subject, body, persona_string'}")
      else
        match (email_id <- string_at input_json (lit "email_id") ;;
               subject <- string_at input_json (lit "subject") ;;
               body <- string_at input_json (lit "body") ;;
               persona_string <- string_at input_json (lit "persona_string") ;;
               instruction <- value_string input_json (lit "instruction") [] ;;
               Return (email_id, subject, body, persona_string, instruction)) with
        | Throw e => internal_error e [] []
        | Return (email_id, subject, body, persona_string, instruction) =>
            let '(image_paths, evs, failure) := optional_attachments input_json in
            match failure with
            | Some e => internal_error e image_paths evs
            | None =>
                let evs :=
                  evs ++ [os_exec (draft_reply_command image_paths persona_string
                                     subject body instruction)] in
                match (model_output <-
                         process_draft_reply_with_vision image_paths persona_string
                           subject body instruction ;;
                       parse_draft_reply model_output) with
                | Throw e => internal_error e image_paths evs
                | Return reply_data =>
                    finish
                      (reply_subject <- subscript reply_data (lit "subject") ;;
                       reply_text <- subscript reply_data (lit "draft_reply") ;;
                       Return (draft_reply_output email_id reply_subject reply_text))
                      image_paths evs
                end
            end
        end
  end.

Definition classify_output (email_id : std_string) (category confidence : json)
  : json :=
  object (json_object [ (lit "email_id", string_ email_id);
                        (lit "category", category);
                        (lit "confidence", confidence) ]).

(** [POST /ai/inbox/classify] *)
Definition classify_email (req_body : std_string) : response * list os_event :=
  match Json.parse req_body with
  | Throw e => internal_error e [] []
  | Return input_json =>
      if negb (contains input_json (lit "email_id"))
         || negb (contains input_json (lit "subject"))
         || negb (contains input_json (lit "body"))
      then bad_request (lit "{'error':'Missing required fields: email_id, subject, body'}")
      else
        match (email_id <- string_at input_json (lit "email_id") ;;
               subject <- string_at input_json (lit "subject") ;;
               body <- string_at input_json (lit "body") ;;
               Return (email_id, subject, body)) with
        | Throw e => internal_error e [] []
        | Return (email_id, subject, body) =>
            let '(image_paths, evs, failure) := optional_attachments input_json in
            match failure with
            | Some e => internal_error e image_paths evs
            | None =>
                let evs :=
                  evs ++ [os_exec (classification_command image_paths subject body)] in
                match (model_output <-
                         process_classification_with_vision image_paths subject body ;;
                       parse_classification model_output) with
                | Throw e => internal_error e image_paths evs
                | Return classification_data =>
                    finish
                      (category <-
                         subscript classification_data (lit "category") ;;
                       confidence <-
                         subscript classification_data (lit "confidence") ;;
                       Return (classify_output email_id category confidence))
                      image_paths evs
                end
            end
        end
  end.

End Server.

End InboxServer.

(** ** Sample requests and engines for the examples *)

Module Samples.
Import Generation PersonaServer InboxServer.

(** An engine that recites [output] byte by byte and then ends the
    sequence: token [t] below 256 is the byte [t], 256 is end-of-sequence;
    every prompt is one token and every decode succeeds. *)
Definition reciting (output : std_string) : llama := {|
  llama_tokenize := fun _ _ _ => (1%Z, [0%Z]);
  llama_decode := fun _ _ => 0%Z;
  llama_sampler_sample := fun h =>
    nth (length (sampled h)) (map (fun c => Z.of_N (N_of_ascii c)) output) 256%Z;
  llama_vocab_eos := 256%Z;
  llama_token_to_piece := fun t => (1%Z, [ascii_of_N (Z.to_N t)])
|}.

(** The value a text parses to (null when it does not parse). *)
Definition parsed (text : std_string) : json :=
  match Json.parse text with
  | Return j => j
  | Throw _ => null
  end.

Definition persona_body : std_string :=
  lit "{'user_id': 'u7', 'name': 'Ann Lee', 'position': 'Engineer', 'department': 'R&D', 'language': 'English', 'samples': ['Hi team,', 'Thanks.']}".


Definition ann_lee_persona : std_string :=
  lit "Ann Lee (Engineer, R&D). Preferred language: English. Warm tone. Brief style.".

Definition sample_config : config := {|
  llama_cli_path := lit "llama-mtmd-cli";
  main_model_path := lit "gemma.gguf";
  mmproj_path := lit "mmproj.gguf"
|}.

(** A world where the temp directory is missing at the first attachment
    and there afterwards, every conversion succeeds and every command
    prints [output]. *)
Definition answering (output : std_string) : world := {|
  temp_dir_found := fun k => negb (k =? 0);
  mkdir_done := fun _ => true;
  pdf_result := fun _ _ => Cli.pdf_ok;
  popen := fun _ => Some output
|}.

Definition classify_body : std_string :=
  lit "{'email_id': 'e1', 'subject': 'Invoice', 'body': 'Please pay today.'}".

Definition detect_cv_body : std_string :=
  lit "{'email_id': 'e2', 'attachments': ['cv/ann.PDF', 'notes.txt']}".

Definition notes_only_body : std_string :=
  lit "{'email_id': 'e3', 'attachments': ['notes.txt']}".

Definition draft_reply_body : std_string :=
  lit "{'email_id': 'e4', 'subject': 'Hi', 'body': 'Lunch?', 'persona_string': 'Ann, brief.'}".

Definition cv_output : std_string :=
  lit "Sure.\n{'name': 'Ann Lee', 'skills': ['C++']}\n".

Definition draft_output : std_string := lit "{'subject': 'Re: Hi'}".

End Samples.

(** * Properties *)

(** ** Byte strings *)

Section StrFacts.

Lemma char_eqb_eq (a b : ascii) : char_eqb a b = true <-> a = b.
Proof. apply Ascii.eqb_eq. Qed.

Lemma starts_with_app (pat s : std_string) :
  starts_with pat s = true -> exists post, s = pat ++ post.
Proof.
  revert s; induction pat as [|p pat IH]; intros s H.
  - exists s; reflexivity.
  - destruct s as [|c s]; simpl in H; [discriminate|].
    apply andb_true_iff in H as [Hc Hs].
    apply char_eqb_eq in Hc; subst c.
    destruct (IH _ Hs) as [post ->].
    exists post; reflexivity.
Qed.


(** [find] answers [npos] exactly when the pattern occurs nowhere. *)
Lemma str_find_none (pat s : std_string) :
  (forall pre post, s <> pre ++ pat ++ post) -> find pat s = None.
Proof.
  induction s as [|c s IH]; intros H.
  - simpl. destruct (starts_with pat []) eqn:E; [|reflexivity].
    apply starts_with_app in E as [post E].
    exfalso; apply (H [] post); exact E.
  - simpl. destruct (starts_with pat (c :: s)) eqn:E.
    + apply starts_with_app in E as [post E].
      exfalso; apply (H [] post); exact E.
    + rewrite IH; [reflexivity|].
      intros pre post ->. apply (H (c :: pre) post); reflexivity.
Qed.

Lemma str_find_some (pat s : std_string) (p : nat) :
  find pat s = Some p ->
  exists post, s = firstn p s ++ pat ++ post /\ p + length pat <= length s.
Proof.
  revert p; induction s as [|c s IH]; intros p H; simpl in H.
  - destruct (starts_with pat []) eqn:E; [|discriminate].
    injection H as <-. apply starts_with_app in E as [post E].
    exists post; split; [exact E|].
    apply (f_equal (@length ascii)) in E. rewrite length_app in E. lia.
  - destruct (starts_with pat (c :: s)) eqn:E.
    + injection H as <-. apply starts_with_app in E as [post E].
      exists post; split; [exact E|].
      apply (f_equal (@length ascii)) in E. rewrite length_app in E. lia.
    + destruct (find pat s) as [q|] eqn:F; [|discriminate].
      injection H as <-. destruct (IH q eq_refl) as [post [Hs Hl]].
      exists post; split; [|simpl; lia].
      simpl. rewrite <- Hs. reflexivity.
Qed.

Lemma find_char_none (c : ascii) (s : std_string) :
  ~ In c s -> find_char c s = None.
Proof.
  induction s as [|x s IH]; intros H; simpl; [reflexivity|].
  destruct (char_eqb x c) eqn:E.
  - apply char_eqb_eq in E. exfalso; apply H; left; exact E.
  - rewrite IH; [reflexivity|]. intros Hin; apply H; right; exact Hin.
Qed.

Lemma rfind_char_nth (c : ascii) (s : std_string) (i : nat) :
  rfind_char c s = Some i -> nth_error s i = Some c.
Proof.
  revert i; induction s as [|x s IH]; intros i H; simpl in H; [discriminate|].
  destruct (rfind_char c s) as [j|].
  - injection H as <-. simpl. apply IH; reflexivity.
  - destruct (char_eqb x c) eqn:E; [|discriminate].
    injection H as <-. apply char_eqb_eq in E; subst; reflexivity.
Qed.

Lemma firstn_snoc_nth (A : Type) (l : list A) (k : nat) (a : A) :
  nth_error l k = Some a -> firstn (k + 1) l = firstn k l ++ [a].
Proof.
  revert k; induction l as [|x l IH]; intros k H.
  - destruct k; discriminate.
  - destruct k as [|k]; simpl in *.
    + injection H as ->; reflexivity.
    + rewrite (IH _ H); reflexivity.
Qed.

(** The slice [substr(start, end - start + 1)] ends with the byte at [end]. *)
Lemma substr_last (s : std_string) (start_marker end_marker : nat) (c : ascii) :
  nth_error s end_marker = Some c -> start_marker <= end_marker ->
  substr start_marker (end_marker - start_marker + 1) s
  = substr start_marker (end_marker - start_marker) s ++ [c].
Proof.
  intros Hn Hle. unfold substr. apply firstn_snoc_nth.
  rewrite nth_error_skipn. replace (start_marker + (end_marker - start_marker))
    with end_marker by lia. exact Hn.
Qed.

Lemma back_snoc (s : std_string) (c : ascii) : back (s ++ [c]) = Some c.
Proof. unfold back. rewrite map_app. simpl. apply last_last. Qed.

Lemma take_line_getlines (s cur : std_string) (pending : bool) :
  getlines_from cur pending s
  = match s with
    | [] => if pending then [rev cur] else []
    | _ => (rev cur ++ fst (take_line s)) :: getlines_from [] false (snd (take_line s))
    end.
Proof.
  revert cur pending; induction s as [|c s IH]; intros cur pending; [reflexivity|].
  simpl. destruct (char_eqb c "010"%char) eqn:E.
  - simpl. rewrite app_nil_r. reflexivity.
  - rewrite IH. destruct s as [|d s'].
    + simpl. reflexivity.
    + destruct (take_line (d :: s')) as [l rest] eqn:T. simpl.
      rewrite <- app_assoc. reflexivity.
Qed.

(** [getlines] is the list of lines successive [getline] calls deliver. *)
Lemma getlines_getline (s : std_string) :
  getlines s = match getline s with
               | None => []
               | Some (line, rest) => line :: getlines rest
               end.
Proof.
  unfold getlines, getline. rewrite take_line_getlines.
  destruct s as [|c s]; [reflexivity|].
  destruct (take_line (c :: s)); reflexivity.
Qed.

End StrFacts.

(** ** Persona line selection *)

Module PersonaFacts.
Import Persona.

Lemma starts_with_name_long (name line : std_string) :
  starts_with_name name line = true -> 50 < length line.
Proof.
  unfold starts_with_name. intros H.
  apply andb_true_iff in H as [_ H]. apply Nat.ltb_lt; exact H.
Qed.

Lemma persona_shaped_long (line : std_string) :
  persona_shaped line = true -> 50 < length line.
Proof.
  unfold persona_shaped. intros H.
  apply andb_true_iff in H as [H _]. apply andb_true_iff in H as [H _].
  apply Nat.ltb_lt; exact H.
Qed.

(** Every value [best_line] ever takes is a trimmed line longer than 50. *)
Lemma scan_lines_result (name : std_string) (lines : list std_string)
  (best_line : std_string) :
  scan_lines name lines best_line = best_line
  \/ (50 < length (scan_lines name lines best_line)
      /\ exists raw, In raw lines /\ scan_lines name lines best_line = trim raw).
Proof.
  revert best_line; induction lines as [|raw rest IH]; intros best_line; simpl.
  - left; reflexivity.
  - assert (Hin : forall b,
               (50 < length (scan_lines name rest b)
                /\ exists r, In r rest /\ scan_lines name rest b = trim r) ->
               (50 < length (scan_lines name rest b)
                /\ exists r, (raw = r \/ In r rest)
                             /\ scan_lines name rest b = trim r)).
    { intros b [Hl [r [Hr He]]]. split; [exact Hl|]. exists r; auto. }
    destruct (is_skipped (trim raw)).
    { destruct (IH best_line) as [H|H]; [left; exact H|right; apply Hin; exact H]. }
    destruct (starts_with_name name (trim raw)) eqn:Hn.
    { right. split; [apply (starts_with_name_long _ _ Hn)|].
      exists raw; auto. }
    destruct (persona_shaped (trim raw)) eqn:Hp.
    { right. destruct (IH (trim raw)) as [H|H]; [|apply Hin; exact H].
      rewrite H. split; [apply (persona_shaped_long _ Hp)|].
      exists raw; auto. }
    destruct (IH best_line) as [H|H]; [left; exact H|right; apply Hin; exact H].
Qed.

(** C9.  The result of [extract_persona_line] is empty or a trimmed line of
    the output longer than 50 bytes, so the caller's test (empty, or shorter
    than 20) holds exactly when the result is empty. *)
Theorem extract_persona_line_empty_or_long (raw_output name : std_string) :
  let persona_string := extract_persona_line raw_output name in
  (persona_string = []
   \/ (50 < length persona_string
       /\ exists raw, In raw (getlines raw_output) /\ persona_string = trim raw))
  /\ (uses_fallback persona_string = true <-> persona_string = []).
Proof.
  cbv zeta.
  assert (H : extract_persona_line raw_output name = []
              \/ (50 < length (extract_persona_line raw_output name)
                  /\ exists raw, In raw (getlines raw_output)
                                 /\ extract_persona_line raw_output name = trim raw)).
  { unfold extract_persona_line. destruct raw_output as [|c r]; [left; reflexivity|].
    apply scan_lines_result. }
  split; [exact H|].
  unfold uses_fallback. split.
  - intros Hf. destruct H as [H|[Hl _]]; [exact H|].
    destruct (extract_persona_line raw_output name) as [|x p]; [reflexivity|].
    change (false || (length (x :: p) <? 20) = true) in Hf.
    rewrite orb_false_l in Hf. apply Nat.ltb_lt in Hf. lia.
  - intros ->. reflexivity.
Qed.

End PersonaFacts.

(** ** The JSON library *)

Module JsonFacts.

Lemma span_digits_length (cs : list ascii) :
  length (snd (span_digits cs)) <= length cs.
Proof.
  induction cs as [|c r IH]; simpl; [lia|].
  destruct (is_digit c); simpl; [|lia].
  destruct (span_digits r) as [ds rest]. simpl in *. lia.
Qed.

Lemma scan_exponent_length neg ints fracs is_float (cs : list ascii) :
  length (snd (scan_exponent neg ints fracs is_float cs)) <= length cs.
Proof.
  unfold scan_exponent. destruct cs as [|x r]; simpl; [lia|].
  destruct ((code x =? 101)%N || (code x =? 69)%N); simpl; [|lia].
  destruct r as [|s r']; simpl.
  - lia.
  - destruct (code s =? 43)%N; [|destruct (code s =? 45)%N].
    + pose proof (span_digits_length r') as Hs.
      destruct (span_digits r') as [es rest]. simpl in Hs.
      destruct es; simpl; lia.
    + pose proof (span_digits_length r') as Hs.
      destruct (span_digits r') as [es rest]. simpl in Hs.
      destruct es; simpl; lia.
    + pose proof (span_digits_length (s :: r')) as Hs.
      destruct (span_digits (s :: r')) as [es rest]. simpl in Hs.
      destruct es; simpl; lia.
Qed.

Lemma scan_fraction_length neg ints (cs : list ascii) :
  length (snd (scan_fraction neg ints cs)) <= length cs.
Proof.
  unfold scan_fraction. destruct cs as [|p r].
  - apply scan_exponent_length.
  - destruct (code p =? 46)%N; [|apply scan_exponent_length].
    pose proof (span_digits_length r) as Hs.
    destruct (span_digits r) as [fs rest]. simpl in Hs.
    destruct fs as [|f fs].
    + simpl; lia.
    + pose proof (scan_exponent_length neg ints (f :: fs) true rest). simpl in *; lia.
Qed.

(** A number token takes at least one byte. *)
Lemma scan_number_shrinks (c : ascii) (r : list ascii) :
  length (snd (scan_number (c :: r))) < length (c :: r).
Proof.
  unfold scan_number.
  assert (H : forall neg d r0,
            length (snd (if (code d =? 48)%N then scan_fraction neg [d] r0
                         else if is_digit d then
                                let (ds, rest) := span_digits r0 in
                                scan_fraction neg (d :: ds) rest
                              else (tok_parse_error, r0))) < length (d :: r0)).
  { intros neg d r0. destruct (code d =? 48)%N.
    - pose proof (scan_fraction_length neg [d] r0). simpl in *; lia.
    - destruct (is_digit d); [|simpl in *; lia].
      pose proof (span_digits_length r0) as Hs.
      destruct (span_digits r0) as [ds rest]. simpl in Hs.
      pose proof (scan_fraction_length neg (d :: ds) rest). simpl in *; lia. }
  destruct (code c =? 45)%N.
  - destruct r as [|d r0]; [simpl; lia|].
    pose proof (H true d r0) as H'. simpl length in *. lia.
  - apply H.
Qed.

Ltac scan_cases H IH :=
  repeat match type of H with
    | None = Some _ => discriminate H
    | Some _ = Some _ => injection H as ? ?; subst; simpl; lia
    | scan_string _ _ = Some _ => apply IH in H; simpl in *; lia
    | context [match ?x with _ => _ end] =>
        destruct x eqn:?; cbv beta match in H
    end.

(** [scan_string] returns a proper suffix of what it was given. *)
Lemma scan_string_shrinks (n : nat) :
  forall cs acc s rest,
    length cs <= n -> scan_string acc cs = Some (s, rest) ->
    length rest < length cs.
Proof.
  induction n as [|n IH]; intros cs acc s rest Hn H.
  - destruct cs; [discriminate H|simpl in Hn; lia].
  - destruct cs as [|c r]; [discriminate H|].
    simpl in Hn. cbn [scan_string] in H.
    assert (IH' : forall cs' acc', length cs' <= n ->
              scan_string acc' cs' = Some (s, rest) -> length rest < length cs').
    { intros; eapply IH; eauto. }
    clear IH.
    scan_cases H IH'.
Qed.


Lemma skip_whitespace_length (cs : list ascii) :
  length (skip_whitespace cs) <= length cs.
Proof.
  induction cs as [|c r IH]; simpl; [lia|].
  destruct ((code c =? 32)%N || (code c =? 9)%N || (code c =? 10)%N
            || (code c =? 13)%N); simpl; lia.
Qed.

Lemma scan_literal_length text t (cs : list ascii) :
  length (snd (scan_literal text t cs)) <= length cs.
Proof.
  unfold scan_literal. destruct (starts_with text cs); cbn [snd];
    rewrite length_skipn; lia.
Qed.

(** Every token that does not end the stream takes at least one byte. *)
Lemma scan_shrinks (cs : list ascii) :
  is_last (fst (scan cs)) = false -> length (snd (scan cs)) < length cs.
Proof.
  unfold scan. pose proof (skip_whitespace_length cs) as Hw.
  destruct (skip_whitespace cs) as [|c r]; [discriminate|].
  simpl in Hw.
  repeat match goal with
    | |- context [if ?b then _ else _] =>
        lazymatch b with
        | (_ =? _)%N => destruct b
        | (_ || _) => destruct b
        end
    end; simpl fst; simpl snd; try (intros _; lia); try discriminate.
  - pose proof (scan_literal_length (lit "rue") tok_true r). intros _; lia.
  - pose proof (scan_literal_length (lit "alse") tok_false r). intros _; lia.
  - pose proof (scan_literal_length (lit "ull") tok_null r). intros _; lia.
  - destruct (scan_string [] r) as [[s rest]|] eqn:E; [|discriminate].
    apply (@scan_string_shrinks (length r)) in E; [|lia]. simpl. intros _; lia.
  - pose proof (scan_number_shrinks c r). simpl in *. intros _; lia.
Qed.

(** More fuel than bytes changes nothing: the lexer never runs out. *)
Lemma tokens_fuel (f1 : nat) :
  forall f2 cs, length cs < f1 -> length cs < f2 -> tokens f1 cs = tokens f2 cs.
Proof.
  induction f1 as [|f1 IH]; intros f2 cs H1 H2; [lia|].
  destruct f2 as [|f2]; [lia|]. simpl.
  pose proof (scan_shrinks cs) as Hs.
  destruct (scan cs) as [t rest]. simpl in Hs.
  destruct t; try reflexivity; f_equal; apply IH;
    specialize (Hs eq_refl); lia.
Qed.

(** [json::parse] raises nothing but [parse_error] and [out_of_range.406]. *)
Lemma parse_value_throws (n : nat) :
  forall ts, length ts <= n ->
    (forall stack e, parse_value stack ts = Throw e ->
                     e = parse_error \/ e = out_of_range 406)
    /\ (forall stack v e, after_value stack v ts = Throw e ->
                          e = parse_error \/ e = out_of_range 406).
Proof.
  induction n as [|n IH]; intros ts Hn.
  - destruct ts; [|simpl in Hn; lia]. split.
    + intros stack e H. simpl in H. injection H as <-; auto.
    + intros stack v e H. destruct stack as [|[elems|m key] stack];
        simpl in H; injection H as <-; auto.
  - assert (IHp : forall ts' stack e, length ts' <= n ->
                    parse_value stack ts' = Throw e ->
                    e = parse_error \/ e = out_of_range 406).
    { intros ts' stack e Hl. apply (proj1 (IH ts' Hl)). }
    assert (IHa : forall ts' stack v e, length ts' <= n ->
                    after_value stack v ts' = Throw e ->
                    e = parse_error \/ e = out_of_range 406).
    { intros ts' stack v e Hl. apply (proj2 (IH ts' Hl)). }
    clear IH. split.
    + intros stack e H. destruct ts as [|t ts']; [injection H as <-; auto|].
      simpl in Hn. cbn [parse_value] in H.
      destruct t; try (injection H as <-; auto; fail);
        try (apply IHa in H; [exact H|lia]).
      * destruct ts' as [|t1 ts1].
        -- apply IHp in H; [exact H|simpl; lia].
        -- destruct t1; try (apply IHp in H; [exact H|simpl in *; lia]).
           apply IHa in H; [exact H|simpl in *; lia].
      * destruct ts' as [|t1 ts1]; [injection H as <-; auto|].
        destruct t1; try (injection H as <-; auto; fail).
        -- apply IHa in H; [exact H|simpl in *; lia].
        -- destruct ts1 as [|t2 ts2]; [injection H as <-; auto|].
           destruct t2; try (injection H as <-; auto; fail).
           apply IHp in H; [exact H|simpl in *; lia].
      * destruct (dec_is_finite d).
        -- apply IHa in H; [exact H|lia].
        -- injection H as <-; auto.
    + intros stack v e H. destruct stack as [|[elems|m key] stack].
      * destruct ts as [|t ts']; [injection H as <-; auto|].
        cbn [after_value] in H.
        destruct t; try (injection H as <-; auto; fail).
        destruct ts'; [discriminate H|injection H as <-; auto].
      * destruct ts as [|t ts']; [injection H as <-; auto|].
        simpl in Hn. cbn [after_value] in H.
        destruct t; try (injection H as <-; auto; fail).
        -- apply IHa in H; [exact H|lia].
        -- apply IHp in H; [exact H|lia].
      * destruct ts as [|t ts']; [injection H as <-; auto|].
        simpl in Hn. cbn [after_value] in H.
        destruct t; try (injection H as <-; auto; fail).
        -- apply IHa in H; [exact H|lia].
        -- destruct ts' as [|t1 ts1]; [injection H as <-; auto|].
           destruct t1; try (injection H as <-; auto; fail).
           destruct ts1 as [|t2 ts2]; [injection H as <-; auto|].
           destruct t2; try (injection H as <-; auto; fail).
           apply IHp in H; [exact H|simpl in *; lia].
Qed.

Lemma parse_throws (text : std_string) (e : exn) :
  parse text = Throw e -> e = parse_error \/ e = out_of_range 406.
Proof.
  unfold parse. intros H.
  apply (proj1 (@parse_value_throws (length (lex text)) (lex text) (le_n _)) [] e H).
Qed.

End JsonFacts.

(** ** Delimited-JSON extractors *)

Module ExtractFacts.
Import Extract.

Lemma str_eqb_eq (a b : std_string) : Str.eqb a b = true <-> a = b.
Proof.
  revert b; induction a as [|x a IH]; intros [|y b]; simpl;
    try (split; [discriminate|discriminate]); [tauto|].
  rewrite andb_true_iff, IH. unfold char_eqb. rewrite Ascii.eqb_eq.
  split; [intros [-> ->]; reflexivity|intros H; injection H; auto].
Qed.

Lemma dec_compare_antisym (a b : decimal) :
  dec_compare b a = CompOpp (dec_compare a b).
Proof.
  unfold dec_compare. rewrite (Z.min_comm (dexp b) (dexp a)).
  apply Z.compare_antisym.
Qed.

(** The two [if]s leave a confidence between 0.0 and 1.0. *)
Lemma clamp_bounds (confidence : decimal) :
  dec_leb dec_0_0 (clamp confidence) = true
  /\ dec_leb (clamp confidence) dec_1_0 = true.
Proof.
  unfold clamp, dec_ltb, dec_leb.
  destruct (dec_compare confidence dec_0_0) eqn:E0.
  - destruct (dec_compare dec_1_0 confidence) eqn:E1.
    + rewrite (dec_compare_antisym confidence dec_0_0), E0.
      rewrite (dec_compare_antisym dec_1_0 confidence), E1. split; reflexivity.
    + split; reflexivity.
    + rewrite (dec_compare_antisym confidence dec_0_0), E0.
      rewrite (dec_compare_antisym dec_1_0 confidence), E1. split; reflexivity.
  - split; reflexivity.
  - destruct (dec_compare dec_1_0 confidence) eqn:E1.
    + rewrite (dec_compare_antisym confidence dec_0_0), E0.
      rewrite (dec_compare_antisym dec_1_0 confidence), E1. split; reflexivity.
    + split; reflexivity.
    + rewrite (dec_compare_antisym confidence dec_0_0), E0.
      rewrite (dec_compare_antisym dec_1_0 confidence), E1. split; reflexivity.
Qed.

Lemma clamp_inside (confidence : decimal) :
  dec_leb dec_0_0 confidence = true -> dec_leb confidence dec_1_0 = true ->
  clamp confidence = confidence.
Proof.
  unfold clamp, dec_ltb, dec_leb.
  rewrite (dec_compare_antisym dec_0_0 confidence).
  destruct (dec_compare dec_0_0 confidence); simpl; try discriminate;
    rewrite (dec_compare_antisym confidence dec_1_0);
    destruct (dec_compare confidence dec_1_0); simpl; try discriminate;
    reflexivity.
Qed.

Lemma validate_category_valid (category : std_string) :
  In (validate_category category) valid_categories.
Proof.
  unfold validate_category.
  destruct (existsb (Str.eqb category) valid_categories) eqn:E.
  - apply existsb_exists in E as [x [Hin Heq]].
    apply str_eqb_eq in Heq. subst x. exact Hin.
  - right; right; left; reflexivity.
Qed.



Lemma find_nbsp_nil : find non_breaking_space_utf8 [] = None.
Proof. reflexivity. Qed.

Lemma replace_nbsp_loop_done (fuel : nat) :
  forall json_str, length json_str <= fuel ->
    find non_breaking_space_utf8 (replace_nbsp_loop fuel json_str) = None.
Proof.
  induction fuel as [|fuel IH]; intros json_str Hl.
  - destruct json_str; [reflexivity|simpl in Hl; lia].
  - cbn [replace_nbsp_loop].
    destruct (find non_breaking_space_utf8 json_str) as [p|] eqn:E; [|exact E].
    apply IH. apply str_find_some in E as [post [_ Hp]].
    change (length non_breaking_space_utf8) with 2 in *.
    rewrite !length_app, length_firstn, length_skipn.
    change (length (lit " ")) with 1. lia.
Qed.

(** The replacement loop runs to its end: no non-breaking space is left. *)
Lemma replace_nbsp_done (json_str : std_string) :
  find non_breaking_space_utf8 (replace_nbsp json_str) = None.
Proof. apply replace_nbsp_loop_done. apply le_n. Qed.

Lemma pop_junk_brace (reversed : std_string) :
  pop_junk ("}"%char :: reversed) = "}"%char :: reversed.
Proof. reflexivity. Qed.

Lemma strip_tail_brace (s : std_string) :
  strip_tail (s ++ ["}"%char]) = s ++ ["}"%char].
Proof.
  unfold strip_tail. rewrite rev_app_distr. simpl rev at 2. simpl app.
  rewrite pop_junk_brace.
  change (rev ("}"%char :: rev s)) with (rev (rev s) ++ ["}"%char]).
  rewrite rev_involutive. reflexivity.
Qed.

(** The guard of the three extractors holds exactly when both markers were
    found and the end marker lies after the start marker. *)
Lemma json_span_some (model_output json_str : std_string) :
  json_span model_output = Some json_str <->
  exists start_marker end_marker,
    find_start_marker model_output = Some start_marker
    /\ find_end_marker model_output = Some end_marker
    /\ start_marker < end_marker
    /\ json_str = substr start_marker (end_marker - start_marker + 1) model_output.
Proof.
  unfold json_span. split.
  - destruct (find_start_marker model_output) as [s|]; [|discriminate].
    destruct (find_end_marker model_output) as [e|]; [|discriminate].
    destruct (s <? e) eqn:E; [|discriminate].
    intros H; injection H as <-. exists s, e.
    apply Nat.ltb_lt in E. auto.
  - intros [s [e [-> [-> [Hlt ->]]]]].
    apply Nat.ltb_lt in Hlt. rewrite Hlt. reflexivity.
Qed.

(** C10.  Whenever the guard of an extractor lets a span through (both
    markers found, the end marker after the start marker), the slice taken
    by [substr] ends with the closing brace [rfind] found, and the loop that
    pops trailing backticks, newlines, carriage returns and spaces leaves it
    as it is.  The three extractors share this code. *)
Theorem json_span_ends_with_brace
  (model_output : std_string) (start_marker end_marker : nat) :
  find_start_marker model_output = Some start_marker ->
  find_end_marker model_output = Some end_marker ->
  start_marker < end_marker ->
  let json_str := substr start_marker (end_marker - start_marker + 1) model_output in
  json_span model_output = Some json_str
  /\ back json_str = Some "}"%char
  /\ strip_tail json_str = json_str.
Proof.
  intros Hs He Hlt json_str.
  assert (Hsplit : json_str
                   = substr start_marker (end_marker - start_marker) model_output
                     ++ ["}"%char]).
  { apply substr_last; [|lia]. apply rfind_char_nth. exact He. }
  split; [|split].
  - apply json_span_some. exists start_marker, end_marker. auto.
  - rewrite Hsplit. apply back_snoc.
  - rewrite Hsplit. apply strip_tail_brace.
Qed.

Lemma json_span_ends_with_brace_witness :
  json_span spam_text
  = Some (lit "{'category': 'Spam', 'confidence': 1.7}")
  /\ back (lit "{'category': 'Spam', 'confidence': 1.7}") = Some "}"%char
  /\ strip_tail (lit "{'category': 'Spam', 'confidence': 1.7}")
     = lit "{'category': 'Spam', 'confidence': 1.7}".
Proof.
  exact (@json_span_ends_with_brace spam_text 18 56
           eq_refl eq_refl (proj1 (Nat.ltb_lt 18 56) eq_refl)).
Defined.

(** C7.  A text with no opening brace and no [```json] fence makes
    [parse_cv_metadata] return the fixed fallback record, whose entries are
    "Unknown" for name, position, experience and education and the empty
    array for skills. *)
Theorem parse_cv_metadata_no_brace (model_output : std_string) :
  ~ In "{"%char model_output ->
  (forall pre post, model_output <> pre ++ lit "```json" ++ post) ->
  parse_cv_metadata model_output = Return cv_fallback
  /\ cv_fallback
     = object [ (lit "education", string_ (lit "Unknown"));
                (lit "experience", string_ (lit "Unknown"));
                (lit "name", string_ (lit "Unknown"));
                (lit "position", string_ (lit "Unknown"));
                (lit "skills", array []) ].
Proof.
  intros Hbrace Hfence. split; [|reflexivity].
  unfold parse_cv_metadata, json_span, find_start_marker.
  rewrite (@str_find_none _ _ Hfence), (@find_char_none _ _ Hbrace). reflexivity.
Qed.

Lemma lit_json_fence_nonempty (pre post : std_string) :
  lit "no json here" <> pre ++ lit "```json" ++ post.
Proof.
  intros H.
  assert (Hin : In "`"%char (lit "no json here")).
  { rewrite H. apply in_or_app. right. left. reflexivity. }
  vm_compute in Hin.
  repeat (destruct Hin as [Hin|Hin]; [discriminate Hin|]). exact Hin.
Qed.

Lemma parse_cv_metadata_no_brace_witness :
  parse_cv_metadata (lit "no json here") = Return cv_fallback
  /\ cv_fallback
     = object [ (lit "education", string_ (lit "Unknown"));
                (lit "experience", string_ (lit "Unknown"));
                (lit "name", string_ (lit "Unknown"));
                (lit "position", string_ (lit "Unknown"));
                (lit "skills", array []) ].
Proof.
  apply (@parse_cv_metadata_no_brace (lit "no json here")).
  - vm_compute. intros H.
    repeat (destruct H as [H|H]; [discriminate H|]). exact H.
  - apply lit_json_fence_nonempty.
Defined.

(** C8.  Each extractor, run on the serialized text of its own fallback
    record (compact, or indented by 2 as the handlers send it), returns that
    same record. *)
Theorem extractors_idempotent_on_fallback :
  parse_cv_metadata (dump (-1) cv_fallback) = Return cv_fallback
  /\ parse_draft_reply (dump (-1) draft_fallback) = Return draft_fallback
  /\ parse_classification (dump (-1) classification_fallback)
     = Return classification_fallback
  /\ parse_cv_metadata (dump 2 cv_fallback) = Return cv_fallback
  /\ parse_draft_reply (dump 2 draft_fallback) = Return draft_fallback
  /\ parse_classification (dump 2 classification_fallback)
     = Return classification_fallback.
Proof. repeat split; vm_compute; reflexivity. Qed.

(** C1 (the code departs from the claim).  [parse_classification] on
    [{"category": 5, "confidence": 0.5}]: the text parses, [value] finds a
    number where a string is asked for and raises [type_error.302], which
    the handler for [parse_error] does not catch.  In the same way a number
    too large for a double makes [json::parse] raise [out_of_range.406] in
    all three extractors. *)
Theorem extractors_can_raise :
  parse_classification numeric_category_text = Throw (type_error 302)
  /\ parse_cv_metadata huge_number_text = Throw (out_of_range 406)
  /\ parse_draft_reply huge_number_text = Throw (out_of_range 406)
  /\ parse_classification huge_number_text = Throw (out_of_range 406).
Proof. repeat split; vm_compute; reflexivity. Qed.

(** C2 (the code departs from the claim).  A parsed category outside the
    four literals is replaced only when it is a string: for [null] or a
    number the record is rejected with [type_error.302], and so it is for a
    confidence that is not a number.  The specification's own example
    behaves as claimed. *)
Theorem parse_classification_rejects_untyped :
  parse_classification (lit "{'category': null, 'confidence': 0.9}")
  = Throw (type_error 302)
  /\ parse_classification (lit "{'category': 'Spam', 'confidence': 'high'}")
     = Throw (type_error 302)
  /\ parse_classification spam_text
     = Return (classification (lit "Spam") dec_1_0).
Proof. repeat split; vm_compute; reflexivity. Qed.

(** What the two extractors that return the parsed value do in each case: no
    span or a [parse_error] gives the fallback, a parsed value is returned
    as it is, and the only exception that can leave them is the
    [out_of_range.406] of [json::parse]. *)
Theorem parsed_or_fallback (model_output : std_string) :
  (json_span model_output = None ->
   parse_cv_metadata model_output = Return cv_fallback
   /\ parse_draft_reply model_output = Return draft_fallback)
  /\ (forall json_str,
         json_span model_output = Some json_str ->
         Json.parse (clean json_str) = Throw parse_error ->
         parse_cv_metadata model_output = Return cv_fallback
         /\ parse_draft_reply model_output = Return draft_fallback)
  /\ (forall json_str parsed,
         json_span model_output = Some json_str ->
         Json.parse (clean json_str) = Return parsed ->
         parse_cv_metadata model_output = Return parsed
         /\ parse_draft_reply model_output = Return parsed)
  /\ (forall e,
         parse_cv_metadata model_output = Throw e
         \/ parse_draft_reply model_output = Throw e ->
         e = out_of_range 406).
Proof.
  unfold parse_cv_metadata, parse_draft_reply.
  split; [|split; [|split]].
  - intros ->. split; reflexivity.
  - intros json_str -> ->. split; reflexivity.
  - intros json_str parsed -> ->. split; reflexivity.
  - intros e H.
    destruct (json_span model_output) as [json_str|];
      [|destruct H as [H|H]; discriminate H].
    destruct (Json.parse (clean json_str)) as [j|e'] eqn:E;
      [destruct H as [H|H]; discriminate H|].
    destruct (JsonFacts.parse_throws _ E) as [->| ->].
    + destruct H as [H|H]; discriminate H.
    + destruct H as [H|H]; simpl in H; injection H as <-; reflexivity.
Qed.



(** The exceptions that can leave [parse_classification]: the
    [type_error]s of the two [value] calls and the [out_of_range.406] of
    [json::parse]. *)
Theorem parse_classification_throws (model_output : std_string) (e : exn) :
  parse_classification model_output = Throw e ->
  e = type_error 302 \/ e = type_error 306 \/ e = out_of_range 406.
Proof.
  unfold parse_classification, classify. intros H.
  destruct (json_span model_output) as [json_str|]; [|discriminate H].
  destruct (Json.parse (clean json_str)) as [parsed|e'] eqn:E.
  - cbn [bind] in H. unfold value_string, value_double in H.
    destruct parsed; cbn [bind catch_parse_error] in H;
      try (injection H as <-; auto; fail).
    destruct (obj_find (lit "category") m) as [[]|];
      cbn [bind catch_parse_error] in H; try (injection H as <-; auto; fail);
      destruct (obj_find (lit "confidence") m) as [[]|];
      cbn [bind catch_parse_error] in H; try (injection H as <-; auto; fail);
      discriminate H.
  - cbn [bind] in H. destruct (JsonFacts.parse_throws _ E) as [->| ->].
    + discriminate H.
    + simpl in H. injection H as <-; auto.
Qed.

Lemma parse_classification_throws_witness :
  parse_classification numeric_category_text = Throw (type_error 302)
  /\ (type_error 302 = type_error 302 \/ type_error 302 = type_error 306
      \/ type_error 302 = out_of_range 406).
Proof.
  split; [vm_compute; reflexivity|].
  apply (@parse_classification_throws numeric_category_text (type_error 302)).
  vm_compute. reflexivity.
Defined.

End ExtractFacts.

(** ** Generation session *)

Module GenerationFacts.
Import Generation.

Section SessionFacts.

Variable L : llama.

Lemma accepted_app (a b : list event) : accepted (a ++ b) = accepted a ++ accepted b.
Proof. apply flat_map_app. Qed.

Lemma sampled_app (a b : list event) : sampled (a ++ b) = sampled a ++ sampled b.
Proof. apply flat_map_app. Qed.

Lemma accepted_map_accept (ts : list llama_token) :
  accepted (map ev_sampler_accept ts) = ts.
Proof. induction ts as [|t ts IH]; simpl; [|rewrite IH]; reflexivity. Qed.

Lemma sampled_map_accept (ts : list llama_token) :
  sampled (map ev_sampler_accept ts) = [].
Proof. induction ts as [|t ts IH]; simpl; [|rewrite IH]; reflexivity. Qed.

Ltac post_easy :=
  try solve [ discriminate | tauto | congruence | lia | intros; simpl; lia
            | rewrite app_nil_r; reflexivity ].

Lemma generate_loop_post (rounds : nat) :
  forall h evs response n_generated cur_pos eos_count,
    (0 <= eos_count)%Z ->
    exists new,
      snd (generate_loop L rounds h evs response n_generated cur_pos eos_count)
      = evs ++ new
      /\ loop_post L rounds response n_generated
           (fst (generate_loop L rounds h evs response n_generated cur_pos eos_count))
           new.
Proof.
  induction rounds as [|rounds IH]; intros h evs response n_generated cur_pos eos_count Hc.
  - exists []. simpl. rewrite app_nil_r. split; [reflexivity|].
    constructor; simpl; post_easy.
    intros _. split; [reflexivity|]. split; [reflexivity|]. lia.
  - cbn [generate_loop].
    set (t := llama_sampler_sample L (h ++ evs)).
    destruct (t =? llama_vocab_eos L)%Z eqn:Et.
    + apply Z.eqb_eq in Et.
      replace (1 <=? eos_count + 1)%Z with true
        by (symmetry; apply Z.leb_le; lia).
      exists [ev_sampler_sample t]. split; [reflexivity|].
      constructor; simpl; post_easy.
    + apply Z.eqb_neq in Et. cbn [andb].
      destruct (t <? 0)%Z eqn:Hneg.
      * exists [ev_sampler_sample t]. split; [reflexivity|].
        constructor; simpl; post_easy.
      * destruct (llama_token_to_piece L t) as [n buf] eqn:Hp.
        set (response' := if (0 <? n)%Z then response ++ firstn (Z.to_nat n) buf
                          else response).
        assert (Hr : response' = response ++ piece_of L t).
        { unfold response', piece_of. rewrite Hp.
          destruct (0 <? n)%Z; [reflexivity|]. rewrite app_nil_r; reflexivity. }
        set (evs1 := (evs ++ [ev_sampler_sample t]) ++ [ev_sampler_accept t]).
        set (rc := llama_decode L (h ++ evs1) [Slot t (to_int32 cur_pos) true 0]).
        destruct (rc =? 0)%Z eqn:Hrc.
        -- destruct (IH h (evs1 ++ [ev_decode [Slot t (to_int32 cur_pos) true 0] rc])
                       response' (n_generated + 1)%Z (cur_pos + 1)%Z eos_count Hc)
             as [new [Hsnd Hpost]].
           exists ([ev_sampler_sample t; ev_sampler_accept t;
                    ev_decode [Slot t (to_int32 cur_pos) true 0] rc] ++ new).
           split.
           ++ rewrite Hsnd. unfold evs1. rewrite <- !app_assoc. reflexivity.
           ++ destruct Hpost as [Htext Hcount Hfail Hlow Hno Heos Hneos Hmax Hearly].
              constructor; rewrite ?accepted_app, ?sampled_app; simpl.
              ** rewrite Htext, Hr. unfold pieces. simpl.
                 rewrite <- app_assoc. reflexivity.
              ** intros H. rewrite (Hcount H). lia.
              ** intros H. specialize (Hfail H). lia.
              ** lia.
              ** intros [H|H]; [apply Et; exact H|apply Hno; exact H].
              ** intros H. rewrite (Heos H). reflexivity.
              ** intros H [H'|H']; [apply Et; exact H'|].
                 apply (Hneos H); exact H'.
              ** intros H. destruct (Hmax H) as [H1 [H2 H3]].
                 rewrite H1, H2, H3. repeat split; lia.
              ** intros H. specialize (Hearly H). lia.
        -- exists [ev_sampler_sample t; ev_sampler_accept t;
                   ev_decode [Slot t (to_int32 cur_pos) true 0] rc].
           split; [unfold evs1; rewrite <- !app_assoc; reflexivity|].
           constructor; simpl; post_easy.
           ++ rewrite Hr. unfold pieces. simpl. rewrite app_nil_r. reflexivity.
Qed.

(** C4.  In every run of the decode loop the end-of-sequence token is never
    accepted and adds no text: the response is the concatenation of the
    pieces of the accepted tokens, none of which is end-of-sequence.  The
    loop stops with EndOfSequence exactly when end-of-sequence was sampled,
    and then that sample is the last one, so its first occurrence ends the
    generation. *)
Theorem generate_tokens_stops_at_first_eos
  (h : list event) (prompt_length : nat) (max_tokens : Z) :
  let run := generate_tokens L h prompt_length max_tokens in
  let eos := llama_vocab_eos L in
  (In eos (sampled (snd run)) <-> stop (fst run) = EndOfSequence)
  /\ (stop (fst run) = EndOfSequence ->
      sampled (snd run) = accepted (snd run) ++ [eos])
  /\ ~ In eos (accepted (snd run))
  /\ text (fst run) = pieces L (accepted (snd run)).
Proof.
  cbv zeta. unfold generate_tokens.
  destruct (@generate_loop_post (Z.to_nat max_tokens) h [] []
              0%Z (Z.of_nat prompt_length) 0%Z (Z.le_refl 0)) as [new [Hsnd Hpost]].
  rewrite Hsnd. simpl app.
  destruct Hpost as [Htext Hcount Hfail Hlow Hno Heos Hneos Hmax Hearly].
  split; [|split; [exact Heos|split; [exact Hno|exact Htext]]].
  split.
  - intros Hin.
    destruct (stop (fst (generate_loop L (Z.to_nat max_tokens) h [] [] 0
                           (Z.of_nat prompt_length) 0))) eqn:Hstop;
      try reflexivity; exfalso; (apply Hneos; [discriminate|exact Hin]).
  - intros H. rewrite (Heos H). apply in_or_app. right. left. reflexivity.
Qed.

(** The exits of the loop against its test: the loop ends as
    MaxTokensReached exactly when [n_generated < max_tokens] no longer
    holds, with [max (0, max_tokens)] tokens generated; every other exit
    leaves with the test still true. *)
Theorem generate_tokens_loop_test
  (h : list event) (prompt_length : nat) (max_tokens : Z) :
  let g := fst (generate_tokens L h prompt_length max_tokens) in
  (stop g = MaxTokensReached <-> ~ (tokens_emitted g < max_tokens)%Z)
  /\ (0 <= tokens_emitted g)%Z
  /\ (stop g = MaxTokensReached <-> tokens_emitted g = Z.max 0 max_tokens).
Proof.
  cbv zeta. unfold generate_tokens.
  destruct (@generate_loop_post (Z.to_nat max_tokens) h [] []
              0%Z (Z.of_nat prompt_length) 0%Z (Z.le_refl 0)) as [new [_ Hpost]].
  destruct Hpost as [_ _ _ Hlow _ _ _ Hmax Hearly].
  destruct (stop (fst (generate_loop L (Z.to_nat max_tokens) h [] [] 0
                         (Z.of_nat prompt_length) 0))) eqn:Hstop.
  - assert (He : EndOfSequence <> MaxTokensReached) by discriminate.
    specialize (Hearly He). repeat split; try discriminate; lia.
  - destruct (Hmax eq_refl) as [_ [_ Hn]]. repeat split; lia.
  - assert (He : InvalidToken <> MaxTokensReached) by discriminate.
    specialize (Hearly He). repeat split; try discriminate; lia.
  - assert (He : DecodeFailure <> MaxTokensReached) by discriminate.
    specialize (Hearly He). repeat split; try discriminate; lia.
Qed.

Variable n_ctx : Z.

(** C3.  When the tokenized prompt has at least [ctx_params.n_ctx] tokens,
    [generate] throws "Prompt exceeds context size" after the context was
    cleared, the sampler reset and the prompt tokenized, and before any
    other call: no decode, no sample, no accept. *)
Theorem generate_rejects_long_prompt
  (h : list event) (prompt : std_string) (max_tokens : Z)
  (tokens : list llama_token) (evs1 : list event) :
  tokenize_prompt L (h ++ [ev_memory_clear; ev_sampler_reset]) prompt
  = (Return tokens, evs1) ->
  (ctx_params_n_ctx n_ctx <= Z.of_nat (length tokens))%Z ->
  exists n_tokens,
    generate L n_ctx h prompt max_tokens
    = (Throw (runtime_error "Prompt exceeds context size"),
       [ev_memory_clear; ev_sampler_reset; ev_tokenize prompt n_tokens])
    /\ existsb is_decode (snd (generate L n_ctx h prompt max_tokens)) = false
    /\ existsb is_sample (snd (generate L n_ctx h prompt max_tokens)) = false
    /\ existsb is_accept (snd (generate L n_ctx h prompt max_tokens)) = false.
Proof.
  intros Htok Hlen. unfold generate. rewrite Htok.
  apply Z.leb_le in Hlen. rewrite Hlen.
  unfold tokenize_prompt in Htok.
  destruct (llama_tokenize L _ prompt _) as [n_tokens buffer].
  destruct (n_tokens <? 0)%Z; [discriminate|].
  injection Htok as _ <-.
  exists n_tokens. simpl. auto.
Qed.

(** C6 (amended).  When [generate] returns because the loop test
    [n_generated < max_tokens] failed, the sampler chain has accepted the
    tokens of the prompt followed by every sampled token, and
    [max (0, max_tokens)] tokens were sampled: the prompt's length plus
    [max_tokens] accepts in all, [max_tokens] of them in the decode loop. *)
Theorem generate_max_tokens_accepts
  (h : list event) (prompt : std_string) (max_tokens : Z)
  (g : generation) (evs : list event) :
  generate L n_ctx h prompt max_tokens = (Return g, evs) ->
  stop g = MaxTokensReached ->
  exists tokens,
    fst (tokenize_prompt L (h ++ [ev_memory_clear; ev_sampler_reset]) prompt)
    = Return tokens
    /\ accepted evs = tokens ++ sampled evs
    /\ Z.of_nat (length (sampled evs)) = Z.max 0 max_tokens
    /\ Z.of_nat (length (accepted evs))
       = (Z.of_nat (length tokens) + Z.max 0 max_tokens)%Z
    /\ tokens_emitted g = Z.max 0 max_tokens.
Proof.
  unfold generate.
  destruct (tokenize_prompt L (h ++ [ev_memory_clear; ev_sampler_reset]) prompt)
    as [tokenized evs1] eqn:Htok.
  destruct tokenized as [tokens|e]; [|discriminate].
  destruct (ctx_params_n_ctx n_ctx <=? Z.of_nat (length tokens))%Z; [discriminate|].
  destruct (decode_prompt L (h ++ [ev_memory_clear; ev_sampler_reset] ++ evs1) tokens)
    as [decoded evs2] eqn:Hdec.
  destruct decoded as [u|e]; [|discriminate].
  set (pre := (([ev_memory_clear; ev_sampler_reset] ++ evs1) ++ evs2)
              ++ map ev_sampler_accept tokens).
  unfold generate_tokens.
  destruct (@generate_loop_post (Z.to_nat max_tokens) (h ++ pre) [] []
              0%Z (Z.of_nat (length tokens)) 0%Z (Z.le_refl 0)) as [new [Hsnd Hpost]].
  destruct (generate_loop L (Z.to_nat max_tokens) (h ++ pre) [] [] 0
              (Z.of_nat (length tokens)) 0) as [g' evs3] eqn:Hloop.
  simpl in Hsnd, Hpost. subst evs3.
  intros Heq Hstop. injection Heq as <- <-.
  destruct (post_max Hpost Hstop) as [Hs [Hl Hn]].
  assert (Hacc1 : accepted evs1 = [] /\ sampled evs1 = []).
  { unfold tokenize_prompt in Htok.
    destruct (llama_tokenize L _ prompt _) as [n_tokens buffer].
    destruct (n_tokens <? 0)%Z; injection Htok as _ <-; split; reflexivity. }
  assert (Hacc2 : accepted evs2 = [] /\ sampled evs2 = []).
  { unfold decode_prompt in Hdec.
    destruct (llama_decode L _ _ =? 0)%Z; injection Hdec as _ <-; split; reflexivity. }
  destruct Hacc1 as [Ha1 Hs1]. destruct Hacc2 as [Ha2 Hs2].
  assert (Ha : accepted (pre ++ new) = tokens ++ accepted new).
  { unfold pre. rewrite !accepted_app, Ha1, Ha2, accepted_map_accept. reflexivity. }
  assert (Hsm : sampled (pre ++ new) = sampled new).
  { unfold pre. rewrite !sampled_app, Hs1, Hs2, sampled_map_accept. reflexivity. }
  exists tokens. split; [reflexivity|].
  change (ev_memory_clear
          :: ev_sampler_reset
             :: ((evs1 ++ evs2) ++ map ev_sampler_accept tokens) ++ new)
    with (pre ++ new).
  rewrite Ha, Hsm, Hs, length_app, Hl, Hn.
  repeat split; lia.
Qed.

(** [decode_prompt] submits the whole prompt as one batch: slot [i] holds
    token [i] at position [i] in sequence 0, and only the last slot asks for
    logits. *)
Lemma prompt_batch_nth (tokens : list llama_token) (size start i : nat)
  (t : llama_token) :
  nth_error tokens i = Some t ->
  nth_error (prompt_batch start size tokens) i
  = Some (Slot t (to_int32 (Z.of_nat (start + i))) (start + i =? size - 1) 0).
Proof.
  revert start i; induction tokens as [|x tokens IH]; intros start i H.
  - destruct i; discriminate H.
  - destruct i as [|i]; simpl in *.
    + injection H as ->. rewrite Nat.add_0_r. reflexivity.
    + rewrite (IH (S start) i H). rewrite Nat.add_succ_r. reflexivity.
Qed.

(** The one batch [decode_prompt] hands to [llama_decode]: as long as the
    prompt, slot [i] holding token [i] at position [i] of sequence 0, with
    logits asked for the last slot only. *)
Theorem decode_prompt_batch (h : list event) (tokens : list llama_token) :
  exists batch result,
    snd (decode_prompt L h tokens) = [ev_decode batch result]
    /\ length batch = length tokens
    /\ forall i t, nth_error tokens i = Some t ->
         nth_error batch i
         = Some (Slot t (to_int32 (Z.of_nat i)) (i =? length tokens - 1) 0).
Proof.
  unfold decode_prompt.
  exists (prompt_batch 0 (length tokens) tokens),
         (llama_decode L h (prompt_batch 0 (length tokens) tokens)).
  split; [destruct (_ =? 0)%Z; reflexivity|]. split.
  - generalize 0 at 1. generalize (length tokens) at 1.
    induction tokens as [|x tokens IH]; intros size start; simpl;
      [|rewrite IH]; reflexivity.
  - intros i t H. apply (@prompt_batch_nth tokens (length tokens) 0 i t H).
Qed.


End SessionFacts.

(** A run of the loop on a script that samples 3, 4, 5, end-of-sequence:
    the fourth sample ends the generation, 6 is never sampled, and the piece
    of the end-of-sequence token is not in the text. *)
Lemma generate_tokens_eos_example :
  generate_tokens (scripted [1; 7; 8] [3; 4; 5; 2; 6])%Z [] 3 10
  = (Gen (lit "def") 3 EndOfSequence,
     [ ev_sampler_sample 3; ev_sampler_accept 3;
       ev_decode [Slot 3 3 true 0] 0;
       ev_sampler_sample 4; ev_sampler_accept 4;
       ev_decode [Slot 4 4 true 0] 0;
       ev_sampler_sample 5; ev_sampler_accept 5;
       ev_decode [Slot 5 5 true 0] 0;
       ev_sampler_sample 2 ])%Z.
Proof. vm_compute. reflexivity. Qed.

Lemma generate_rejects_long_prompt_witness :
  exists n_tokens,
    generate (scripted [1; 7; 8] [3; 4; 5; 2; 6])%Z 3 [] (lit "abc") 10
    = (Throw (runtime_error "Prompt exceeds context size"),
       [ev_memory_clear; ev_sampler_reset; ev_tokenize (lit "abc") n_tokens])
    /\ existsb is_decode
         (snd (generate (scripted [1; 7; 8] [3; 4; 5; 2; 6])%Z 3 [] (lit "abc") 10))
       = false
    /\ existsb is_sample
         (snd (generate (scripted [1; 7; 8] [3; 4; 5; 2; 6])%Z 3 [] (lit "abc") 10))
       = false
    /\ existsb is_accept
         (snd (generate (scripted [1; 7; 8] [3; 4; 5; 2; 6])%Z 3 [] (lit "abc") 10))
       = false.
Proof.
  apply (@generate_rejects_long_prompt (scripted [1; 7; 8] [3; 4; 5; 2; 6])%Z 3
           [] (lit "abc") 10 [1; 7; 8]%Z [ev_tokenize (lit "abc") 3]).
  - reflexivity.
  - vm_compute. discriminate.
Defined.

(** C6 as stated fails: with a prompt of three tokens and [max_tokens = 2]
    the loop ends on its test, and the sampler chain has accepted five
    tokens (the three of the prompt, then the two generated), not two. *)
Lemma max_tokens_counts_prompt_accepts :
  let run := generate (scripted [1; 7; 8] [3; 4; 5; 2; 6])%Z 2048 [] (lit "abc") 2 in
  fst run = Return (Gen (lit "de") 2 MaxTokensReached)
  /\ accepted (snd run) = [1; 7; 8; 3; 4]%Z
  /\ Z.of_nat (length (accepted (snd run))) <> 2%Z.
Proof.
  cbv zeta. split; [vm_compute; reflexivity|].
  split; [vm_compute; reflexivity|]. vm_compute. discriminate.
Qed.

Lemma generate_max_tokens_accepts_witness :
  exists tokens,
    fst (tokenize_prompt (scripted [1; 7; 8] [3; 4; 5; 2; 6])%Z
           ([] ++ [ev_memory_clear; ev_sampler_reset]) (lit "abc"))
    = Return tokens
    /\ accepted (snd (generate (scripted [1; 7; 8] [3; 4; 5; 2; 6])%Z 2048 []
                        (lit "abc") 2))
       = tokens ++ sampled (snd (generate (scripted [1; 7; 8] [3; 4; 5; 2; 6])%Z
                                   2048 [] (lit "abc") 2))
    /\ Z.of_nat (length (sampled (snd (generate (scripted [1; 7; 8] [3; 4; 5; 2; 6])%Z
                                         2048 [] (lit "abc") 2))))
       = Z.max 0 2
    /\ Z.of_nat (length (accepted (snd (generate (scripted [1; 7; 8] [3; 4; 5; 2; 6])%Z
                                          2048 [] (lit "abc") 2))))
       = (Z.of_nat (length tokens) + Z.max 0 2)%Z
    /\ tokens_emitted (Gen (lit "de") 2 MaxTokensReached) = Z.max 0 2.
Proof.
  apply (@generate_max_tokens_accepts (scripted [1; 7; 8] [3; 4; 5; 2; 6])%Z 2048
           [] (lit "abc") 2 (Gen (lit "de") 2 MaxTokensReached)
           (snd (generate (scripted [1; 7; 8] [3; 4; 5; 2; 6])%Z 2048 []
                   (lit "abc") 2))).
  - vm_compute. reflexivity.
  - reflexivity.
Defined.

End GenerationFacts.

(** ** What is submitted for decoding *)

Module DecodingFacts.
Import Generation Decoding.

Lemma decoded_slots_app (a b : list event) :
  decoded_slots (a ++ b) = decoded_slots a ++ decoded_slots b.
Proof. apply flat_map_app. Qed.

Lemma decoded_map_accept (ts : list llama_token) :
  decoded_slots (map ev_sampler_accept ts) = [].
Proof. induction ts as [|t ts IH]; simpl; [|rewrite IH]; reflexivity. Qed.

(** The decode loop submits each token it accepts, once, at the position
    after the previous one. *)
Lemma generate_loop_slots (L : llama) (rounds : nat) :
  forall h evs0 response n_generated cur_pos eos_count g evs,
    generate_loop L rounds h evs0 response n_generated cur_pos eos_count = (g, evs) ->
    exists new,
      evs = evs0 ++ new
      /\ decoded_slots new = next_slots cur_pos (accepted new).
Proof.
  induction rounds as [|rounds IH];
    intros h evs0 response n_generated cur_pos eos_count g evs H.
  - injection H as _ <-. exists []. rewrite app_nil_r. split; reflexivity.
  - cbn [generate_loop] in H. cbv zeta in H.
    set (new_token := llama_sampler_sample L (h ++ evs0)) in *.
    destruct ((new_token =? llama_vocab_eos L)%Z
              && (1 <=? (if (new_token =? llama_vocab_eos L)%Z
                         then eos_count + 1 else eos_count))%Z).
    { injection H as _ <-. exists [ev_sampler_sample new_token].
      split; reflexivity. }
    destruct (new_token <? 0)%Z.
    { injection H as _ <-. exists [ev_sampler_sample new_token].
      split; reflexivity. }
    destruct (llama_token_to_piece L new_token) as [n buf].
    set (slot := Slot new_token (to_int32 cur_pos) true 0) in *.
    set (result := llama_decode L _ [slot]) in *.
    destruct (result =? 0)%Z.
    + apply IH in H. destruct H as [new [-> Hn]].
      exists ([ev_sampler_sample new_token; ev_sampler_accept new_token;
               ev_decode [slot] result] ++ new).
      split; [rewrite <- !app_assoc; reflexivity|].
      rewrite decoded_slots_app, GenerationFacts.accepted_app, Hn. reflexivity.
    + injection H as _ <-.
      exists [ev_sampler_sample new_token; ev_sampler_accept new_token;
              ev_decode [slot] result].
      split; [rewrite <- !app_assoc; reflexivity|reflexivity].
Qed.

Lemma next_slots_tokens (tokens : list llama_token) :
  forall cur_pos, map slot_token (next_slots cur_pos tokens) = tokens.
Proof.
  induction tokens as [|t r IH]; intros cur_pos; [reflexivity|].
  cbn [next_slots map slot_token]. rewrite IH. reflexivity.
Qed.

Lemma prompt_batch_tokens (tokens : list llama_token) :
  forall i size, map slot_token (prompt_batch i size tokens) = tokens.
Proof.
  induction tokens as [|t r IH]; intros i size; [reflexivity|].
  cbn [prompt_batch map slot_token]. rewrite IH. reflexivity.
Qed.

Lemma prompt_batch_length (tokens : list llama_token) :
  forall i size, length (prompt_batch i size tokens) = length tokens.
Proof.
  induction tokens as [|t r IH]; intros i size; [reflexivity|].
  cbn [prompt_batch length]. rewrite IH. reflexivity.
Qed.

Lemma next_slots_nth (tokens : list llama_token) :
  forall cur_pos k s,
    nth_error (next_slots cur_pos tokens) k = Some s ->
    slot_pos s = to_int32 (cur_pos + Z.of_nat k) /\ slot_seq_id s = 0%Z
    /\ slot_logits s = true.
Proof.
  induction tokens as [|t r IH]; intros cur_pos k s H.
  - destruct k; discriminate H.
  - destruct k as [|k]; cbn [next_slots nth_error] in H.
    + injection H as <-. cbn [slot_pos slot_seq_id slot_logits].
      rewrite Z.add_0_r. repeat split.
    + apply IH in H. destruct H as [Hp Hs]. split; [|exact Hs].
      rewrite Hp. f_equal. lia.
Qed.

Lemma prompt_batch_pos (tokens : list llama_token) :
  forall i size k s,
    nth_error (prompt_batch i size tokens) k = Some s ->
    slot_pos s = to_int32 (Z.of_nat (i + k)) /\ slot_seq_id s = 0%Z.
Proof.
  induction tokens as [|t r IH]; intros i size k s H.
  - destruct k; discriminate H.
  - destruct k as [|k]; cbn [prompt_batch nth_error] in H.
    + injection H as <-. cbn [slot_pos slot_seq_id]. rewrite Nat.add_0_r.
      split; reflexivity.
    + apply IH in H. rewrite Nat.add_succ_r. exact H.
Qed.

(** A run of [generate] that returns has handed every token the sampler
    accepted to [llama_decode] exactly once and in the same order (the
    prompt as one batch, then one token at a time), the [k]-th of them at
    position [k] of sequence 0: the positions start at 0 on every request
    and have no gap and no repetition. *)
Theorem generate_decodes_in_order (L : llama) (n_ctx : Z) (h : list event)
  (prompt : std_string) (max_tokens : Z) (g : generation) (evs : list event) :
  generate L n_ctx h prompt max_tokens = (Return g, evs) ->
  map slot_token (decoded_slots evs) = accepted evs
  /\ forall k s, nth_error (decoded_slots evs) k = Some s ->
                 slot_pos s = to_int32 (Z.of_nat k) /\ slot_seq_id s = 0%Z.
Proof.
  unfold generate, tokenize_prompt, decode_prompt, generate_tokens. intros H.
  destruct (llama_tokenize L _ prompt _) as [n_tokens buffer].
  destruct (n_tokens <? 0)%Z; [discriminate H|].
  set (tokens := resize (Z.to_nat n_tokens) _) in *.
  destruct (ctx_params_n_ctx n_ctx <=? _)%Z; [discriminate H|].
  set (result := llama_decode L _ _) in *.
  destruct (result =? 0)%Z; [|discriminate H].
  destruct (generate_loop L (Z.to_nat max_tokens) _ [] [] 0 (Z.of_nat (length tokens)) 0)
    as [g' evs3] eqn:Eloop.
  injection H as _ <-.
  apply generate_loop_slots in Eloop. destruct Eloop as [new [-> Hn]].
  cbn [app] in *.
  set (batch := prompt_batch 0 (length tokens) tokens) in *.
  assert (Hd : decoded_slots
                 (ev_memory_clear :: ev_sampler_reset :: ev_tokenize prompt n_tokens
                  :: ev_decode batch result :: map ev_sampler_accept tokens ++ new)
               = batch ++ next_slots (Z.of_nat (length tokens)) (accepted new)).
  { change (decoded_slots
              ([ev_memory_clear; ev_sampler_reset; ev_tokenize prompt n_tokens;
                ev_decode batch result] ++ map ev_sampler_accept tokens ++ new)
            = batch ++ next_slots (Z.of_nat (length tokens)) (accepted new)).
    rewrite !decoded_slots_app, decoded_map_accept, Hn.
    cbn [decoded_slots flat_map app]. rewrite app_nil_r. reflexivity. }
  assert (Ha : accepted
                 (ev_memory_clear :: ev_sampler_reset :: ev_tokenize prompt n_tokens
                  :: ev_decode batch result :: map ev_sampler_accept tokens ++ new)
               = tokens ++ accepted new).
  { change (accepted
              ([ev_memory_clear; ev_sampler_reset; ev_tokenize prompt n_tokens;
                ev_decode batch result] ++ map ev_sampler_accept tokens ++ new)
            = tokens ++ accepted new).
    rewrite !GenerationFacts.accepted_app, GenerationFacts.accepted_map_accept.
    reflexivity. }
  rewrite Hd, Ha. unfold batch.
  split.
  - rewrite map_app, prompt_batch_tokens, next_slots_tokens. reflexivity.
  - intros k s Hk.
    destruct (Nat.lt_ge_cases k (length tokens)) as [Hlt|Hge].
    + rewrite nth_error_app1 in Hk by (rewrite prompt_batch_length; exact Hlt).
      apply prompt_batch_pos in Hk. exact Hk.
    + rewrite nth_error_app2 in Hk by (rewrite prompt_batch_length; exact Hge).
      rewrite prompt_batch_length in Hk.
      apply next_slots_nth in Hk. destruct Hk as [Hp [Hs _]].
      split; [|exact Hs]. rewrite Hp. f_equal. lia.
Qed.

Lemma generate_decodes_in_order_witness :
  let run := generate (scripted [10; 11]%Z [3; 4]%Z) 2048 [] (lit "hi") 8 in
  run = (Return (Gen (lit "de") 2 EndOfSequence), snd run)
  /\ map slot_token (decoded_slots (snd run)) = accepted (snd run)
  /\ forall k s, nth_error (decoded_slots (snd run)) k = Some s ->
                 slot_pos s = to_int32 (Z.of_nat k) /\ slot_seq_id s = 0%Z.
Proof.
  cbv zeta. split; [vm_compute; reflexivity|].
  apply (@generate_decodes_in_order (scripted [10; 11]%Z [3; 4]%Z) 2048 []
           (lit "hi") 8 (Gen (lit "de") 2 EndOfSequence)).
  vm_compute. reflexivity.
Defined.

End DecodingFacts.

(** ** Files and the command line *)

Module CliFacts.
Import Cli.

Lemma find_first_not_of_some (set s : std_string) (i : nat) :
  find_first_not_of set s = Some i ->
  exists pre x rest,
    s = pre ++ x :: rest /\ length pre = i
    /\ forallb (fun c => mem c set) pre = true /\ mem x set = false.
Proof.
  revert i; induction s as [|c s IH]; intros i H; simpl in H; [discriminate|].
  destruct (mem c set) eqn:E.
  - destruct (find_first_not_of set s) as [j|]; [|discriminate].
    injection H as <-. destruct (IH j eq_refl) as [pre [x [rest [Hs [Hl [Hall Hx]]]]]].
    exists (c :: pre), x, rest. simpl. rewrite E, Hall, Hl, Hs. auto.
  - injection H as <-. exists [], c, s. simpl. auto.
Qed.

Lemma find_first_not_of_none (set s : std_string) :
  find_first_not_of set s = None -> forallb (fun c => mem c set) s = true.
Proof.
  induction s as [|c s IH]; intros H; simpl in *; [reflexivity|].
  destruct (mem c set); [|discriminate].
  destruct (find_first_not_of set s); [discriminate|]. apply IH; reflexivity.
Qed.

Lemma find_last_not_of_none (set s : std_string) :
  find_last_not_of set s = None -> forallb (fun c => mem c set) s = true.
Proof.
  induction s as [|c s IH]; intros H; simpl in *; [reflexivity|].
  destruct (find_last_not_of set s); [discriminate|].
  destruct (mem c set); [|discriminate]. apply IH; reflexivity.
Qed.

Lemma find_last_not_of_some (set s : std_string) (j : nat) :
  find_last_not_of set s = Some j ->
  exists pre y post,
    s = pre ++ y :: post /\ length pre = j /\ mem y set = false
    /\ forallb (fun c => mem c set) post = true.
Proof.
  revert j; induction s as [|c s IH]; intros j H; simpl in H; [discriminate|].
  destruct (find_last_not_of set s) as [k|] eqn:E.
  - injection H as <-. destruct (IH k eq_refl) as [pre [y [post [Hs [Hl [Hy Hall]]]]]].
    exists (c :: pre), y, post. simpl. rewrite Hl, Hs. auto.
  - destruct (mem c set) eqn:M; [discriminate|]. injection H as <-.
    exists [], c, s. simpl. repeat split; auto.
    apply find_last_not_of_none; exact E.
Qed.



(** What trimming at the first and last byte outside [set] keeps: the
    string is [pre ++ kept ++ post] with [pre] and [post] inside [set] and
    [kept] starting and ending outside it. *)
Lemma trim_decompose (set s : std_string) (first last : nat) :
  find_first_not_of set s = Some first ->
  find_last_not_of set s = Some last ->
  exists pre x mid y post,
    length pre = first
    /\ forallb (fun c => mem c set) pre = true
    /\ forallb (fun c => mem c set) post = true
    /\ mem x set = false /\ mem y set = false
    /\ ((first = last /\ x = y /\ mid = [] /\ s = pre ++ x :: post)
        \/ (first < last /\ last = first + 1 + length mid
            /\ s = pre ++ x :: mid ++ y :: post)).
Proof.
  intros Hf Hl.
  destruct (@find_first_not_of_some _ _ _ Hf) as [pre [x [rest [Hs [Hlen [Hpre Hx]]]]]].
  destruct (@find_last_not_of_some _ _ _ Hl) as [pre' [y [post [Hs' [Hlen' [Hy Hpost]]]]]].
  assert (Hrest : find_last_not_of set (x :: rest) = Some (last - first)
                  /\ first <= last).
  { rewrite Hs in Hl. clear - Hl Hlen Hpre Hx.
    revert first last Hl Hlen. induction pre as [|c pre IH]; intros first last Hl Hlen.
    - simpl in *. subst first. rewrite Nat.sub_0_r. split; [exact Hl|lia].
    - simpl in Hpre. apply andb_true_iff in Hpre as [Hc Hp].
      simpl in Hl, Hlen. destruct first as [|first]; [discriminate|].
      injection Hlen as Hlen.
      destruct (find_last_not_of set (pre ++ x :: rest)) as [k|] eqn:E.
      + injection Hl as <-. destruct (IH Hp first k eq_refl Hlen) as [H1 H2].
        simpl. split; [exact H1|lia].
      + exfalso. apply find_last_not_of_none in E.
        rewrite forallb_app in E. apply andb_true_iff in E as [_ E].
        simpl in E. rewrite Hx in E. discriminate. }
  destruct Hrest as [Hrest Hle].
  destruct (@find_last_not_of_some _ _ _ Hrest) as [p2 [y2 [post2 [Hs2 [Hl2 [Hy2 Hpost2]]]]]].
  destruct p2 as [|x2 mid].
  - simpl in Hs2. injection Hs2 as <- <-. simpl in Hl2.
    exists pre, x, [], x, rest. repeat split; auto.
    left. repeat split; auto; lia.
  - simpl in Hs2. injection Hs2 as <- ->. simpl in Hl2.
    exists pre, x, mid, y2, post2. repeat split; auto.
    right. repeat split; auto; lia.
Qed.


Lemma edges_outside_single (set : std_string) (x : ascii) :
  mem x set = false -> edges_outside set [x] = true.
Proof. intros H. unfold edges_outside, back. simpl. rewrite H. reflexivity. Qed.

Lemma edges_outside_ends (set mid : std_string) (x y : ascii) :
  mem x set = false -> mem y set = false ->
  edges_outside set (x :: mid ++ [y]) = true.
Proof.
  intros Hx Hy. unfold edges_outside. rewrite Hx.
  change (x :: mid ++ [y]) with ((x :: mid) ++ [y]). rewrite back_snoc, Hy.
  reflexivity.
Qed.

(** [get_cli_version] never throws.  It answers "Version check failed:
    popen() failed!" when there is no pipe, "Version check failed or empty
    output." when the output is all whitespace, and otherwise the output
    without the whitespace around it: the result starts and ends with a
    byte that is not whitespace. *)
Theorem get_cli_version_trims (pipe : option std_string) :
  (pipe = None
   /\ get_cli_version pipe = lit "Version check failed: popen() failed!")
  \/ exists output,
      exec_command pipe = Return output
      /\ ((forallb (fun c => mem c whitespace) output = true
           /\ get_cli_version pipe = lit "Version check failed or empty output.")
          \/ exists pre post,
              output = pre ++ get_cli_version pipe ++ post
              /\ forallb (fun c => mem c whitespace) pre = true
              /\ forallb (fun c => mem c whitespace) post = true
              /\ edges_outside whitespace (get_cli_version pipe) = true).
Proof.
  destruct pipe as [stream|]; [right|left; split; reflexivity].
  unfold get_cli_version. simpl exec_command.
  set (output := read_pipe (length stream) stream []).
  exists output. split; [reflexivity|].
  destruct (find_first_not_of whitespace output) as [first|] eqn:Hf.
  - destruct (find_last_not_of whitespace output) as [last|] eqn:Hl.
    + right.
      destruct (@trim_decompose _ _ _ _ Hf Hl)
        as [pre [x [mid [y [post [Hlen [Hpre [Hpost [Hx [Hy Hcase]]]]]]]]]].
      exists pre, post.
      destruct Hcase as [[He [Hxy [Hmid Hs]]]|[Hlt [Hlast Hs]]].
      * subst last y mid.
        assert (Hsub : substr first (first - first + 1) output = [x]).
        { unfold substr. rewrite Hs, <- Hlen, skipn_app, skipn_all, Nat.sub_diag.
          replace (length pre - length pre + 1) with 1 by lia. reflexivity. }
        rewrite Hsub. repeat split; auto. apply edges_outside_single; exact Hx.
      * assert (Hsub : substr first (last - first + 1) output = x :: mid ++ [y]).
        { unfold substr. rewrite Hs, <- Hlen, skipn_app, skipn_all, Nat.sub_diag.
          simpl skipn. simpl app at 1.
          replace (last - length pre + 1) with (S (length mid + 1)) by lia.
          cbn [firstn]. rewrite firstn_app, firstn_all2 by lia.
          replace (length mid + 1 - length mid) with 1 by lia. reflexivity. }
        rewrite Hsub. repeat split; auto.
        -- rewrite Hs. simpl. rewrite <- app_assoc. reflexivity.
        -- apply edges_outside_ends; assumption.
    + left. split; [apply find_last_not_of_none; exact Hl|reflexivity].
  - left. split; [apply find_first_not_of_none; exact Hf|reflexivity].
Qed.

Lemma fgets_split (n : nat) (stream : std_string) :
  fst (fgets n stream) ++ snd (fgets n stream) = stream.
Proof.
  revert stream; induction n as [|n IH]; intros [|c r]; simpl; try reflexivity.
  destruct (char_eqb c "010"%char); [reflexivity|].
  specialize (IH r). destruct (fgets n r) as [chunk rest]. simpl in *.
  rewrite IH. reflexivity.
Qed.

Lemma fgets_takes (n : nat) (c : ascii) (r : std_string) :
  length (snd (fgets (S n) (c :: r))) <= length r.
Proof.
  simpl. destruct (char_eqb c "010"%char); [simpl; lia|].
  pose proof (fgets_split n r) as H. destruct (fgets n r) as [chunk rest].
  simpl in *. rewrite <- H, length_app. lia.
Qed.

Lemma c_str_no_nul (buffer : std_string) : ~ In "000"%char (c_str buffer).
Proof.
  induction buffer as [|c r IH]; simpl; [tauto|].
  destruct (char_eqb c "000"%char) eqn:E; [simpl; tauto|].
  intros [H|H]; [|exact (IH H)].
  subst c. discriminate E.
Qed.

Lemma c_str_id (buffer : std_string) :
  ~ In "000"%char buffer -> c_str buffer = buffer.
Proof.
  induction buffer as [|c r IH]; intros H; simpl; [reflexivity|].
  destruct (char_eqb c "000"%char) eqn:E.
  - apply char_eqb_eq in E. exfalso; apply H; left; exact E.
  - rewrite IH; [reflexivity|]. intros Hin; apply H; right; exact Hin.
Qed.

Lemma read_pipe_no_nul (fuel : nat) :
  forall stream result,
    ~ In "000"%char result -> ~ In "000"%char (read_pipe fuel stream result).
Proof.
  induction fuel as [|fuel IH]; intros stream result Hr; cbn [read_pipe];
    [exact Hr|].
  destruct stream as [|c r]; [exact Hr|].
  destruct (fgets 127 (c :: r)) as [chunk rest]. apply IH.
  intros Hin. apply in_app_or in Hin as [Hin|Hin]; [exact (Hr Hin)|].
  exact (c_str_no_nul _ Hin).
Qed.

Lemma read_pipe_all (fuel : nat) :
  forall stream result,
    length stream <= fuel -> ~ In "000"%char stream ->
    read_pipe fuel stream result = result ++ stream.
Proof.
  induction fuel as [|fuel IH]; intros stream result Hl Hs.
  - destruct stream; [simpl; rewrite app_nil_r; reflexivity|simpl in Hl; lia].
  - cbn [read_pipe]. destruct stream as [|c r]; [rewrite app_nil_r; reflexivity|].
    pose proof (fgets_split 127 (c :: r)) as Hsplit.
    pose proof (fgets_takes 126 c r) as Htake.
    destruct (fgets 127 (c :: r)) as [chunk rest]. cbn [fst snd] in *.
    assert (Hc : ~ In "000"%char chunk).
    { intros Hin. apply Hs. rewrite <- Hsplit. apply in_or_app; left; exact Hin. }
    assert (Hrest : ~ In "000"%char rest).
    { intros Hin. apply Hs. rewrite <- Hsplit. apply in_or_app; right; exact Hin. }
    rewrite IH; [|simpl in Hl; lia|exact Hrest].
    rewrite (c_str_id _ Hc), <- app_assoc, Hsplit. reflexivity.
Qed.

Lemma fgets_chunk (n : nat) (c : ascii) (r : std_string) :
  1 <= length (fst (fgets (S n) (c :: r))) <= S n.
Proof.
  cbn [fgets]. destruct (char_eqb c "010"%char); [simpl; lia|].
  assert (H : length (fst (fgets n r)) <= n).
  { clear. revert r. induction n as [|n IH]; intros [|d r]; simpl; try lia.
    destruct (char_eqb d "010"%char); [simpl; lia|].
    specialize (IH r). destruct (fgets n r). simpl in *. lia. }
  destruct (fgets n r) as [chunk rest]. simpl in *. lia.
Qed.

(** The chunks [fgets] delivers make up the whole stream, and the result is
    their C strings put together. *)
Lemma read_pipe_chunks (fuel : nat) :
  forall stream result,
    length stream <= fuel ->
    exists chunks,
      stream = concat chunks
      /\ read_pipe fuel stream result = result ++ concat (map c_str chunks)
      /\ Forall (fun chunk => 1 <= length chunk <= 127) chunks.
Proof.
  induction fuel as [|fuel IH]; intros stream result Hl.
  - destruct stream; [|simpl in Hl; lia].
    exists []. cbn [concat map read_pipe]. rewrite app_nil_r. auto.
  - cbn [read_pipe]. destruct stream as [|c r].
    { exists []. cbn [concat map]. rewrite app_nil_r. auto. }
    pose proof (fgets_split 127 (c :: r)) as Hsplit.
    pose proof (fgets_takes 126 c r) as Htake.
    pose proof (fgets_chunk 126 c r) as Hchunk.
    destruct (fgets 127 (c :: r)) as [chunk rest]. cbn [fst snd] in *.
    destruct (IH rest (result ++ c_str chunk)) as [chunks [Hs [Hr Hall]]];
      [simpl in Hl; lia|].
    exists (chunk :: chunks). cbn [concat map].
    split; [rewrite <- Hs; symmetry; exact Hsplit|].
    split; [rewrite Hr, <- app_assoc; reflexivity|].
    constructor; assumption.
Qed.

(** What [exec_command] returns for a command that wrote [stream] and
    closed its output: no NUL byte, the whole of [stream] when it holds no
    NUL, and in general [stream] cut into the chunks [fgets] delivers, of 1
    to 127 bytes, each read as a C string (up to its first NUL).  Nothing of
    the stream is left unread. *)
Theorem exec_command_output (stream output : std_string) :
  exec_command (Some stream) = Return output ->
  ~ In "000"%char output
  /\ (~ In "000"%char stream -> output = stream)
  /\ exists chunks,
       stream = concat chunks
       /\ output = concat (map c_str chunks)
       /\ Forall (fun chunk => 1 <= length chunk <= 127) chunks.
Proof.
  cbn [exec_command]. intros H. injection H as <-. split; [|split].
  - apply read_pipe_no_nul. simpl; tauto.
  - intros H. apply (@read_pipe_all (length stream) stream [] (le_n _) H).
  - destruct (@read_pipe_chunks (length stream) stream [] (le_n _))
      as [chunks [Hs [Hr Hall]]].
    exists chunks. auto.
Qed.

Lemma exec_command_output_witness :
  exec_command (Some (lit "ok\x00hidden\nnext")) = Return (lit "oknext")
  /\ ~ In "000"%char (lit "oknext")
  /\ (~ In "000"%char (lit "ok\x00hidden\nnext") ->
      lit "oknext" = lit "ok\x00hidden\nnext")
  /\ exists chunks,
       lit "ok\x00hidden\nnext" = concat chunks
       /\ lit "oknext" = concat (map c_str chunks)
       /\ Forall (fun chunk => 1 <= length chunk <= 127) chunks.
Proof.
  split; [vm_compute; reflexivity|].
  apply (@exec_command_output (lit "ok\x00hidden\nnext") (lit "oknext")).
  vm_compute. reflexivity.
Defined.

(** [is_pdf_file] accepts exactly the names whose last four bytes are
    ".pdf" in any mix of upper and lower case; a name of fewer than four
    bytes is refused, the bare name ".pdf" is accepted. *)
Theorem is_pdf_file_spec (filename : std_string) :
  is_pdf_file filename = true <->
  exists stem ext,
    filename = stem ++ ext /\ length ext = 4 /\ map tolower ext = lit ".pdf".
Proof.
  unfold is_pdf_file. split.
  - destruct (length filename <? 4) eqn:E; [discriminate|].
    apply Nat.ltb_ge in E. intros H. apply ExtractFacts.str_eqb_eq in H.
    exists (firstn (length filename - 4) filename),
           (skipn (length filename - 4) filename).
    split; [symmetry; apply firstn_skipn|]. split; [|exact H].
    rewrite length_skipn. lia.
  - intros [stem [ext [-> [Hl He]]]].
    rewrite length_app, Hl.
    replace (length stem + 4 <? 4) with false by (symmetry; apply Nat.ltb_ge; lia).
    replace (length stem + 4 - 4) with (length stem) by lia.
    rewrite skipn_app, skipn_all, Nat.sub_diag. simpl.
    apply ExtractFacts.str_eqb_eq. exact He.
Qed.

Lemma find_last_of_none (set s : std_string) :
  forallb (fun c => negb (mem c set)) s = true -> find_last_of set s = None.
Proof.
  induction s as [|c s IH]; intros H; simpl in *; [reflexivity|].
  apply andb_true_iff in H as [Hc Hs]. rewrite (IH Hs).
  apply negb_true_iff in Hc. rewrite Hc. reflexivity.
Qed.

Lemma find_last_of_app (set pre post : std_string) (x : ascii) :
  mem x set = true -> forallb (fun c => negb (mem c set)) post = true ->
  find_last_of set (pre ++ x :: post) = Some (length pre).
Proof.
  intros Hx Hpost. induction pre as [|c pre IH]; simpl.
  - rewrite (find_last_of_none _ _ Hpost), Hx. reflexivity.
  - rewrite IH. reflexivity.
Qed.

Lemma base_name_of_path (dir stem ext : std_string) :
  (dir = [] \/ exists d sep, dir = d ++ [sep] /\ mem sep separators = true) ->
  free_of separators stem = true ->
  free_of separators ext = true -> free_of (lit ".") ext = true ->
  base_name_of (dir ++ stem ++ lit "." ++ ext) = stem.
Proof.
  intros Hdir Hstem Hext Hdot. unfold base_name_of.
  assert (Hname : free_of separators (stem ++ lit "." ++ ext) = true).
  { unfold free_of in *. rewrite !forallb_app, Hstem, Hext. reflexivity. }
  assert (Hbase : skipn match find_last_of (lit "/\\") (dir ++ stem ++ lit "." ++ ext) with
                        | Some i => i + 1
                        | None => 0
                        end (dir ++ stem ++ lit "." ++ ext)
                  = stem ++ lit "." ++ ext).
  { destruct Hdir as [->|[d [sep [-> Hsep]]]].
    - rewrite !app_nil_l. change (lit "/\\") with separators.
      rewrite (@find_last_of_none _ _ Hname). reflexivity.
    - rewrite <- !app_assoc. cbn [app]. change (lit "/\\") with separators.
      rewrite (@find_last_of_app separators d _ sep Hsep Hname).
      rewrite skipn_app, skipn_all2 by lia.
      replace (length d + 1 - length d) with 1 by lia. reflexivity. }
  rewrite Hbase.
  change (stem ++ lit "." ++ ext) with (stem ++ "."%char :: ext).
  rewrite (@find_last_of_app (lit ".") stem ext "."%char eq_refl Hdot).
  rewrite firstn_app, firstn_all, Nat.sub_diag. simpl. apply app_nil_r.
Qed.

(** The image [pdf_to_image] writes for [dir/stem.ext] is
    [output_dir/stem_page1.png]: the directory and the extension of the PDF
    do not enter the name, so two PDFs with the same stem get the same
    image. *)
Theorem pdf_to_image_path (status : pdf_status)
  (dir stem ext output_dir : std_string) :
  (dir = [] \/ exists d sep, dir = d ++ [sep] /\ mem sep separators = true) ->
  free_of separators stem = true ->
  free_of separators ext = true -> free_of (lit ".") ext = true ->
  pdf_to_image pdf_ok (dir ++ stem ++ lit "." ++ ext) output_dir
  = Return (output_dir ++ lit "/" ++ stem ++ lit "_page1.png")
  /\ forall path,
       pdf_to_image status (dir ++ stem ++ lit "." ++ ext) output_dir = Return path ->
       path = output_dir ++ lit "/" ++ stem ++ lit "_page1.png".
Proof.
  intros Hdir Hstem Hext Hdot.
  pose proof (@base_name_of_path dir stem ext Hdir Hstem Hext Hdot) as Hb.
  unfold pdf_to_image. rewrite Hb. split; [reflexivity|].
  intros path H. destruct status; try discriminate H.
  injection H as <-. reflexivity.
Qed.

Lemma pdf_to_image_path_witness :
  pdf_to_image pdf_ok (lit "../uploads/" ++ lit "my.cv" ++ lit "." ++ lit "PDF")
    (lit "../uploads/temp")
  = Return (lit "../uploads/temp" ++ lit "/" ++ lit "my.cv" ++ lit "_page1.png")
  /\ forall path,
       pdf_to_image pdf_ok (lit "../uploads/" ++ lit "my.cv" ++ lit "." ++ lit "PDF")
         (lit "../uploads/temp") = Return path ->
       path = lit "../uploads/temp" ++ lit "/" ++ lit "my.cv" ++ lit "_page1.png".
Proof.
  apply (@pdf_to_image_path pdf_ok (lit "../uploads/") (lit "my.cv") (lit "PDF")
           (lit "../uploads/temp")).
  - right. exists (lit "../uploads"), "/"%char. split; reflexivity.
  - reflexivity.
  - reflexivity.
  - reflexivity.
Defined.

End CliFacts.

(** ** The persona selection rule against the loop *)

Module PersonaRuleFacts.
Import Persona PersonaRule Cli.



























End PersonaRuleFacts.

(** ** The JSON library as the handlers use it *)

Module JsonUseFacts.
Import JsonUse JsonShape.

Lemma code_ascii_of_N (n : N) : (n < 256)%N -> code (ascii_of_N n) = n.
Proof. intros H. unfold code. apply N_ascii_embedding. exact H. Qed.

Lemma utf8_valid_app (n : nat) :
  forall a b, length a <= n -> utf8_valid a = true ->
              utf8_valid (a ++ b) = utf8_valid b.
Proof.
  induction n as [|n IH]; intros a b Hn Ha.
  - destruct a; [reflexivity|simpl in Hn; lia].
  - destruct a as [|c r]; [reflexivity|].
    simpl in Hn. cbn [utf8_valid app] in *.
    destruct (code c <? 128)%N; [apply IH; [lia|exact Ha]|].
    destruct (utf8_tail (code c)) as [|[l1 u1] [|[l2 u2] [|[l3 u3] [|? ?]]]];
      try discriminate Ha.
    + destruct r as [|b1 r1]; [discriminate Ha|]. cbn [app].
      apply andb_true_iff in Ha. destruct Ha as [H1 Hr]. rewrite H1. cbn [andb].
      apply IH; [simpl in Hn; lia|exact Hr].
    + destruct r as [|b1 [|b2 r2]]; try discriminate Ha. cbn [app].
      apply andb_true_iff in Ha. destruct Ha as [H1 Hr].
      rewrite H1. cbn [andb]. apply IH; [simpl in Hn; lia|exact Hr].
    + destruct r as [|b1 [|b2 [|b3 r3]]]; try discriminate Ha. cbn [app].
      apply andb_true_iff in Ha. destruct Ha as [H1 Hr].
      rewrite H1. cbn [andb]. apply IH; [simpl in Hn; lia|exact Hr].
Qed.

Lemma utf8_valid_concat (a b : std_string) :
  utf8_valid a = true -> utf8_valid b = true -> utf8_valid (a ++ b) = true.
Proof.
  intros Ha Hb. rewrite (@utf8_valid_app (length a) a b (le_n _) Ha). exact Hb.
Qed.

Ltac to_prop :=
  repeat match goal with
    | H : (_ && _)%bool = true |- _ => apply andb_true_iff in H; destruct H
    | H : (_ && _)%bool = false |- _ => apply andb_false_iff in H; destruct H
    | H : (_ || _)%bool = true |- _ => apply orb_true_iff in H; destruct H
    | H : (_ || _)%bool = false |- _ => apply orb_false_iff in H; destruct H
    | H : (_ <=? _)%N = true |- _ => apply N.leb_le in H
    | H : (_ <=? _)%N = false |- _ => apply N.leb_gt in H
    | H : (_ <? _)%N = true |- _ => apply N.ltb_lt in H
    | H : (_ <? _)%N = false |- _ => apply N.ltb_ge in H
    | H : (_ =? _)%N = true |- _ => apply N.eqb_eq in H
    | H : (_ =? _)%N = false |- _ => apply N.eqb_neq in H
    end.

Ltac settle b :=
  first
    [ replace b with true
        by (symmetry; destruct b eqn:?; [reflexivity|exfalso; to_prop; lia])
    | replace b with false
        by (symmetry; destruct b eqn:?; [exfalso; to_prop; lia|reflexivity])
    | let E := fresh "E" in destruct b eqn:E ].

Ltac step_ifs :=
  repeat match goal with
    | |- context [if ?b then _ else _] => settle b; cbv iota
    end.

Ltac close_valid :=
  cbn [andb];
  repeat match goal with
    | |- (_ && _)%bool = true => apply andb_true_iff; split
    | |- (_ <=? _)%N = true => apply N.leb_le
    | |- true = true => reflexivity
    end;
  to_prop; try lia.

Ltac div_lia := zify; Z.to_euclidean_division_equations; lia.

Lemma utf8_encode_valid (cp : N) :
  (cp < 1114112)%N -> ~ (55296 <= cp <= 57343)%N ->
  utf8_valid (utf8_encode cp) = true.
Proof.
  intros Hmax Hsur. unfold utf8_encode.
  destruct (cp <? 128)%N eqn:E1.
  - apply N.ltb_lt in E1. cbn [utf8_valid].
    rewrite code_ascii_of_N by lia.
    apply N.ltb_lt in E1. rewrite E1. reflexivity.
  - apply N.ltb_ge in E1.
    destruct (cp <? 2048)%N eqn:E2; [|destruct (cp <? 65536)%N eqn:E3];
      to_prop; cbn [utf8_valid]; unfold in_range;
      rewrite !code_ascii_of_N by div_lia; unfold utf8_tail.
    + assert (H1 : (2 <= cp / 64 <= 31)%N) by div_lia.
      assert (H2 : (cp mod 64 < 64)%N) by div_lia.
      revert H1 H2. generalize (cp / 64)%N (cp mod 64)%N. intros a b H1 H2.
      step_ifs; close_valid.
    + assert (H1 : (cp / 4096 <= 15)%N) by div_lia.
      assert (H2 : ((cp / 64) mod 64 < 64)%N) by div_lia.
      assert (H3 : (cp mod 64 < 64)%N) by div_lia.
      assert (H4 : (cp / 4096 = 0 -> 32 <= (cp / 64) mod 64)%N) by div_lia.
      assert (H5 : (cp / 4096 = 13 -> (cp / 64) mod 64 < 32)%N) by div_lia.
      revert H1 H2 H3 H4 H5.
      generalize (cp / 4096)%N ((cp / 64) mod 64)%N (cp mod 64)%N.
      intros a b c H1 H2 H3 H4 H5.
      step_ifs; close_valid.
    + assert (H1 : (cp / 262144 <= 4)%N) by div_lia.
      assert (H2 : ((cp / 4096) mod 64 < 64)%N) by div_lia.
      assert (H3 : ((cp / 64) mod 64 < 64)%N) by div_lia.
      assert (H6 : (cp mod 64 < 64)%N) by div_lia.
      assert (H4 : (cp / 262144 = 0 -> 16 <= (cp / 4096) mod 64)%N) by div_lia.
      assert (H5 : (cp / 262144 = 4 -> (cp / 4096) mod 64 < 16)%N) by div_lia.
      revert H1 H2 H3 H4 H5 H6.
      generalize (cp / 262144)%N ((cp / 4096) mod 64)%N ((cp / 64) mod 64)%N (cp mod 64)%N.
      intros a b c d H1 H2 H3 H4 H5 H6.
      step_ifs; close_valid.
Qed.

Lemma hex_val_bound (c : ascii) (a : nat) : hex_val c = Some a -> a < 16.
Proof.
  unfold hex_val.
  destruct ((48 <=? nat_of_ascii c)%nat && (nat_of_ascii c <=? 57)%nat) eqn:E1.
  - apply andb_true_iff in E1. destruct E1 as [H1 H2].
    apply Nat.leb_le in H1. apply Nat.leb_le in H2.
    intros H; injection H as <-. lia.
  - destruct ((97 <=? nat_of_ascii c)%nat && (nat_of_ascii c <=? 102)%nat) eqn:E2.
    + apply andb_true_iff in E2. destruct E2 as [H1 H2].
      apply Nat.leb_le in H1. apply Nat.leb_le in H2.
      intros H; injection H as <-. lia.
    + destruct ((65 <=? nat_of_ascii c)%nat && (nat_of_ascii c <=? 70)%nat) eqn:E3;
        [|discriminate].
      apply andb_true_iff in E3. destruct E3 as [H1 H2].
      apply Nat.leb_le in H1. apply Nat.leb_le in H2.
      intros H; injection H as <-. lia.
Qed.

Lemma codepoint4_bound (h1 h2 h3 h4 : ascii) (cp : N) :
  codepoint4 h1 h2 h3 h4 = Some cp -> (cp < 65536)%N.
Proof.
  unfold codepoint4.
  destruct (hex_val h1) as [a|] eqn:Ea; [|discriminate].
  destruct (hex_val h2) as [b|] eqn:Eb; [|discriminate].
  destruct (hex_val h3) as [c|] eqn:Ec; [|discriminate].
  destruct (hex_val h4) as [d|] eqn:Ed; [|discriminate].
  apply hex_val_bound in Ea, Eb, Ec, Ed.
  intros H.
  apply (f_equal (fun o => match o with Some x => x | None => 0%N end)) in H.
  cbv beta iota in H. subst cp. lia.
Qed.

Lemma simple_escape_ascii (e x : ascii) :
  simple_escape e = Some x -> (code x <? 128)%N = true.
Proof.
  unfold simple_escape.
  repeat match goal with
    | |- context [if ?b then _ else _] => destruct b
    end; intros H; try discriminate H; injection H as <-; reflexivity.
Qed.

Lemma rev_rev_append (acc l : std_string) : rev (rev_append l acc) = rev acc ++ l.
Proof. rewrite rev_append_rev, rev_app_distr, rev_involutive. reflexivity. Qed.

Lemma utf8_valid_snoc (acc : std_string) (x : ascii) :
  utf8_valid (rev acc) = true -> (code x <? 128)%N = true ->
  utf8_valid (rev (x :: acc)) = true.
Proof.
  intros Ha Hx. cbn [rev]. apply utf8_valid_concat; [exact Ha|].
  cbn [utf8_valid]. rewrite Hx. reflexivity.
Qed.

(** The string a string token carries is well-formed UTF-8. *)
Lemma scan_string_valid (n : nat) :
  forall cs acc s rest,
    length cs <= n -> utf8_valid (rev acc) = true ->
    scan_string acc cs = Some (s, rest) -> utf8_valid s = true.
Proof.
  induction n as [|n IH]; intros cs acc s rest Hn Hacc H.
  - destruct cs; [discriminate H|simpl in Hn; lia].
  - destruct cs as [|c r]; [discriminate H|].
    simpl in Hn. cbn [scan_string] in H.
    destruct (code c =? 34)%N; [injection H as <- _; exact Hacc|].
    destruct (code c =? 92)%N.
    { destruct r as [|e r1]; [discriminate H|].
      destruct (code e =? 117)%N.
      - destruct r1 as [|h1 [|h2 [|h3 [|h4 r2]]]]; try discriminate H.
        destruct (codepoint4 h1 h2 h3 h4) as [cp1|] eqn:E1; [|discriminate H].
        pose proof (codepoint4_bound _ _ _ _ E1) as B1.
        destruct ((55296 <=? cp1)%N && (cp1 <=? 56319)%N) eqn:Ehi.
        + destruct r2 as [|b [|u [|g1 [|g2 [|g3 [|g4 r3]]]]]]; try discriminate H.
          destruct ((code b =? 92)%N && (code u =? 117)%N); [|discriminate H].
          destruct (codepoint4 g1 g2 g3 g4) as [cp2|] eqn:E2; [|discriminate H].
          destruct ((56320 <=? cp2)%N && (cp2 <=? 57343)%N) eqn:Elo;
            [|discriminate H].
          to_prop.
          apply IH in H; [exact H|simpl in *; lia|].
          rewrite rev_rev_append. apply utf8_valid_concat; [exact Hacc|].
          apply utf8_encode_valid; lia.
        + destruct ((56320 <=? cp1)%N && (cp1 <=? 57343)%N) eqn:Elo;
            [discriminate H|].
          apply IH in H; [exact H|simpl in *; lia|].
          rewrite rev_rev_append. apply utf8_valid_concat; [exact Hacc|].
          apply utf8_encode_valid; [lia|].
          intros [Ha Hb]. to_prop; lia.
      - destruct (simple_escape e) as [x|] eqn:Ex; [|discriminate H].
        apply IH in H; [exact H|simpl in *; lia|].
        apply utf8_valid_snoc; [exact Hacc|].
        apply (simple_escape_ascii _ Ex). }
    destruct (code c <? 32)%N; [discriminate H|].
    destruct (code c <? 128)%N eqn:Easc.
    { apply IH in H; [exact H|lia|]. apply utf8_valid_snoc; assumption. }
    destruct (utf8_tail (code c)) as [|[l1 u1] [|[l2 u2] [|[l3 u3] [|? ?]]]] eqn:Et;
      try discriminate H.
    + destruct r as [|b1 r1]; [discriminate H|].
      destruct (in_range b1 l1 u1) eqn:E1; [|discriminate H].
      apply IH in H; [exact H|simpl in *; lia|].
      change (rev (b1 :: c :: acc)) with ((rev acc ++ [c]) ++ [b1]).
      rewrite <- app_assoc. apply utf8_valid_concat; [exact Hacc|].
      cbn [app utf8_valid]. rewrite Easc, Et, E1. reflexivity.
    + destruct r as [|b1 [|b2 r2]]; try discriminate H.
      destruct (in_range b1 l1 u1 && in_range b2 l2 u2) eqn:E1; [|discriminate H].
      apply IH in H; [exact H|simpl in *; lia|].
      change (rev (b2 :: b1 :: c :: acc)) with (((rev acc ++ [c]) ++ [b1]) ++ [b2]).
      rewrite <- !app_assoc. apply utf8_valid_concat; [exact Hacc|].
      cbn [app utf8_valid]. rewrite Easc, Et, E1. reflexivity.
    + destruct r as [|b1 [|b2 [|b3 r3]]]; try discriminate H.
      destruct (in_range b1 l1 u1 && in_range b2 l2 u2 && in_range b3 l3 u3) eqn:E1;
        [|discriminate H].
      apply IH in H; [exact H|simpl in *; lia|].
      change (rev (b3 :: b2 :: b1 :: c :: acc))
        with ((((rev acc ++ [c]) ++ [b1]) ++ [b2]) ++ [b3]).
      rewrite <- !app_assoc. apply utf8_valid_concat; [exact Hacc|].
      cbn [app utf8_valid]. rewrite Easc, Et, E1. reflexivity.
Qed.

Lemma scan_literal_valid text t (cs : list ascii) :
  token_valid t = true -> token_valid (fst (scan_literal text t cs)) = true.
Proof.
  intros H. unfold scan_literal. destruct (starts_with text cs); [exact H|reflexivity].
Qed.

Lemma scan_fraction_valid neg ints cs :
  token_valid (fst (scan_fraction neg ints cs)) = true.
Proof.
  unfold scan_fraction, scan_exponent, number_token.
  repeat match goal with
    | |- context [match ?x with _ => _ end] => destruct x
    end; reflexivity.
Qed.

Lemma scan_number_valid (cs : list ascii) : token_valid (fst (scan_number cs)) = true.
Proof.
  unfold scan_number.
  assert (H : forall neg cs1,
            token_valid (fst (match cs1 with
                              | d :: r =>
                                  if (code d =? 48)%N then scan_fraction neg [d] r
                                  else if is_digit d then
                                         let (ds, rest) := span_digits r in
                                         scan_fraction neg (d :: ds) rest
                                       else (tok_parse_error, r)
                              | [] => (tok_parse_error, [])
                              end)) = true).
  { intros neg [|d r]; [reflexivity|].
    destruct (code d =? 48)%N; [apply scan_fraction_valid|].
    destruct (is_digit d); [|reflexivity].
    destruct (span_digits r). apply scan_fraction_valid. }
  destruct cs as [|m r]; [reflexivity|].
  destruct (code m =? 45)%N; [apply (H true r)|apply (H false (m :: r))].
Qed.

Lemma scan_valid (cs : list ascii) : token_valid (fst (scan cs)) = true.
Proof.
  unfold scan. destruct (skip_whitespace cs) as [|c r]; [reflexivity|].
  repeat match goal with
    | |- context [if ?b then _ else _] =>
        lazymatch b with
        | (_ =? _)%N => destruct b
        | (_ || _) => destruct b
        end
    end; try reflexivity; try (apply scan_literal_valid; reflexivity).
  - destruct (scan_string [] r) as [[s rest]|] eqn:E; [|reflexivity].
    apply (@scan_string_valid (length r) r [] s rest (le_n _) eq_refl E).
  - apply scan_number_valid.
Qed.

Lemma tokens_valid (fuel : nat) :
  forall cs, forallb token_valid (tokens fuel cs) = true.
Proof.
  induction fuel as [|f IH]; intros cs; [reflexivity|].
  cbn [tokens]. pose proof (scan_valid cs) as Hs.
  destruct (scan cs) as [t rest]. cbn [fst] in Hs.
  destruct t; try reflexivity; cbn [forallb]; rewrite ?Hs, IH; reflexivity.
Qed.

Lemma lex_valid (s : std_string) : forallb token_valid (lex s) = true.
Proof.
  unfold lex. destruct (skip_bom s); [apply tokens_valid|reflexivity].
Qed.

Lemma obj_set_valid (k : std_string) (v : json) (m : list (std_string * json)) :
  utf8_valid k = true -> strings_valid v = true -> entries_valid m = true ->
  entries_valid (obj_set k v m) = true.
Proof.
  intros Hk Hv. unfold entries_valid.
  induction m as [|[k' v'] r IH]; intros Hm; cbn [obj_set forallb fst snd] in *.
  - rewrite Hk, Hv. reflexivity.
  - apply andb_true_iff in Hm. destruct Hm as [H1 H2].
    destruct (Str.eqb k k'); [|destruct (str_ltb k k')];
      cbn [forallb fst snd]; rewrite ?Hk, ?Hv, ?H1, ?H2, ?(IH H2); reflexivity.
Qed.

Lemma json_object_valid (kvs : list (std_string * json)) :
  entries_valid kvs = true -> entries_valid (json_object kvs) = true.
Proof.
  induction kvs as [|[k v] r IH]; intros H; [reflexivity|].
  cbn [json_object]. unfold entries_valid in H. cbn [forallb fst snd] in H.
  apply andb_true_iff in H. destruct H as [H1 H2].
  apply andb_true_iff in H1. destruct H1 as [Hk Hv].
  apply obj_set_valid; [exact Hk|exact Hv|apply IH; exact H2].
Qed.

Lemma obj_find_valid (k : std_string) (m : list (std_string * json)) (v : json) :
  entries_valid m = true -> obj_find k m = Some v -> strings_valid v = true.
Proof.
  unfold entries_valid. induction m as [|[k' v'] r IH]; intros Hm H; [discriminate H|].
  cbn [forallb fst snd] in Hm. apply andb_true_iff in Hm. destruct Hm as [H1 H2].
  apply andb_true_iff in H1. destruct H1 as [_ Hv].
  cbn [obj_find] in H. destruct (Str.eqb k k').
  - injection H as <-. exact Hv.
  - apply IH; assumption.
Qed.

Lemma forallb_reversed (A : Type) (f : A -> bool) (l : list A) :
  forallb f (rev l) = forallb f l.
Proof.
  induction l as [|x l IH]; [reflexivity|].
  cbn [rev forallb]. rewrite forallb_app, IH. cbn [forallb].
  rewrite andb_true_r. apply andb_comm.
Qed.

Ltac valid_hyps :=
  repeat match goal with
    | H : forallb _ (_ :: _) = true |- _ =>
        cbn [forallb] in H; apply andb_true_iff in H; destruct H
    | H : frame_valid _ = true |- _ =>
        progress cbn [frame_valid] in H
    | H : token_valid (tok_string _) = true |- _ =>
        progress cbn [token_valid] in H
    | H : (_ && _)%bool = true |- _ => apply andb_true_iff in H; destruct H
    end.

Ltac valid_goal :=
  valid_hyps;
  repeat match goal with
    | |- _ => assumption
    | |- _ <= _ => simpl in *; lia
    | |- token_valid _ = true => progress cbn [token_valid]
    | |- forallb _ (_ :: _) = true => cbn [forallb]; apply andb_true_iff; split
    | |- frame_valid _ = true => cbn [frame_valid]
    | |- (_ && _)%bool = true => apply andb_true_iff; split
    | |- strings_valid (object _) = true => cbn [strings_valid]
    | |- strings_valid (array _) = true => cbn [strings_valid]
    | |- strings_valid (string_ _) = true => cbn [strings_valid]
    | |- forallb _ (rev _) = true => rewrite forallb_reversed
    | |- forallb _ (obj_set _ _ _) = true => apply obj_set_valid
    | |- entries_valid (obj_set _ _ _) = true => apply obj_set_valid
    | |- _ => assumption
    | |- _ => reflexivity
    end.

(** A value [json::parse] returns holds only well-formed UTF-8. *)
Lemma parse_value_valid (n : nat) :
  forall ts, length ts <= n -> forallb token_valid ts = true ->
    (forall stack j, forallb frame_valid stack = true ->
                     parse_value stack ts = Return j -> strings_valid j = true)
    /\ (forall stack v j, forallb frame_valid stack = true ->
                          strings_valid v = true ->
                          after_value stack v ts = Return j -> strings_valid j = true).
Proof.
  induction n as [|n IH]; intros ts Hn Hts.
  - destruct ts; [|simpl in Hn; lia]. split.
    + intros stack j _ H. discriminate H.
    + intros stack v j _ _ H. destruct stack as [|[elems|m key] stack]; discriminate H.
  - assert (IHp : forall ts' stack j, length ts' <= n ->
                    forallb token_valid ts' = true ->
                    forallb frame_valid stack = true ->
                    parse_value stack ts' = Return j -> strings_valid j = true).
    { intros ts' stack j Hl Ht. apply (proj1 (IH ts' Hl Ht)). }
    assert (IHa : forall ts' stack v j, length ts' <= n ->
                    forallb token_valid ts' = true ->
                    forallb frame_valid stack = true -> strings_valid v = true ->
                    after_value stack v ts' = Return j -> strings_valid j = true).
    { intros ts' stack v j Hl Ht. apply (proj2 (IH ts' Hl Ht)). }
    clear IH. split.
    + intros stack j Hst H. destruct ts as [|t ts']; [discriminate H|].
      simpl in Hn. cbn [parse_value] in H. valid_hyps.
      destruct t; try discriminate H;
        try (apply IHa in H; [exact H|valid_goal..]; fail).
      * destruct ts' as [|t1 ts1].
        -- apply IHp in H; [exact H|valid_goal..].
        -- destruct t1;
             try (apply IHp in H; [exact H|valid_goal..]; fail).
           valid_hyps. apply IHa in H; [exact H|valid_goal..].
      * destruct ts' as [|t1 ts1]; [discriminate H|].
        destruct t1; try discriminate H; valid_hyps.
        -- apply IHa in H; [exact H|valid_goal..].
        -- destruct ts1 as [|t2 ts2]; [discriminate H|].
           destruct t2; try discriminate H. valid_hyps.
           apply IHp in H; [exact H|valid_goal..].
      * destruct (dec_is_finite d); [|discriminate H].
        apply IHa in H; [exact H|valid_goal..].
    + intros stack v j Hst Hv H. destruct stack as [|[elems|m key] stack].
      * destruct ts as [|t ts']; [discriminate H|].
        cbn [after_value] in H.
        destruct t; try discriminate H.
        destruct ts'; [|discriminate H]. injection H as <-. exact Hv.
      * destruct ts as [|t ts']; [discriminate H|].
        simpl in Hn. cbn [after_value] in H. valid_hyps.
        destruct t; try discriminate H.
        -- apply IHa in H; [exact H|valid_goal..].
        -- apply IHp in H; [exact H|valid_goal..].
      * destruct ts as [|t ts']; [discriminate H|].
        simpl in Hn. cbn [after_value] in H. valid_hyps.
        destruct t; try discriminate H.
        -- apply IHa in H; [exact H|valid_goal..].
        -- destruct ts' as [|t1 ts1]; [discriminate H|].
           destruct t1; try discriminate H.
           destruct ts1 as [|t2 ts2]; [discriminate H|].
           destruct t2; try discriminate H. valid_hyps.
           apply IHp in H; [exact H|valid_goal..].
Qed.

Lemma parse_valid (text : std_string) (j : json) :
  parse text = Return j -> strings_valid j = true.
Proof.
  unfold parse. intros H.
  apply (proj1 (@parse_value_valid (length (lex text)) (lex text) (le_n _)
                  (lex_valid text)) [] j eq_refl H).
Qed.

Lemma dump_checked_valid (indent : Z) (j : json) :
  strings_valid j = true -> dump_checked indent j = Return (dump indent j).
Proof. unfold dump_checked. intros ->. reflexivity. Qed.

Lemma subscript_valid (j v : json) (key : std_string) :
  strings_valid j = true -> subscript j key = Return v -> strings_valid v = true.
Proof.
  unfold subscript. intros Hj H. destruct j; try discriminate H.
  - injection H as <-. reflexivity.
  - injection H as <-. destruct (obj_find key m) as [v|] eqn:E; [|reflexivity].
    apply (@obj_find_valid key m v Hj E).
Qed.

Lemma string_at_valid (j : json) (key s : std_string) :
  strings_valid j = true -> string_at j key = Return s -> utf8_valid s = true.
Proof.
  unfold string_at. intros Hj H.
  destruct (subscript j key) as [v|e] eqn:E; [|discriminate H].
  apply (@subscript_valid j v key Hj) in E. cbn [bind] in H.
  destruct v; try discriminate H. injection H as <-. exact E.
Qed.

(** *** Texts that end with a closing brace *)

Lemma after_value_at_end (stack : list frame) (v j : json) :
  after_value stack v [tok_end_of_input] = Return j -> j = v.
Proof.
  destruct stack as [|[elems|m key] stack]; cbn [after_value]; intros H;
    [injection H as <-; reflexivity|discriminate H|discriminate H].
Qed.

Lemma closes_end_object (ts : list token) :
  closes (tok_end_object :: ts) = true ->
  ts = [tok_end_of_input] \/ closes ts = true.
Proof.
  intros H. destruct ts as [|t [|t' ts']].
  - discriminate H.
  - destruct t; try discriminate H. left. reflexivity.
  - right. destruct t; exact H.
Qed.

Ltac closes_hyps :=
  repeat match goal with
    | H : closes (tok_end_object :: _) = true |- _ =>
        apply closes_end_object in H; destruct H as [H|H]
    | H : closes (_ :: _) = true |- _ => progress cbn [closes] in H
    | H : closes [] = true |- _ => discriminate H
    | H : ?x = [tok_end_of_input] |- _ => is_var x; subst x
    | H : _ :: _ = [tok_end_of_input] |- _ => injection H as ? ?; subst
    | H : _ :: _ = [] |- _ => discriminate H
    end.

(** A text whose tokens end with a closing brace parses, if it parses, to
    an object. *)
Lemma parse_value_closes (n : nat) :
  forall ts, length ts <= n -> closes ts = true ->
    (forall stack j, parse_value stack ts = Return j -> is_object j = true)
    /\ (forall stack v j, after_value stack v ts = Return j -> is_object j = true).
Proof.
  induction n as [|n IH]; intros ts Hn Hc.
  - destruct ts; [discriminate Hc|simpl in Hn; lia].
  - assert (IHp : forall ts' stack j, length ts' <= n -> closes ts' = true ->
                    parse_value stack ts' = Return j -> is_object j = true).
    { intros ts' stack j Hl Ht. apply (proj1 (IH ts' Hl Ht)). }
    assert (IHa : forall ts' stack v j, length ts' <= n -> closes ts' = true ->
                    after_value stack v ts' = Return j -> is_object j = true).
    { intros ts' stack v j Hl Ht. apply (proj2 (IH ts' Hl Ht)). }
    assert (End : forall stack m j,
               after_value stack (object m) [tok_end_of_input] = Return j ->
               is_object j = true).
    { intros stack m j H. apply after_value_at_end in H. subst j. reflexivity. }
    clear IH. split.
    + intros stack j H. destruct ts as [|t ts']; [discriminate H|].
      simpl in Hn. cbn [parse_value] in H.
      destruct t; try discriminate H; closes_hyps;
        try (apply IHa in H; [exact H|simpl in *; lia|assumption]; fail);
        try (apply after_value_at_end in H; subst j; discriminate; fail).
      * destruct ts' as [|t1 ts1]; [discriminate Hc|].
        destruct t1;
          try (apply IHp in H; [exact H|simpl in *; lia|exact Hc]; fail).
        closes_hyps. apply IHa in H; [exact H|simpl in *; lia|assumption].
      * destruct ts' as [|t1 ts1]; [discriminate H|].
        destruct t1; try discriminate H; closes_hyps.
        -- apply (End _ _ _ H).
        -- apply IHa in H; [exact H|simpl in *; lia|assumption].
        -- destruct ts1 as [|t2 ts2]; [discriminate H|].
           destruct t2; try discriminate H. closes_hyps.
           apply IHp in H; [exact H|simpl in *; lia|assumption].
      * destruct (dec_is_finite d); [|discriminate H].
        apply IHa in H; [exact H|simpl in *; lia|assumption].
    + intros stack v j H. destruct stack as [|[elems|m key] stack].
      * destruct ts as [|t ts']; [discriminate H|].
        cbn [after_value] in H.
        destruct t; try discriminate H.
        destruct ts'; [discriminate Hc|discriminate H].
      * destruct ts as [|t ts']; [discriminate H|].
        simpl in Hn. cbn [after_value] in H.
        destruct t; try discriminate H; closes_hyps.
        -- apply IHa in H; [exact H|simpl in *; lia|assumption].
        -- apply IHp in H; [exact H|simpl in *; lia|assumption].
      * destruct ts as [|t ts']; [discriminate H|].
        simpl in Hn. cbn [after_value] in H.
        destruct t; try discriminate H; closes_hyps.
        -- apply (End _ _ _ H).
        -- apply IHa in H; [exact H|simpl in *; lia|assumption].
        -- destruct ts' as [|t1 ts1]; [discriminate H|].
           destruct t1; try discriminate H.
           destruct ts1 as [|t2 ts2]; [discriminate H|].
           destruct t2; try discriminate H. closes_hyps.
           apply IHp in H; [exact H|simpl in *; lia|assumption].
Qed.

Ltac fails_hyps :=
  repeat match goal with
    | H : fails (_ :: _) = true |- _ => progress cbn [fails] in H
    | H : fails [] = true |- _ => discriminate H
    end.

(** A text whose tokens end with a lexical error does not parse. *)
Lemma parse_value_fails (n : nat) :
  forall ts, length ts <= n -> fails ts = true ->
    (forall stack j, parse_value stack ts <> Return j)
    /\ (forall stack v j, after_value stack v ts <> Return j).
Proof.
  induction n as [|n IH]; intros ts Hn Hc.
  - destruct ts; [discriminate Hc|simpl in Hn; lia].
  - assert (IHp : forall ts' stack j, length ts' <= n -> fails ts' = true ->
                    parse_value stack ts' = Return j -> False).
    { intros ts' stack j Hl Ht. apply (proj1 (IH ts' Hl Ht)). }
    assert (IHa : forall ts' stack v j, length ts' <= n -> fails ts' = true ->
                    after_value stack v ts' = Return j -> False).
    { intros ts' stack v j Hl Ht. apply (proj2 (IH ts' Hl Ht)). }
    clear IH. split.
    + intros stack j H. destruct ts as [|t ts']; [discriminate H|].
      simpl in Hn. cbn [parse_value] in H.
      destruct t; try discriminate H; fails_hyps;
        try (apply IHa in H; [exact H|simpl in *; lia|assumption]; fail).
      * destruct ts' as [|t1 ts1]; [discriminate Hc|].
        destruct t1;
          try (apply IHp in H; [exact H|simpl in *; lia|exact Hc]; fail).
        fails_hyps. apply IHa in H; [exact H|simpl in *; lia|assumption].
      * destruct ts' as [|t1 ts1]; [discriminate H|].
        destruct t1; try discriminate H; fails_hyps.
        -- apply IHa in H; [exact H|simpl in *; lia|assumption].
        -- destruct ts1 as [|t2 ts2]; [discriminate H|].
           destruct t2; try discriminate H. fails_hyps.
           apply IHp in H; [exact H|simpl in *; lia|assumption].
      * destruct (dec_is_finite d); [|discriminate H].
        apply IHa in H; [exact H|simpl in *; lia|assumption].
    + intros stack v j H. destruct stack as [|[elems|m key] stack].
      * destruct ts as [|t ts']; [discriminate H|].
        cbn [after_value] in H.
        destruct t; try discriminate H.
        destruct ts'; [discriminate Hc|discriminate H].
      * destruct ts as [|t ts']; [discriminate H|].
        simpl in Hn. cbn [after_value] in H.
        destruct t; try discriminate H; fails_hyps.
        -- apply IHa in H; [exact H|simpl in *; lia|assumption].
        -- apply IHp in H; [exact H|simpl in *; lia|assumption].
      * destruct ts as [|t ts']; [discriminate H|].
        simpl in Hn. cbn [after_value] in H.
        destruct t; try discriminate H; fails_hyps.
        -- apply IHa in H; [exact H|simpl in *; lia|assumption].
        -- destruct ts' as [|t1 ts1]; [discriminate H|].
           destruct t1; try discriminate H.
           destruct ts1 as [|t2 ts2]; [discriminate H|].
           destruct t2; try discriminate H. fails_hyps.
           apply IHp in H; [exact H|simpl in *; lia|assumption].
Qed.

Lemma ends_with_app (c : ascii) (a b : list ascii) :
  ends_with c (a ++ b) = match b with [] => ends_with c a | _ => ends_with c b end.
Proof.
  induction a as [|x a IH].
  - destruct b; reflexivity.
  - cbn [app ends_with]. rewrite IH.
    destruct b as [|y b]; [rewrite app_nil_r; reflexivity|].
    destruct a; reflexivity.
Qed.

Lemma ends_with_in (c : ascii) (cs : list ascii) :
  ends_with c cs = true -> In c cs.
Proof.
  induction cs as [|x r IH]; [discriminate|].
  cbn [ends_with]. destruct r as [|y r'].
  - intros H. apply char_eqb_eq in H. left. exact H.
  - intros H. right. apply IH. exact H.
Qed.

Lemma code_char_eqb (c d : ascii) : char_eqb c d = (code c =? code d)%N.
Proof.
  unfold char_eqb, code. destruct (Ascii.eqb_spec c d) as [->|Hn].
  - symmetry. apply N.eqb_refl.
  - symmetry. apply N.eqb_neq. intros E. apply Hn.
    rewrite <- (ascii_N_embedding c), <- (ascii_N_embedding d), E. reflexivity.
Qed.

Lemma eats_left (cs rest : list ascii) :
  eats cs rest -> ends_with "}"%char cs = true ->
  rest <> [] /\ ends_with "}"%char rest = true.
Proof.
  intros [consumed [-> Hc]] H. rewrite ends_with_app in H.
  destruct rest as [|x r]; [congruence|]. split; [discriminate|exact H].
Qed.

Lemma eats_in (cs rest : list ascii) (x : ascii) :
  eats cs rest -> In x rest -> In x cs.
Proof. intros [consumed [-> _]] H. apply in_or_app. right. exact H. Qed.

Lemma eats_none (cs : list ascii) : eats cs cs.
Proof. exists []. split; reflexivity. Qed.

Lemma eats_more (c : ascii) (cs rest : list ascii) :
  (code c =? 125)%N = false -> eats cs rest -> eats (c :: cs) rest.
Proof.
  intros Hc [consumed [-> H]]. exists (c :: consumed). split; [reflexivity|].
  cbn [ends_with]. destruct consumed; [|exact H].
  rewrite code_char_eqb. exact Hc.
Qed.

Lemma closed_by_eats (c q : ascii) (rest cs : list ascii) :
  (code q =? 125)%N = false -> closed_by q rest cs -> eats (c :: cs) rest.
Proof.
  intros Hq H.
  assert (E : exists pre, cs = pre ++ q :: rest).
  { induction H as [|x cs _ [pre ->]]; [exists []; reflexivity|].
    exists (x :: pre). reflexivity. }
  destruct E as [pre ->]. exists (c :: pre ++ [q]). split.
  - cbn [app]. rewrite <- app_assoc. reflexivity.
  - change (c :: pre ++ [q]) with ((c :: pre) ++ [q]). rewrite ends_with_app.
    cbn [ends_with]. rewrite code_char_eqb. exact Hq.
Qed.

Ltac closed_cases H IH :=
  repeat match type of H with
    | None = Some _ => discriminate H
    | Some _ = Some _ => injection H as ? ?; subst
    | scan_string _ _ = Some _ =>
        apply IH in H; [repeat apply closed_later; exact H|simpl in *; lia]
    | context [match ?x with _ => _ end] =>
        destruct x eqn:?; cbv beta match in H
    end.

(** What [scan_string] takes ends with the closing quote. *)
Lemma scan_string_closed (n : nat) :
  forall cs acc s rest,
    length cs <= n -> scan_string acc cs = Some (s, rest) ->
    closed_by "034"%char rest cs.
Proof.
  induction n as [|n IH]; intros cs acc s rest Hn H.
  - destruct cs; [discriminate H|simpl in Hn; lia].
  - destruct cs as [|c r]; [discriminate H|].
    simpl in Hn. cbn [scan_string] in H.
    assert (IH' : forall cs' acc', scan_string acc' cs' = Some (s, rest) ->
              length cs' <= n -> closed_by "034"%char rest cs').
    { intros cs' acc' H' Hl. apply (IH cs' acc' s rest Hl H'). }
    clear IH.
    destruct (code c =? 34)%N eqn:Eq.
    { injection H as _ <-.
      replace c with "034"%char; [constructor|].
      apply N.eqb_eq in Eq. unfold code in Eq.
      rewrite <- (ascii_N_embedding c), Eq. reflexivity. }
    closed_cases H IH'.
Qed.

Lemma takes_eats (cs rest : list ascii) : takes cs rest -> eats cs rest.
Proof.
  intros [consumed [-> H]]. exists consumed. split; [reflexivity|].
  destruct (ends_with "}"%char consumed) eqn:E; [|reflexivity].
  apply ends_with_in in E. unfold brace_free in H.
  rewrite forallb_forall in H. specialize (H _ E). discriminate H.
Qed.

Lemma takes_none (cs : list ascii) : takes cs cs.
Proof. exists []. split; reflexivity. Qed.

Lemma takes_more (c : ascii) (cs rest : list ascii) :
  (code c =? 125)%N = false -> takes cs rest -> takes (c :: cs) rest.
Proof.
  intros Hc [consumed [-> H]]. exists (c :: consumed). split; [reflexivity|].
  unfold brace_free in *. cbn [forallb]. rewrite Hc, H. reflexivity.
Qed.

Lemma takes_trans (a b c : list ascii) : takes a b -> takes b c -> takes a c.
Proof.
  intros [x [-> Hx]] [y [-> Hy]]. exists (x ++ y). split.
  - rewrite app_assoc. reflexivity.
  - unfold brace_free in *. rewrite forallb_app, Hx, Hy. reflexivity.
Qed.

Lemma is_digit_no_brace (c : ascii) : is_digit c = true -> (code c =? 125)%N = false.
Proof.
  unfold is_digit. intros H. apply andb_true_iff in H. destruct H as [_ H].
  apply N.leb_le in H. apply N.eqb_neq. lia.
Qed.

Lemma span_digits_takes (cs : list ascii) : takes cs (snd (span_digits cs)).
Proof.
  induction cs as [|c r IH]; [apply takes_none|].
  cbn [span_digits]. destruct (is_digit c) eqn:E; [|apply takes_none].
  destruct (span_digits r) as [ds rest]. cbn [snd] in *.
  apply takes_more; [apply (is_digit_no_brace _ E)|exact IH].
Qed.

Lemma scan_exponent_takes neg ints fracs is_float (cs : list ascii) :
  fst (scan_exponent neg ints fracs is_float cs) = tok_parse_error
  \/ takes cs (snd (scan_exponent neg ints fracs is_float cs)).
Proof.
  unfold scan_exponent. destruct cs as [|x r]; [right; apply takes_none|].
  destruct ((code x =? 101)%N || (code x =? 69)%N) eqn:Ex;
    [|right; apply takes_none].
  assert (Hx : (code x =? 125)%N = false).
  { apply orb_true_iff in Ex. destruct Ex as [E|E]; apply N.eqb_eq in E;
      apply N.eqb_neq; lia. }
  destruct r as [|s r'].
  - left. reflexivity.
  - destruct (code s =? 43)%N eqn:E1; [|destruct (code s =? 45)%N eqn:E2].
    + assert (Hr : takes (s :: r') r').
      { apply takes_more; [apply N.eqb_eq in E1; apply N.eqb_neq; lia
                          |apply takes_none]. }
      pose proof (span_digits_takes r') as Hs.
      destruct (span_digits r') as [es rest]. cbn [snd] in Hs.
      destruct es; [left; reflexivity|right]. cbn [snd].
      apply takes_more; [exact Hx|]. apply (takes_trans Hr Hs).
    + assert (Hr : takes (s :: r') r').
      { apply takes_more; [apply N.eqb_eq in E2; apply N.eqb_neq; lia
                          |apply takes_none]. }
      pose proof (span_digits_takes r') as Hs.
      destruct (span_digits r') as [es rest]. cbn [snd] in Hs.
      destruct es; [left; reflexivity|right]. cbn [snd].
      apply takes_more; [exact Hx|]. apply (takes_trans Hr Hs).
    + pose proof (span_digits_takes (s :: r')) as Hs.
      destruct (span_digits (s :: r')) as [es rest]. cbn [snd] in Hs.
      destruct es; [left; reflexivity|right]. cbn [snd].
      apply takes_more; [exact Hx|exact Hs].
Qed.

Lemma scan_fraction_takes neg ints (cs : list ascii) :
  fst (scan_fraction neg ints cs) = tok_parse_error
  \/ takes cs (snd (scan_fraction neg ints cs)).
Proof.
  unfold scan_fraction. destruct cs as [|p r]; [apply scan_exponent_takes|].
  destruct (code p =? 46)%N eqn:Ep; [|apply scan_exponent_takes].
  pose proof (span_digits_takes r) as Hs.
  destruct (span_digits r) as [fs rest]. cbn [snd] in Hs.
  destruct fs as [|f fs]; [left; reflexivity|].
  destruct (scan_exponent_takes neg ints (f :: fs) true rest) as [E|E];
    [left; exact E|right].
  apply takes_more; [apply N.eqb_eq in Ep; apply N.eqb_neq; lia|].
  apply (takes_trans Hs E).
Qed.

Lemma scan_number_takes (cs : list ascii) :
  fst (scan_number cs) = tok_parse_error \/ takes cs (snd (scan_number cs)).
Proof.
  unfold scan_number.
  assert (H : forall neg cs1,
            fst (match cs1 with
                 | d :: r =>
                     if (code d =? 48)%N then scan_fraction neg [d] r
                     else if is_digit d then
                            let (ds, rest) := span_digits r in
                            scan_fraction neg (d :: ds) rest
                          else (tok_parse_error, r)
                 | [] => (tok_parse_error, [])
                 end) = tok_parse_error
            \/ takes cs1 (snd (match cs1 with
                               | d :: r =>
                                   if (code d =? 48)%N then scan_fraction neg [d] r
                                   else if is_digit d then
                                          let (ds, rest) := span_digits r in
                                          scan_fraction neg (d :: ds) rest
                                        else (tok_parse_error, r)
                               | [] => (tok_parse_error, [])
                               end))).
  { intros neg [|d r]; [left; reflexivity|].
    destruct (code d =? 48)%N eqn:E0.
    - destruct (scan_fraction_takes neg [d] r) as [E|E]; [left; exact E|right].
      apply takes_more; [apply N.eqb_eq in E0; apply N.eqb_neq; lia|exact E].
    - destruct (is_digit d) eqn:Ed; [|left; reflexivity].
      pose proof (span_digits_takes r) as Hs.
      destruct (span_digits r) as [ds rest]. cbn [snd] in Hs.
      destruct (scan_fraction_takes neg (d :: ds) rest) as [E|E];
        [left; exact E|right].
      apply takes_more; [apply (is_digit_no_brace _ Ed)|].
      apply (takes_trans Hs E). }
  destruct cs as [|m r]; [left; reflexivity|].
  destruct (code m =? 45)%N eqn:Em.
  - destruct (H true r) as [E|E]; [left; exact E|right].
    apply takes_more; [apply N.eqb_eq in Em; apply N.eqb_neq; lia|exact E].
  - apply (H false (m :: r)).
Qed.

Lemma skipn_starts_with (text cs : std_string) :
  starts_with text cs = true -> cs = text ++ skipn (length text) cs.
Proof.
  intros H. destruct (starts_with_app _ _ H) as [post ->].
  rewrite skipn_app, skipn_all, Nat.sub_diag. reflexivity.
Qed.

Lemma scan_literal_takes text t (cs : list ascii) :
  brace_free text = true ->
  fst (scan_literal text t cs) = tok_parse_error
  \/ takes cs (snd (scan_literal text t cs)).
Proof.
  intros Hf. unfold scan_literal.
  destruct (starts_with text cs) eqn:E; [right|left; reflexivity].
  cbn [snd]. exists text. split; [apply (skipn_starts_with _ _ E)|exact Hf].
Qed.

Lemma skip_whitespace_takes (cs : list ascii) : takes cs (skip_whitespace cs).
Proof.
  induction cs as [|c r IH]; [apply takes_none|].
  cbn [skip_whitespace].
  destruct ((code c =? 32)%N || (code c =? 9)%N || (code c =? 10)%N
            || (code c =? 13)%N) eqn:E; [|apply takes_none].
  apply takes_more; [|exact IH].
  repeat (apply orb_true_iff in E; destruct E as [E|E]);
    apply N.eqb_eq in E; apply N.eqb_neq; lia.
Qed.

Lemma takes_in (cs rest : list ascii) (x : ascii) :
  takes cs rest -> In x rest -> In x cs.
Proof. intros [consumed [-> _]] H. apply in_or_app. right. exact H. Qed.

Lemma scan_number_token (cs : list ascii) :
  is_last (fst (scan_number cs)) = true -> fst (scan_number cs) = tok_parse_error.
Proof.
  unfold scan_number, scan_fraction, scan_exponent, number_token.
  repeat match goal with
    | |- context [match ?x with _ => _ end] => destruct x
    end; cbn [fst is_last]; intros H; try reflexivity; discriminate H.
Qed.

Lemma step_of_eats (cs rest : list ascii) (t : token) :
  eats cs rest -> ends_with "}"%char cs = true -> ~ In "000"%char cs ->
  is_last t = false -> step_ok t rest.
Proof.
  intros He Hb Hn Ht. right. right. split; [exact Ht|].
  destruct (@eats_left cs rest He Hb) as [_ H]. split; [exact H|].
  intros Hin. apply Hn. apply (@eats_in cs rest _ He Hin).
Qed.

Lemma eats_one (c : ascii) (r : list ascii) :
  (code c =? 125)%N = false -> eats (c :: r) r.
Proof. intros H. apply eats_more; [exact H|apply eats_none]. Qed.

Lemma scan_step (cs : list ascii) :
  ~ In "000"%char cs -> ends_with "}"%char cs = true ->
  step_ok (fst (scan cs)) (snd (scan cs)).
Proof.
  intros Hn Hb. unfold scan.
  pose proof (skip_whitespace_takes cs) as Hw.
  destruct (@eats_left _ _ (@takes_eats _ _ Hw) Hb) as [Hne Hb'].
  assert (Hn' : ~ In "000"%char (skip_whitespace cs)).
  { intros Hin. apply Hn. apply (@takes_in _ _ _ Hw Hin). }
  destruct (skip_whitespace cs) as [|c r]; [congruence|]. clear Hne Hw.
  assert (One : forall t, (code c =? 125)%N = false -> is_last t = false ->
                          step_ok t r).
  { intros t Hc Ht. apply (@step_of_eats (c :: r) r t (@eats_one c r Hc) Hb' Hn' Ht). }
  cbv zeta.
  destruct (code c =? 91)%N eqn:E91.
  { apply One; [apply N.eqb_eq in E91; apply N.eqb_neq; lia|reflexivity]. }
  destruct (code c =? 93)%N eqn:E93.
  { apply One; [apply N.eqb_eq in E93; apply N.eqb_neq; lia|reflexivity]. }
  destruct (code c =? 123)%N eqn:E123.
  { apply One; [apply N.eqb_eq in E123; apply N.eqb_neq; lia|reflexivity]. }
  destruct (code c =? 125)%N eqn:E125.
  { cbn [fst snd]. destruct r as [|x r'].
    - right. left. split; reflexivity.
    - right. right. split; [reflexivity|]. split; [exact Hb'|].
      intros Hin. apply Hn'. right. exact Hin. }
  destruct (code c =? 58)%N eqn:E58; [apply One; reflexivity|].
  destruct (code c =? 44)%N eqn:E44; [apply One; reflexivity|].
  assert (Lit : forall text t,
             brace_free text = true -> is_last t = false ->
             step_ok (fst (scan_literal text t r)) (snd (scan_literal text t r))).
  { intros text t Hf Ht. unfold scan_literal.
    destruct (starts_with text r) eqn:E; [|left; reflexivity]. cbn [fst snd].
    apply (@step_of_eats (c :: r)); [|exact Hb'|exact Hn'|exact Ht].
    apply eats_more; [exact E125|]. apply takes_eats.
    exists text. split; [apply (@skipn_starts_with _ _ E)|exact Hf]. }
  destruct (code c =? 116)%N; [apply Lit; reflexivity|].
  destruct (code c =? 102)%N; [apply Lit; reflexivity|].
  destruct (code c =? 110)%N; [apply Lit; reflexivity|].
  destruct (code c =? 34)%N eqn:E34.
  { destruct (scan_string [] r) as [[s rest]|] eqn:Es; [|left; reflexivity].
    cbn [fst snd].
    apply (@step_of_eats (c :: r)); [|exact Hb'|exact Hn'|reflexivity].
    apply (@closed_by_eats c "034"%char rest r eq_refl).
    apply (@scan_string_closed (length r) r [] s rest (le_n _) Es). }
  destruct ((code c =? 45)%N || is_digit c).
  { destruct (scan_number_takes (c :: r)) as [E|E]; [left; exact E|].
    destruct (is_last (fst (scan_number (c :: r)))) eqn:El.
    - left. apply scan_number_token. exact El.
    - apply (@step_of_eats (c :: r)); [|exact Hb'|exact Hn'|exact El].
      apply takes_eats. exact E. }
  destruct (code c =? 0)%N eqn:E0; [|left; reflexivity].
  exfalso. apply Hn'. left.
  apply N.eqb_eq in E0. unfold code in E0.
  rewrite <- (ascii_N_embedding c), E0. reflexivity.
Qed.

Lemma fails_tail (t : token) (ts : list token) :
  fails (t :: ts) = false -> fails ts = false.
Proof.
  cbn [fails]. destruct ts as [|t' ts']; [reflexivity|].
  destruct t; intros H; exact H.
Qed.

Lemma closes_tail (t : token) (ts : list token) :
  closes ts = true -> closes (t :: ts) = true.
Proof.
  intros H. cbn [closes].
  destruct t; try exact H.
  destruct ts as [|t1 [|t2 ts2]]; try exact H.
  - destruct t1; try exact H. reflexivity.
  - destruct t1; exact H.
Qed.

(** The tokens of a text that holds no NUL and ends with a closing brace
    end with that brace, unless they end with an error. *)
Lemma tokens_close (fuel : nat) :
  forall cs, length cs < fuel -> ~ In "000"%char cs ->
             ends_with "}"%char cs = true ->
             fails (tokens fuel cs) = false -> closes (tokens fuel cs) = true.
Proof.
  induction fuel as [|fuel IH]; intros cs Hl Hn Hb; [lia|].
  cbn [tokens]. pose proof (scan_step cs Hn Hb) as Hs.
  pose proof (JsonFacts.scan_shrinks cs) as Hlen.
  destruct (scan cs) as [t rest]. cbn [fst snd] in Hs, Hlen.
  destruct Hs as [->|[[-> ->]|[Ht [Hb' Hn']]]].
  - discriminate.
  - intros _. destruct fuel as [|fuel]; [destruct cs; [discriminate Hb|simpl in Hl; lia]|].
    reflexivity.
  - specialize (Hlen Ht).
    assert (Hr : fails (tokens fuel rest) = false ->
                 closes (tokens fuel rest) = true).
    { apply IH; [lia|exact Hn'|exact Hb']. }
    destruct t; try discriminate Ht; intros Hf;
      apply closes_tail; apply Hr; apply (fails_tail _ _ Hf).
Qed.

Lemma skip_bom_keeps (s cs : std_string) :
  skip_bom s = Some cs -> ~ In "000"%char s -> ends_with "}"%char s = true ->
  ~ In "000"%char cs /\ ends_with "}"%char cs = true.
Proof.
  unfold skip_bom. destruct s as [|a r]; [discriminate 3|].
  destruct (code a =? 239)%N eqn:Ea.
  - destruct r as [|b [|c r']]; try discriminate.
    destruct ((code b =? 187)%N && (code c =? 191)%N) eqn:Ebc; [|discriminate].
    intros H Hn Hb. injection H as <-. split.
    + intros Hin. apply Hn. right. right. right. exact Hin.
    + destruct r' as [|x r'']; [|exact Hb].
      cbn [ends_with] in Hb. rewrite code_char_eqb in Hb.
      apply andb_true_iff in Ebc. destruct Ebc as [_ Ec].
      apply N.eqb_eq in Ec. apply N.eqb_eq in Hb. rewrite Ec in Hb. discriminate Hb.
  - intros H Hn Hb. injection H as <-. split; assumption.
Qed.

(** A text that holds no NUL and ends with a closing brace parses, if it
    parses, to an object. *)
Lemma parse_braced (text : std_string) (j : json) :
  ~ In "000"%char text -> ends_with "}"%char text = true ->
  Json.parse text = Return j -> is_object j = true.
Proof.
  intros Hn Hb. unfold Json.parse, lex.
  destruct (skip_bom text) as [cs|] eqn:Eb; [|discriminate].
  destruct (@skip_bom_keeps _ _ Eb Hn Hb) as [Hn' Hb'].
  intros H.
  destruct (fails (tokens (S (length cs)) cs)) eqn:Ef.
  - exfalso.
    apply (proj1 (@parse_value_fails (length (tokens (S (length cs)) cs)) _
                    (le_n _) Ef) [] j H).
  - pose proof (@tokens_close (S (length cs)) cs (Nat.lt_succ_diag_r _) Hn' Hb' Ef)
      as Hc.
    apply (proj1 (@parse_value_closes (length (tokens (S (length cs)) cs)) _
                    (le_n _) Hc) [] j H).
Qed.

(** *** Serializing what was parsed *)

(** What [json::parse] returns can always be serialized again: the lexer
    lets only well-formed UTF-8 into a string or a key, so [dump] has no
    byte to reject ([type_error.316]).  The same holds for every value
    reached from it with [operator[]]. *)
Theorem parsed_values_serialize (text : std_string) (j : json) (indent : Z) :
  Json.parse text = Return j ->
  dump_checked indent j = Return (dump indent j)
  /\ forall key v, subscript j key = Return v ->
                   dump_checked indent v = Return (dump indent v).
Proof.
  intros H. pose proof (parse_valid _ H) as Hv. split.
  - apply dump_checked_valid. exact Hv.
  - intros key v Hs. apply dump_checked_valid.
    apply (@subscript_valid j v key Hv Hs).
Qed.

Lemma parsed_values_serialize_witness :
  Json.parse Samples.classify_body = Return (Samples.parsed Samples.classify_body)
  /\ dump_checked 2 (Samples.parsed Samples.classify_body)
     = Return (dump 2 (Samples.parsed Samples.classify_body))
  /\ forall key v,
       subscript (Samples.parsed Samples.classify_body) key = Return v ->
       dump_checked 2 v = Return (dump 2 v).
Proof.
  split; [vm_compute; reflexivity|].
  apply (@parsed_values_serialize Samples.classify_body
           (Samples.parsed Samples.classify_body) 2).
  vm_compute. reflexivity.
Defined.

End JsonUseFacts.

(** ** More on the extractors and the persona line *)

Module ExtractionFacts.
Import Persona Extract Cli JsonUse JsonShape JsonUseFacts.

Lemma trim_edges (line : std_string) :
  trim line = [] \/ edges_outside trim_set (trim line) = true.
Proof.
  unfold trim.
  destruct (find_first_not_of trim_set line) as [i|] eqn:Hf; [|left; reflexivity].
  destruct (@CliFacts.find_first_not_of_some _ _ _ Hf)
    as [pre [x [rest [Hs [Hl [Hpre Hx]]]]]].
  assert (H1 : erase_front (Some i) line = x :: rest).
  { unfold erase_front. rewrite Hs, <- Hl, skipn_app, skipn_all, Nat.sub_diag.
    reflexivity. }
  rewrite H1.
  destruct (find_last_not_of trim_set (x :: rest)) as [j|] eqn:Hj;
    [|left; reflexivity].
  destruct (@CliFacts.find_last_not_of_some _ _ _ Hj)
    as [pre' [y [post [Hs' [Hl' [Hy Hpost]]]]]].
  right. unfold erase_from. rewrite Hs', <- Hl'.
  rewrite firstn_app, firstn_all2 by lia.
  replace (length pre' + 1 - length pre') with 1 by lia. cbn [firstn].
  destruct pre' as [|x' pre'].
  - simpl in Hs'. injection Hs' as <- _. apply CliFacts.edges_outside_single.
    exact Hx.
  - simpl in Hs'. injection Hs' as <- _.
    apply CliFacts.edges_outside_ends; assumption.
Qed.

(** A persona [extract_persona_line] selects has been trimmed: it starts
    and ends with a byte that is not a space, a newline, a carriage return,
    a tab or a double quote. *)
Theorem extract_persona_line_trimmed (raw_output name : std_string) :
  extract_persona_line raw_output name = []
  \/ edges_outside trim_set (extract_persona_line raw_output name) = true.
Proof.
  unfold extract_persona_line. destruct raw_output as [|c r]; [left; reflexivity|].
  destruct (PersonaFacts.scan_lines_result name (getlines (c :: r)) [])
    as [H|[_ [raw [_ H]]]].
  - left; exact H.
  - rewrite H. destruct (trim_edges raw) as [E|E]; [left|right]; exact E.
Qed.

Lemma find_char_first (c : ascii) (pre rest : std_string) :
  ~ In c pre -> find_char c (pre ++ c :: rest) = Some (length pre).
Proof.
  induction pre as [|x pre IH]; intros H; simpl.
  - unfold char_eqb. rewrite Ascii.eqb_refl. reflexivity.
  - destruct (char_eqb x c) eqn:E.
    + apply char_eqb_eq in E. exfalso; apply H; left; exact E.
    + rewrite IH; [reflexivity|]. intros Hin; apply H; right; exact Hin.
Qed.

Lemma rfind_char_none (c : ascii) (s : std_string) :
  ~ In c s -> rfind_char c s = None.
Proof.
  induction s as [|x s IH]; intros H; simpl; [reflexivity|].
  rewrite IH by (intros Hin; apply H; right; exact Hin).
  destruct (char_eqb x c) eqn:E; [|reflexivity].
  apply char_eqb_eq in E. exfalso; apply H; left; exact E.
Qed.

Lemma rfind_char_last (c : ascii) (pre post : std_string) :
  ~ In c post -> rfind_char c (pre ++ c :: post) = Some (length pre).
Proof.
  intros H. induction pre as [|x pre IH]; simpl.
  - rewrite (@rfind_char_none _ _ H). unfold char_eqb. rewrite Ascii.eqb_refl.
    reflexivity.
  - rewrite IH. reflexivity.
Qed.

(** Prose around the payload is ignored: in a text without a [```json]
    fence, whatever stands before the first opening brace and after the
    last closing brace does not reach the parser, and each extractor
    answers as it does on the payload alone. *)
Theorem extractors_ignore_prose (before payload after : std_string) :
  (forall pre post,
      before ++ "{"%char :: payload ++ "}"%char :: after
      <> pre ++ lit "```json" ++ post) ->
  ~ In "{"%char before -> ~ In "}"%char after ->
  let text := before ++ "{"%char :: payload ++ "}"%char :: after in
  let bare := "{"%char :: payload ++ ["}"%char] in
  json_span text = Some bare
  /\ parse_cv_metadata text = parse_cv_metadata bare
  /\ parse_draft_reply text = parse_draft_reply bare
  /\ parse_classification text = parse_classification bare.
Proof.
  intros Hfence Hbefore Hafter text bare.
  assert (Hspan : forall b a,
             (forall pre post,
                 b ++ "{"%char :: payload ++ "}"%char :: a
                 <> pre ++ lit "```json" ++ post) ->
             ~ In "{"%char b -> ~ In "}"%char a ->
             json_span (b ++ "{"%char :: payload ++ "}"%char :: a) = Some bare).
  { intros b a Hf Hb Ha. unfold json_span, find_start_marker, find_end_marker.
    rewrite (@str_find_none _ _ Hf), (@find_char_first _ _ _ Hb).
    replace (b ++ "{"%char :: payload ++ "}"%char :: a)
      with ((b ++ "{"%char :: payload) ++ "}"%char :: a)
      by (rewrite <- app_assoc; reflexivity).
    rewrite (@rfind_char_last _ _ _ Ha), length_app. simpl length.
    replace (length b <? length b + S (length payload)) with true
      by (symmetry; apply Nat.ltb_lt; lia).
    f_equal. unfold substr, bare.
    rewrite <- app_assoc, skipn_app, skipn_all, Nat.sub_diag. simpl skipn.
    simpl app.
    replace (length b + S (length payload) - length b + 1)
      with (S (length payload + 1)) by lia.
    cbn [firstn]. rewrite firstn_app, firstn_all2 by lia.
    replace (length payload + 1 - length payload) with 1 by lia. reflexivity. }
  assert (H1 : json_span text = Some bare) by (apply Hspan; assumption).
  assert (H2 : json_span bare = Some bare).
  { apply (Hspan [] []); [|simpl; tauto|simpl; tauto].
    intros pre post E. apply (Hfence (before ++ pre) (post ++ after)).
    change (bare = pre ++ lit "```json" ++ post) in E.
    transitivity (before ++ bare ++ after).
    - unfold bare. simpl. rewrite <- app_assoc. reflexivity.
    - rewrite E, <- !app_assoc. reflexivity. }
  split; [exact H1|].
  unfold parse_cv_metadata, parse_draft_reply, parse_classification.
  rewrite H1, H2. auto.
Qed.

Lemma forallb_not_in (c : ascii) (s : std_string) :
  forallb (fun x => negb (char_eqb x c)) s = true -> ~ In c s.
Proof.
  intros H Hin. rewrite forallb_forall in H. specialize (H c Hin).
  unfold char_eqb in H. rewrite Ascii.eqb_refl in H. discriminate H.
Qed.

Lemma no_backtick_no_fence (s : std_string) :
  forallb (fun x => negb (char_eqb x "`"%char)) s = true ->
  forall pre post, s <> pre ++ lit "```json" ++ post.
Proof.
  intros H pre post E. apply (forallb_not_in _ _ H).
  rewrite E. apply in_or_app. right. left. reflexivity.
Qed.

Lemma extractors_ignore_prose_witness :
  let text := lit "Here it is: {'name': 'Ann'} Bye." in
  let bare := lit "{'name': 'Ann'}" in
  json_span text = Some bare
  /\ parse_cv_metadata text = parse_cv_metadata bare
  /\ parse_draft_reply text = parse_draft_reply bare
  /\ parse_classification text = parse_classification bare.
Proof.
  exact (@extractors_ignore_prose (lit "Here it is: ") (lit "'name': 'Ann'")
           (lit " Bye.")
           (@no_backtick_no_fence (lit "Here it is: {'name': 'Ann'} Bye.") eq_refl)
           (@forallb_not_in "{"%char (lit "Here it is: ") eq_refl)
           (@forallb_not_in "}"%char (lit " Bye.") eq_refl)).
Defined.

(** *** The extractors return objects *)

Lemma in_firstn_list (A : Type) (x : A) (n : nat) (l : list A) :
  In x (firstn n l) -> In x l.
Proof.
  revert n; induction l as [|y l IH]; intros [|n] H; try contradiction.
  cbn [firstn] in H. destruct H as [H|H]; [left; exact H|right; apply (IH n H)].
Qed.

Lemma in_skipn_list (A : Type) (x : A) (n : nat) (l : list A) :
  In x (skipn n l) -> In x l.
Proof.
  revert n; induction l as [|y l IH]; intros [|n] H; try contradiction;
    [exact H|right; apply (IH n H)].
Qed.

Lemma ends_with_split (c : ascii) (cs : list ascii) :
  ends_with c cs = true -> exists s, cs = s ++ [c].
Proof.
  induction cs as [|x r IH]; [discriminate|].
  cbn [ends_with]. destruct r as [|y r'].
  - intros H. apply char_eqb_eq in H. subst x. exists []. reflexivity.
  - intros H. destruct (IH H) as [s ->]. exists (x :: s). reflexivity.
Qed.

(** The span the extractors take ends with a closing brace and holds only
    bytes of the model output. *)
Lemma json_span_braced (model_output json_str : std_string) :
  json_span model_output = Some json_str ->
  ends_with "}"%char json_str = true
  /\ forall x, In x json_str -> In x model_output.
Proof.
  intros H. apply ExtractFacts.json_span_some in H.
  destruct H as [s [e [_ [He [Hlt ->]]]]]. split.
  - rewrite (@substr_last model_output s e "}"%char);
      [|apply rfind_char_nth; exact He|lia].
    rewrite ends_with_app. reflexivity.
  - intros x Hx. unfold substr in Hx.
    apply in_firstn_list in Hx. apply in_skipn_list in Hx. exact Hx.
Qed.

Lemma replace_nbsp_loop_keeps (fuel : nat) :
  forall json_str,
    ends_with "}"%char json_str = true ->
    ends_with "}"%char (replace_nbsp_loop fuel json_str) = true
    /\ forall x, In x (replace_nbsp_loop fuel json_str) ->
                 x = " "%char \/ In x json_str.
Proof.
  induction fuel as [|fuel IH]; intros json_str Hb; cbn [replace_nbsp_loop].
  - split; [exact Hb|auto].
  - destruct (find non_breaking_space_utf8 json_str) as [p|] eqn:Ef;
      [|split; [exact Hb|auto]].
    destruct (@str_find_some _ _ _ Ef) as [post [E Hp]].
    change (length non_breaking_space_utf8) with 2 in *.
    assert (Hlen : length (firstn p json_str) = p).
    { rewrite length_firstn. lia. }
    assert (Hs : skipn (p + 2) json_str = post).
    { rewrite E, skipn_app, Hlen.
      rewrite skipn_all2 by (rewrite Hlen; lia).
      replace (p + 2 - p) with 2 by lia. reflexivity. }
    rewrite Hs.
    assert (Hpost : post <> [] /\ ends_with "}"%char post = true).
    { rewrite E in Hb. rewrite !ends_with_app in Hb.
      destruct post; [discriminate Hb|]. split; [discriminate|exact Hb]. }
    destruct Hpost as [Hne Hbp].
    destruct (IH (firstn p json_str ++ lit " " ++ post)) as [H1 H2].
    { rewrite !ends_with_app. destruct post; [congruence|exact Hbp]. }
    split; [exact H1|].
    intros x Hx. destruct (H2 x Hx) as [Hsp|Hin]; [left; exact Hsp|].
    apply in_app_or in Hin. destruct Hin as [Hin|Hin].
    + right. apply (@in_firstn_list _ _ _ _ Hin).
    + apply in_app_or in Hin. destruct Hin as [[Hin|[]]|Hin].
      * left. symmetry. exact Hin.
      * right. rewrite E. apply in_or_app. right. apply in_or_app. right.
        exact Hin.
Qed.

(** What is handed to [json::parse] ends with a closing brace and holds no
    NUL when the model output holds none. *)
Lemma clean_braced (model_output json_str : std_string) :
  ~ In "000"%char model_output ->
  json_span model_output = Some json_str ->
  ~ In "000"%char (clean json_str) /\ ends_with "}"%char (clean json_str) = true.
Proof.
  intros Hn Hs. destruct (@json_span_braced _ _ Hs) as [Hb Hin].
  destruct (@ends_with_split _ _ Hb) as [s E].
  unfold clean, replace_nbsp. rewrite E, ExtractFacts.strip_tail_brace, <- E.
  destruct (@replace_nbsp_loop_keeps (length json_str) json_str Hb) as [H1 H2].
  split; [|exact H1].
  intros H0. destruct (H2 _ H0) as [Hsp|Hj]; [discriminate Hsp|].
  apply Hn. apply Hin. exact Hj.
Qed.

Lemma parsed_or_fallback_object
  (model_output json_str : std_string) (fallback j : json) :
  ~ In "000"%char model_output ->
  json_span model_output = Some json_str ->
  is_object fallback = true ->
  catch_parse_error (Json.parse (clean json_str)) (Return fallback) = Return j ->
  is_object j = true.
Proof.
  intros Hn Hs Hf Hc.
  destruct (@clean_braced _ _ Hn Hs) as [Hn' Hb'].
  destruct (Json.parse (clean json_str)) as [v|e] eqn:E.
  - injection Hc as <-. apply (@parse_braced _ _ Hn' Hb' E).
  - destruct e; try discriminate Hc. injection Hc as <-. exact Hf.
Qed.

Lemma parse_cv_metadata_object (model_output : std_string) (j : json) :
  ~ In "000"%char model_output ->
  parse_cv_metadata model_output = Return j -> is_object j = true.
Proof.
  intros Hn H. unfold parse_cv_metadata in H.
  destruct (json_span model_output) as [json_str|] eqn:Es;
    [apply (@parsed_or_fallback_object _ _ cv_fallback _ Hn Es eq_refl H)
    |injection H as <-; reflexivity].
Qed.

Lemma parse_draft_reply_object (model_output : std_string) (j : json) :
  ~ In "000"%char model_output ->
  parse_draft_reply model_output = Return j -> is_object j = true.
Proof.
  intros Hn H. unfold parse_draft_reply in H.
  destruct (json_span model_output) as [json_str|] eqn:Es;
    [apply (@parsed_or_fallback_object _ _ draft_fallback _ Hn Es eq_refl H)
    |injection H as <-; reflexivity].
Qed.

Lemma parse_classification_object (model_output : std_string) (j : json) :
  parse_classification model_output = Return j -> is_object j = true.
Proof.
  intros H. unfold parse_classification, classify in H.
  destruct (json_span model_output) as [json_str|];
    [|injection H as <-; reflexivity].
  destruct (Json.parse (clean json_str)) as [parsed|e];
    [|destruct e; try discriminate H; injection H as <-; reflexivity].
  cbn [bind] in H.
  destruct (value_string parsed (lit "category") default_category) as [c|e];
    [|destruct e; try discriminate H; injection H as <-; reflexivity].
  cbn [bind] in H.
  destruct (value_double parsed (lit "confidence") dec_0_5) as [d|e];
    [|destruct e; try discriminate H; injection H as <-; reflexivity].
  cbn [bind catch_parse_error] in H. injection H as <-. reflexivity.
Qed.

(** On a model output without a NUL byte, as [exec_command] returns it, the
    three extractors return JSON objects only: a payload that parses to an
    array, a string or a number cannot get through, because the span handed
    to the parser always ends with a closing brace.  So the handlers'
    [reply_data["subject"]] and the like never raise. *)
Theorem extractors_return_objects (model_output : std_string) (j : json) :
  ~ In "000"%char model_output ->
  parse_cv_metadata model_output = Return j
  \/ parse_draft_reply model_output = Return j
  \/ parse_classification model_output = Return j ->
  is_object j = true
  /\ forall key, exists v, subscript j key = Return v.
Proof.
  intros Hn H.
  assert (Ho : is_object j = true).
  { destruct H as [H|[H|H]].
    - apply (@parse_cv_metadata_object _ _ Hn H).
    - apply (@parse_draft_reply_object _ _ Hn H).
    - apply (@parse_classification_object _ _ H). }
  split; [exact Ho|]. intros key. destruct j; try discriminate Ho.
  eexists. reflexivity.
Qed.

Lemma extractors_return_objects_witness :
  ~ In "000"%char (lit "```json\n[1, 2]}")
  /\ is_object cv_fallback = true
  /\ forall key, exists v, subscript cv_fallback key = Return v.
Proof.
  assert (Hn : ~ In "000"%char (lit "```json\n[1, 2]}")).
  { apply forallb_not_in. reflexivity. }
  split; [exact Hn|].
  apply (@extractors_return_objects (lit "```json\n[1, 2]}") cv_fallback Hn).
  left. vm_compute. reflexivity.
Defined.

(** *** Non-breaking spaces *)

(** A pair cannot begin at the last byte of a piece when the next byte is
    not A0. *)
Lemma starts_with_nbsp_app (c d : ascii) (piece tail : std_string) :
  starts_with non_breaking_space_utf8 (c :: piece) = false ->
  d <> "160"%char ->
  starts_with non_breaking_space_utf8 (c :: piece ++ d :: tail) = false.
Proof.
  change non_breaking_space_utf8 with ["194"%char; "160"%char].
  cbn [starts_with]. intros H Hd.
  destruct (char_eqb "194"%char c); [|reflexivity]. cbn [andb] in *.
  destruct piece as [|x piece']; cbn [app].
  - destruct (char_eqb "160"%char d) eqn:E; [|reflexivity].
    apply char_eqb_eq in E. exfalso. apply Hd. symmetry. exact E.
  - destruct (char_eqb "160"%char x); [discriminate H|reflexivity].
Qed.

Lemma find_nbsp_cons (c : ascii) (s : std_string) :
  find non_breaking_space_utf8 (c :: s) = None ->
  starts_with non_breaking_space_utf8 (c :: s) = false
  /\ find non_breaking_space_utf8 s = None.
Proof.
  cbn [find]. destruct (starts_with non_breaking_space_utf8 (c :: s));
    [discriminate|].
  destruct (find non_breaking_space_utf8 s); [discriminate|]. auto.
Qed.

(** In front of a piece without the pair, the first pair found is the one
    that follows the piece. *)
Lemma find_nbsp_after (piece rest : std_string) :
  find non_breaking_space_utf8 piece = None ->
  find non_breaking_space_utf8 (piece ++ non_breaking_space_utf8 ++ rest)
  = Some (length piece).
Proof.
  induction piece as [|c piece IH]; intros H; [reflexivity|].
  apply find_nbsp_cons in H as [Hs Hf].
  change ((c :: piece) ++ non_breaking_space_utf8 ++ rest)
    with (c :: piece ++ "194"%char :: "160"%char :: rest).
  cbn [find]. rewrite (@starts_with_nbsp_app c "194"%char piece _ Hs)
    by discriminate.
  change (piece ++ "194"%char :: "160"%char :: rest)
    with (piece ++ non_breaking_space_utf8 ++ rest).
  rewrite (IH Hf). reflexivity.
Qed.

(** Two pieces without the pair, with a plain space between them, hold no
    pair. *)
Lemma find_nbsp_spaced (a b : std_string) :
  find non_breaking_space_utf8 a = None ->
  find non_breaking_space_utf8 b = None ->
  find non_breaking_space_utf8 (a ++ lit " " ++ b) = None.
Proof.
  intros Ha Hb. induction a as [|c a IH].
  - change ([] ++ lit " " ++ b) with (" "%char :: b).
    cbn [find]. rewrite Hb. reflexivity.
  - apply find_nbsp_cons in Ha as [Hs Hf].
    change ((c :: a) ++ lit " " ++ b) with (c :: a ++ " "%char :: b).
    cbn [find]. rewrite (@starts_with_nbsp_app c " "%char a _ Hs)
      by discriminate.
    change (a ++ " "%char :: b) with (a ++ lit " " ++ b).
    rewrite (IH Hf). reflexivity.
Qed.

Lemma replace_nbsp_loop_pieces (pieces : list std_string) :
  forall fuel first,
    length pieces <= fuel ->
    find non_breaking_space_utf8 first = None ->
    Forall (fun piece => find non_breaking_space_utf8 piece = None) pieces ->
    replace_nbsp_loop fuel
      (first ++ flat_map (fun q => non_breaking_space_utf8 ++ q) pieces)
    = first ++ flat_map (fun q => lit " " ++ q) pieces.
Proof.
  induction pieces as [|piece pieces IH]; intros fuel first Hfuel Hfirst Hall.
  - cbn [flat_map]. rewrite app_nil_r.
    destruct fuel as [|fuel]; [reflexivity|].
    cbn [replace_nbsp_loop]. rewrite Hfirst. reflexivity.
  - destruct fuel as [|fuel]; [simpl in Hfuel; lia|].
    inversion Hall as [|? ? Hpiece Hrest]; subst.
    cbn [flat_map].
    set (tail := flat_map (fun q => non_breaking_space_utf8 ++ q) pieces).
    assert (E : first ++ (non_breaking_space_utf8 ++ piece) ++ tail
                = first ++ non_breaking_space_utf8 ++ (piece ++ tail))
      by (rewrite <- app_assoc; reflexivity).
    rewrite E. cbn [replace_nbsp_loop].
    rewrite (@find_nbsp_after first (piece ++ tail) Hfirst).
    rewrite firstn_app, firstn_all, Nat.sub_diag, firstn_O, app_nil_r.
    rewrite skipn_app, skipn_all2 by lia.
    replace (length first + length non_breaking_space_utf8 - length first)
      with 2 by (change (length non_breaking_space_utf8) with 2; lia).
    change (skipn 2 (non_breaking_space_utf8 ++ piece ++ tail))
      with (piece ++ tail).
    cbn [app].
    replace (first ++ lit " " ++ piece ++ tail)
      with ((first ++ lit " " ++ piece) ++ tail)
      by (rewrite <- !app_assoc; reflexivity).
    unfold tail. rewrite IH; [|simpl in Hfuel; lia| |exact Hrest].
    + rewrite <- !app_assoc. reflexivity.
    + apply find_nbsp_spaced; assumption.
Qed.

Lemma replace_nbsp_pieces (pieces : list std_string) :
  Forall (fun piece => find non_breaking_space_utf8 piece = None) pieces ->
  replace_nbsp (join non_breaking_space_utf8 pieces) = join (lit " ") pieces.
Proof.
  intros Hall. unfold replace_nbsp. destruct pieces as [|first pieces].
  - reflexivity.
  - inversion Hall as [|? ? Hfirst Hrest]; subst. cbn [join].
    apply replace_nbsp_loop_pieces; [|exact Hfirst|exact Hrest].
    rewrite length_app.
    assert (H : length pieces
                <= length (flat_map (fun q => non_breaking_space_utf8 ++ q) pieces)).
    { clear. induction pieces as [|p ps IH]; [apply le_n|].
      cbn [flat_map length]. rewrite !length_app.
      change (length non_breaking_space_utf8) with 2. lia. }
    lia.
Qed.

(** A payload in which non-breaking spaces (the bytes C2 A0) stand between
    pieces that hold none reaches the parser with a plain space in the place
    of each of them and nothing else changed, so the extractor answers with
    what the payload written with plain spaces parses to.  Whatever the
    text, no such pair is left after cleaning. *)
Theorem nbsp_is_normalized (model_output : std_string)
  (pieces : list std_string) :
  Forall (fun piece => find non_breaking_space_utf8 piece = None) pieces ->
  json_span model_output = Some (join non_breaking_space_utf8 pieces) ->
  clean (join non_breaking_space_utf8 pieces) = join (lit " ") pieces
  /\ parse_cv_metadata model_output
     = catch_parse_error (Json.parse (join (lit " ") pieces)) (Return cv_fallback)
  /\ forall json_str, find non_breaking_space_utf8 (clean json_str) = None.
Proof.
  intros Hall Hspan.
  assert (Hclean : clean (join non_breaking_space_utf8 pieces)
                   = join (lit " ") pieces).
  { destruct (@json_span_braced _ _ Hspan) as [Hb _].
    destruct (@ends_with_split _ _ Hb) as [front E].
    unfold clean. rewrite E, ExtractFacts.strip_tail_brace, <- E.
    apply replace_nbsp_pieces. exact Hall. }
  split; [exact Hclean|]. split.
  - unfold parse_cv_metadata. rewrite Hspan, Hclean. reflexivity.
  - intros json_str. apply ExtractFacts.replace_nbsp_done.
Qed.

Lemma nbsp_is_normalized_witness :
  let model_output := lit "Here: {'name': 'John\xC2\xA0Doe'} ok" in
  let pieces := [lit "{'name': 'John"; lit "Doe'}"] in
  Forall (fun piece => find non_breaking_space_utf8 piece = None) pieces
  /\ json_span model_output = Some (join non_breaking_space_utf8 pieces)
  /\ clean (join non_breaking_space_utf8 pieces) = join (lit " ") pieces
  /\ parse_cv_metadata model_output
     = catch_parse_error (Json.parse (join (lit " ") pieces)) (Return cv_fallback)
  /\ forall json_str, find non_breaking_space_utf8 (clean json_str) = None.
Proof.
  cbv zeta.
  assert (H1 : Forall (fun piece => find non_breaking_space_utf8 piece = None)
                 [lit "{'name': 'John"; lit "Doe'}"])
    by (repeat constructor).
  assert (H2 : json_span (lit "Here: {'name': 'John\xC2\xA0Doe'} ok")
               = Some (join non_breaking_space_utf8
                         [lit "{'name': 'John"; lit "Doe'}"]))
    by (vm_compute; reflexivity).
  split; [exact H1|]. split; [exact H2|].
  exact (@nbsp_is_normalized _ _ H1 H2).
Defined.

End ExtractionFacts.

(** ** The persona server *)

Module PersonaServerFacts.
Import JsonUse JsonShape Http Persona Generation PersonaServer.
Import JsonUseFacts.







Lemma send_to_api_valid (text : std_string) :
  utf8_valid text = true -> send_to_api text = Some (dump (-1) (api_payload text)).
Proof.
  intros H. unfold send_to_api, dump_checked, api_payload.
  cbn [json_object obj_set strings_valid forallb fst snd].
  rewrite H. reflexivity.
Qed.



Lemma string_at_throws (j : json) (key : std_string) (e : exn) :
  string_at j key = Throw e -> e <> parse_error.
Proof.
  unfold string_at, subscript, get_string. intros H.
  destruct j; cbn [bind] in H; try (injection H as <-; discriminate).
  destruct (obj_find key m) as [[]|]; try discriminate H;
    injection H as <-; discriminate.
Qed.

Lemma samples_text_of_throws (samples : list json) :
  forall samples_text e,
    samples_text_of samples samples_text = Throw e -> e <> parse_error.
Proof.
  induction samples as [|sample rest IH]; intros samples_text e H; [discriminate H|].
  cbn [samples_text_of] in H.
  destruct sample; cbn [get_string bind] in H;
    try (injection H as <-; discriminate).
  apply (IH _ _ H).
Qed.

Ltac step_string_at H :=
  match type of H with
  | context [string_at ?j ?k] =>
      let E := fresh "E" in
      destruct (string_at j k) eqn:E; cbn [bind] in H;
      [|injection H as <-; apply (@string_at_throws _ _ _ E)]
  end.

Lemma create_persona_prompt_throws (input_json : json) (e : exn) :
  create_persona_prompt input_json = Throw e -> e <> parse_error.
Proof.
  unfold create_persona_prompt. intros H.
  do 4 step_string_at H.
  destruct (contains input_json (lit "samples")); [|discriminate H].
  unfold subscript in H.
  destruct input_json; cbn [bind] in H; try (injection H as <-; discriminate).
  - discriminate H.
  - destruct (is_array match obj_find (lit "samples") m with
                       | Some v => v
                       | None => null
                       end); [|discriminate H].
    destruct (samples_text_of _ []) eqn:Es; [discriminate H|].
    cbn [bind] in H. injection H as <-. apply (@samples_text_of_throws _ _ _ Es).
Qed.

Lemma create_fallback_persona_throws (input_json : json) (e : exn) :
  create_fallback_persona input_json = Throw e -> e <> parse_error.
Proof.
  unfold create_fallback_persona. intros H.
  do 4 step_string_at H. discriminate H.
Qed.

Lemma generate_throws (L : llama) (n_ctx : Z) (h : list event)
  (prompt : std_string) (max_tokens : Z) (e : exn) (evs : list event) :
  generate L n_ctx h prompt max_tokens = (Throw e, evs) -> e <> parse_error.
Proof.
  unfold generate, tokenize_prompt, decode_prompt. intros H.
  destruct (llama_tokenize L _ prompt _) as [n_tokens buffer].
  destruct (n_tokens <? 0)%Z; [injection H as <- _; discriminate|].
  destruct (ctx_params_n_ctx n_ctx <=? _)%Z; [injection H as <- _; discriminate|].
  destruct (llama_decode L _ _ =? 0)%Z.
  - destruct (generate_tokens L _ _ max_tokens). discriminate H.
  - injection H as <- _; discriminate.
Qed.

Lemma persona_request_throws (L : llama) (n_ctx : Z) (h : list event)
  (input_json : json) (e : exn) (evs : list event) :
  persona_request L n_ctx h input_json = (Throw e, evs) -> e <> parse_error.
Proof.
  unfold persona_request. intros H.
  destruct (string_at input_json (lit "user_id")) as [user_id|e1] eqn:E1;
    cbn [bind] in H;
    [|injection H as <- _; apply (@string_at_throws _ _ _ E1)].
  destruct (string_at input_json (lit "name")) as [name|e1] eqn:E2;
    cbn [bind] in H;
    [|injection H as <- _; apply (@string_at_throws _ _ _ E2)].
  destruct (create_persona_prompt input_json) as [prompt|e1] eqn:E3;
    cbn [bind] in H;
    [|injection H as <- _; apply (@create_persona_prompt_throws _ _ E3)].
  destruct (generate L n_ctx h prompt 256) as [[g|e1] evs'] eqn:E4;
    [|injection H as <- _; apply (@generate_throws _ _ _ _ _ _ _ E4)].
  destruct (uses_fallback (extract_persona_line (text g) name)); [|discriminate H].
  destruct (create_fallback_persona input_json) as [p|e1] eqn:E5; [discriminate H|].
  injection H as <- _. apply (@create_fallback_persona_throws _ _ E5).
Qed.

Lemma caught_bad_request (e : exn) :
  status (caught e) = Some 400%Z -> e = parse_error.
Proof. destruct e; try discriminate. reflexivity. Qed.

(** The model is run, and the profile API called, only for a body that is
    JSON with all six required fields; a request answered 400 has reached
    neither. *)
Theorem persona_handler_validates (L : llama) (n_ctx : Z) (h : list event)
  (req_body : std_string) :
  let r := persona_handler L n_ctx h req_body in
  (status (reply r) = Some 400%Z -> llama_calls r = [] /\ posted r = None)
  /\ (llama_calls r <> [] \/ posted r <> None ->
      exists input_json,
        Json.parse req_body = Return input_json
        /\ forall field, In field required_fields ->
                         contains input_json field = true).
Proof.
  cbv zeta. unfold persona_handler.
  destruct (Json.parse req_body) as [j|e]; cbn [bind];
    [|split; [intros _; split; reflexivity|intros [H|H]; destruct H; reflexivity]].
  destruct (dump_checked 2 j) as [logged|e]; cbn [bind];
    [|split; [intros _; split; reflexivity|intros [H|H]; destruct H; reflexivity]].
  destruct (List.find (fun field => negb (contains j field)) required_fields)
    as [field|] eqn:Efind.
  { destruct (dump_checked (-1) (missing_field_output field));
      (split; [intros _; split; reflexivity
              |intros [H|H]; destruct H; reflexivity]). }
  assert (Hall : exists input_json,
             Return j = Return input_json
             /\ forall field, In field required_fields ->
                              contains input_json field = true).
  { exists j. split; [reflexivity|]. intros field Hin.
    pose proof (find_none _ _ Efind field Hin) as Hf.
    apply negb_false_iff in Hf. exact Hf. }
  split; [|intros _; exact Hall].
  destruct (persona_request L n_ctx h j) as [[[user_id persona_string]|e] evs] eqn:Er.
  - destruct (dump_checked (-1) (persona_output user_id persona_string))
      as [s|e] eqn:Ed; [discriminate|].
    unfold dump_checked in Ed.
    destruct (strings_valid (persona_output user_id persona_string));
      [discriminate Ed|].
    injection Ed as <-. discriminate.
  - intros H. apply caught_bad_request in H.
    destruct (@persona_request_throws _ _ _ _ _ _ Er H).
Qed.

Lemma fallback_persona_valid (name position department language : std_string) :
  utf8_valid name = true -> utf8_valid position = true ->
  utf8_valid department = true -> utf8_valid language = true ->
  utf8_valid (fallback_persona name position department language) = true.
Proof.
  intros Hn Hp Hd Hl. unfold fallback_persona.
  repeat (apply utf8_valid_concat; [assumption || reflexivity|]).
  reflexivity.
Qed.

Lemma persona_output_strings (user_id persona_string : std_string) :
  utf8_valid user_id = true -> utf8_valid persona_string = true ->
  strings_valid (persona_output user_id persona_string) = true.
Proof.
  intros Hu Hp. unfold persona_output. cbn [strings_valid].
  apply json_object_valid. unfold entries_valid.
  cbn [forallb fst snd strings_valid]. rewrite Hu, Hp. reflexivity.
Qed.

(** When the model's output holds no line [extract_persona_line] accepts,
    a request with its six fields is still answered: the reply and the post
    to the profile API carry the fallback persona, built from the name,
    position, department and language of the request. *)
Theorem persona_fallback_reply (L : llama) (n_ctx : Z) (h : list event)
  (req_body : std_string) (input_json : json)
  (user_id name position department language prompt : std_string)
  (g : generation) (evs : list event) :
  Json.parse req_body = Return input_json ->
  (forall field, In field required_fields -> contains input_json field = true) ->
  string_at input_json (lit "user_id") = Return user_id ->
  string_at input_json (lit "name") = Return name ->
  string_at input_json (lit "position") = Return position ->
  string_at input_json (lit "department") = Return department ->
  string_at input_json (lit "language") = Return language ->
  create_persona_prompt input_json = Return prompt ->
  generate L n_ctx h prompt 256 = (Return g, evs) ->
  extract_persona_line (text g) name = [] ->
  let persona_string := fallback_persona name position department language in
  persona_handler L n_ctx h req_body
  = Handled (Resp None (body_text (dump (-1) (persona_output user_id persona_string))))
      evs (Some (dump (-1) (api_payload persona_string))).
Proof.
  intros Hp Hall Hid Hname Hpos Hdep Hlang Hprompt Hgen Hext. cbv zeta.
  pose proof (@parse_valid _ _ Hp) as Hj.
  assert (Hv : utf8_valid (fallback_persona name position department language) = true).
  { apply fallback_persona_valid;
      eapply string_at_valid; eauto. }
  unfold persona_handler. rewrite Hp. cbn [bind].
  rewrite (@dump_checked_valid 2 _ Hj). cbn [bind].
  destruct (List.find (fun field => negb (contains input_json field)) required_fields)
    as [field|] eqn:Efind.
  { apply find_some in Efind. destruct Efind as [Hin Hf].
    rewrite (Hall field Hin) in Hf. discriminate Hf. }
  unfold persona_request. rewrite Hid, Hname, Hprompt. cbn [bind].
  rewrite Hgen, Hext. cbn [uses_fallback orb].
  unfold create_fallback_persona. rewrite Hname, Hpos, Hdep, Hlang. cbn [bind].
  rewrite (@send_to_api_valid _ Hv).
  rewrite dump_checked_valid; [reflexivity|].
  apply persona_output_strings; [|exact Hv].
  apply (@string_at_valid _ _ _ Hj Hid).
Qed.


Lemma persona_fallback_reply_witness :
  extract_persona_line (lit "no idea") (lit "Ann Lee") = []
  /\ persona_handler (Samples.reciting (lit "no idea")) 2048 [] Samples.persona_body
     = Handled
         (Resp None
            (body_text
               (dump (-1)
                  (persona_output (lit "u7")
                     (fallback_persona (lit "Ann Lee") (lit "Engineer") (lit "R&D")
                        (lit "English"))))))
         (snd (generate (Samples.reciting (lit "no idea")) 2048 []
                 (match create_persona_prompt (Samples.parsed Samples.persona_body) with
                  | Return prompt => prompt
                  | Throw _ => []
                  end) 256))
         (Some (dump (-1)
                  (api_payload
                     (fallback_persona (lit "Ann Lee") (lit "Engineer") (lit "R&D")
                        (lit "English"))))).
Proof.
  split; [vm_compute; reflexivity|].
  apply (@persona_fallback_reply (Samples.reciting (lit "no idea")) 2048 []
           Samples.persona_body (Samples.parsed Samples.persona_body)
           (lit "u7") (lit "Ann Lee") (lit "Engineer") (lit "R&D") (lit "English")
           (match create_persona_prompt (Samples.parsed Samples.persona_body) with
            | Return prompt => prompt
            | Throw _ => []
            end)
           (Gen (lit "no idea") 7 EndOfSequence));
    try (vm_compute; reflexivity).
  intros field Hin. vm_compute in Hin.
  repeat (destruct Hin as [<-|Hin]; [vm_compute; reflexivity|]).
  destruct Hin.
Defined.

End PersonaServerFacts.

(** ** The inbox server *)

Module InboxFacts.
Import JsonUse JsonShape Http Cli Extract InboxServer.
Import JsonUseFacts.

(** *** The command line *)

Lemma given_by_later (flag : std_string) (skipped args : list std_string)
  (default_value value : std_string) :
  given_by flag args default_value value ->
  given_by flag (skipped ++ args) default_value value.
Proof.
  intros [H|[before [rest ->]]]; [left; exact H|right].
  exists (skipped ++ before), rest. rewrite <- app_assoc. reflexivity.
Qed.

Lemma given_by_here (flag : std_string) (args : list std_string)
  (default_value value' value : std_string) :
  given_by flag args value' value ->
  given_by flag (flag :: value' :: args) default_value value.
Proof.
  intros [->|H].
  - right. exists [], args. reflexivity.
  - apply (@given_by_later flag [flag; value'] args default_value value).
    destruct H as [before [rest ->]]. right. exists before, rest. reflexivity.
Qed.

Lemma parse_arguments_given (n : nat) :
  forall args cfg, length args <= n ->
    let cfg' := parse_arguments args cfg in
    given_by (lit "--main-model-path") args (main_model_path cfg) (main_model_path cfg')
    /\ given_by (lit "--mmproj-path") args (mmproj_path cfg) (mmproj_path cfg')
    /\ given_by (lit "--cli-path") args (llama_cli_path cfg) (llama_cli_path cfg').
Proof.
  induction n as [|n IH]; intros args cfg Hn; cbv zeta.
  - destruct args; [|simpl in Hn; lia]. repeat split; left; reflexivity.
  - destruct args as [|arg [|value rest']]; try (repeat split; left; reflexivity).
    cbn [parse_arguments]. simpl in Hn.
    destruct (Str.eqb arg (lit "--main-model-path")) eqn:E1.
    { apply ExtractFacts.str_eqb_eq in E1. subst arg.
      destruct (IH rest' {| llama_cli_path := llama_cli_path cfg;
                            main_model_path := value;
                            mmproj_path := mmproj_path cfg |}) as [H1 [H2 H3]]; [lia|].
      cbv zeta in *. cbn [main_model_path mmproj_path llama_cli_path] in *.
      split; [apply given_by_here; exact H1|].
      split; [apply (@given_by_later _ [_; _]); exact H2
             |apply (@given_by_later _ [_; _]); exact H3]. }
    destruct (Str.eqb arg (lit "--mmproj-path")) eqn:E2.
    { apply ExtractFacts.str_eqb_eq in E2. subst arg.
      destruct (IH rest' {| llama_cli_path := llama_cli_path cfg;
                            main_model_path := main_model_path cfg;
                            mmproj_path := value |}) as [H1 [H2 H3]]; [lia|].
      cbv zeta in *. cbn [main_model_path mmproj_path llama_cli_path] in *.
      split; [apply (@given_by_later _ [_; _]); exact H1|].
      split; [apply given_by_here; exact H2
             |apply (@given_by_later _ [_; _]); exact H3]. }
    destruct (Str.eqb arg (lit "--cli-path")) eqn:E3.
    { apply ExtractFacts.str_eqb_eq in E3. subst arg.
      destruct (IH rest' {| llama_cli_path := value;
                            main_model_path := main_model_path cfg;
                            mmproj_path := mmproj_path cfg |}) as [H1 [H2 H3]]; [lia|].
      cbv zeta in *. cbn [main_model_path mmproj_path llama_cli_path] in *.
      split; [apply (@given_by_later _ [_; _]); exact H1|].
      split; [apply (@given_by_later _ [_; _]); exact H2
             |apply given_by_here; exact H3]. }
    destruct (IH (value :: rest') cfg) as [H1 [H2 H3]]; [simpl; lia|].
    cbv zeta in *.
    split; [apply (@given_by_later _ [_]); exact H1|].
    split; [apply (@given_by_later _ [_]); exact H2
           |apply (@given_by_later _ [_]); exact H3].
Qed.

Lemma given_by_absent (flag : std_string) (args : list std_string)
  (default_value value : std_string) :
  ~ In flag args -> given_by flag args default_value value -> value = default_value.
Proof.
  intros Hn [H|[before [rest E]]]; [exact H|].
  exfalso. apply Hn. rewrite E. apply in_or_app. right. left. reflexivity.
Qed.

(** Each of the three paths [main] ends up with is its default or an
    argument that stands right after its own flag on the command line; a
    path whose flag does not occur among the arguments keeps its default,
    whatever else is passed. *)
Theorem parse_arguments_sound (args : list std_string) (cfg : config) :
  let cfg' := parse_arguments args cfg in
  (given_by (lit "--main-model-path") args (main_model_path cfg) (main_model_path cfg')
   /\ given_by (lit "--mmproj-path") args (mmproj_path cfg) (mmproj_path cfg')
   /\ given_by (lit "--cli-path") args (llama_cli_path cfg) (llama_cli_path cfg'))
  /\ (~ In (lit "--main-model-path") args ->
      main_model_path cfg' = main_model_path cfg)
  /\ (~ In (lit "--mmproj-path") args -> mmproj_path cfg' = mmproj_path cfg)
  /\ (~ In (lit "--cli-path") args -> llama_cli_path cfg' = llama_cli_path cfg).
Proof.
  cbv zeta.
  destruct (@parse_arguments_given (length args) args cfg (le_n _)) as [H1 [H2 H3]].
  cbv zeta in *. split; [auto|].
  split; [intros Hn; apply (given_by_absent Hn H1)|].
  split; [intros Hn; apply (given_by_absent Hn H2)
         |intros Hn; apply (given_by_absent Hn H3)].
Qed.

(** *** Temporary images *)

Lemma find_last_of_free (set s : std_string) :
  match find_last_of set s with
  | Some i => free_of set (skipn (S i) s) = true
  | None => free_of set s = true
  end.
Proof.
  induction s as [|x s IH]; [reflexivity|].
  cbn [find_last_of]. destruct (find_last_of set s) as [i|].
  - exact IH.
  - destruct (mem x set) eqn:E.
    + exact IH.
    + unfold free_of in *. cbn [forallb]. rewrite E, IH. reflexivity.
Qed.

Lemma free_of_firstn (set s : std_string) (n : nat) :
  free_of set s = true -> free_of set (firstn n s) = true.
Proof.
  unfold free_of. revert n; induction s as [|x s IH]; intros [|n] H;
    try reflexivity.
  cbn [firstn forallb] in *. apply andb_true_iff in H. destruct H as [H1 H2].
  rewrite H1, (IH n H2). reflexivity.
Qed.

(** Whatever the path, its base name holds no separator. *)
Lemma base_name_free (pdf_path : std_string) :
  free_of separators (base_name_of pdf_path) = true.
Proof.
  unfold base_name_of.
  assert (H : free_of separators
                (skipn match find_last_of (lit "/\\") pdf_path with
                       | Some i => i + 1
                       | None => 0
                       end pdf_path) = true).
  { pose proof (find_last_of_free separators pdf_path) as F.
    change (lit "/\\") with separators.
    destruct (find_last_of separators pdf_path) as [i|].
    - rewrite Nat.add_1_r. exact F.
    - exact F. }
  destruct (find_last_of (lit ".") _); [apply free_of_firstn|]; exact H.
Qed.

Lemma pdf_to_image_in_dir (status : pdf_status) (pdf_path path : std_string) :
  pdf_to_image status pdf_path (lit "../uploads/temp") = Return path ->
  in_temp_dir path.
Proof.
  unfold pdf_to_image. intros H.
  destruct status; try discriminate H. injection H as <-.
  exists (base_name_of pdf_path). split; [reflexivity|apply base_name_free].
Qed.

Lemma flat_map_keep (A B : Type) (f : B -> list A) (g : A -> B) (l : list A) :
  (forall x, f (g x) = [x]) -> flat_map f (map g l) = l.
Proof.
  intros H. induction l as [|x l IH]; [reflexivity|].
  cbn [map flat_map]. rewrite H, IH. reflexivity.
Qed.

Lemma flat_map_drop (A B C : Type) (f : B -> list C) (g : A -> B) (l : list A) :
  (forall x, f (g x) = []) -> flat_map f (map g l) = [].
Proof.
  intros H. induction l as [|x l IH]; [reflexivity|].
  cbn [map flat_map]. rewrite H, IH. reflexivity.
Qed.

Lemma images_written_app (a b : list os_event) :
  images_written (a ++ b) = images_written a ++ images_written b.
Proof. apply flat_map_app. Qed.

(** An attachment loop runs no command and removes nothing. *)
Lemma conversions_only (evs : list os_event) :
  Forall conversion evs ->
  commands_run evs = [] /\ files_removed evs = []
  /\ Forall in_temp_dir (images_written evs)
  /\ Forall (fun dir => dir = lit "../uploads/temp") (dirs_made evs).
Proof.
  induction 1 as [|e evs He _ IH].
  - repeat split; constructor.
  - destruct IH as [Hc [Hr [Hi Hd]]].
    destruct He as [[->|[path [-> Hp]]]|[path [-> Hp]]];
      cbn [commands_run files_removed images_written dirs_made flat_map app];
      fold (commands_run evs); fold (files_removed evs);
      fold (images_written evs); fold (dirs_made evs);
      repeat split; try assumption; constructor; auto.
Qed.

(** Without an image saved, an attachment loop has only called [mkdir] and
    [save]s that reported failure. *)
Lemma conversions_without_image (evs : list os_event) :
  Forall conversion evs -> images_written evs = [] ->
  Forall failed_conversion evs.
Proof.
  induction 1 as [|e evs He _ IH]; intros Hi; [constructor|].
  destruct He as [Hf|[path [-> _]]]; [|discriminate Hi].
  constructor; [exact Hf|]. apply IH.
  destruct Hf as [->|[path [-> _]]]; exact Hi.
Qed.

Lemma save_image_calls (W : world) (k : nat) (pdf_path : std_string) :
  let r := save_image W k pdf_path (lit "../uploads/temp") in
  Forall conversion (snd r)
  /\ images_written (snd r)
     = match fst r with Return path => [path] | Throw _ => [] end.
Proof.
  cbv zeta. unfold save_image.
  destruct (pdf_to_image (pdf_result W k pdf_path) pdf_path (lit "../uploads/temp"))
    as [path|e] eqn:E; cbn [fst snd].
  - split; [|reflexivity]. constructor; [|constructor].
    right. exists path. split; [reflexivity|].
    apply (@pdf_to_image_in_dir _ _ _ E).
  - destruct (pdf_result W k pdf_path); (split; [|reflexivity]);
      try (constructor; fail).
    constructor; [|constructor]. left. right. eexists. split; [reflexivity|].
    exists (base_name_of pdf_path). split; [reflexivity|apply base_name_free].
Qed.

Lemma convert_calls (W : world) (k : nat) (filename : std_string) :
  let r := convert W k filename in
  Forall conversion (snd r)
  /\ images_written (snd r)
     = match fst r with Return path => [path] | Throw _ => [] end.
Proof.
  cbv zeta. unfold convert.
  pose proof (save_image_calls W k (lit "../uploads/" ++ filename)) as H.
  cbv zeta in H.
  destruct (temp_dir_found W k); [exact H|].
  destruct (mkdir_done W k).
  - destruct (save_image W k (lit "../uploads/" ++ filename) (lit "../uploads/temp"))
      as [r saved].
    cbn [fst snd] in *. destruct H as [H1 H2].
    split; [constructor; [left; left; reflexivity|exact H1]|exact H2].
  - cbn [fst snd]. split; [|reflexivity].
    constructor; [left; left; reflexivity|constructor].
Qed.

Lemma add_attachment_converted (W : world) (k : nat) (filename : std_string)
  (image_paths : list std_string) (evs : list os_event) :
  converted image_paths evs ->
  converted (fst (add_attachment W k filename image_paths evs))
            (snd (add_attachment W k filename image_paths evs)).
Proof.
  intros [Hi Hc]. unfold add_attachment.
  destruct (is_pdf_file filename); [|split; assumption].
  destruct (convert_calls W k filename) as [H1 H2]. cbv zeta in H1, H2.
  destruct (convert W k filename) as [[path|e] calls]; cbn [fst snd] in *.
  - split; [rewrite images_written_app, Hi, H2; reflexivity|].
    apply Forall_app. split; assumption.
  - split; [rewrite images_written_app, Hi, H2; apply app_nil_r|].
    apply Forall_app. split; assumption.
Qed.

Lemma detect_attachments_converted (W : world) (attachments : list json) :
  forall k image_paths evs,
    converted image_paths evs ->
    converted (fst (fst (detect_attachments W k attachments image_paths evs)))
              (snd (fst (detect_attachments W k attachments image_paths evs))).
Proof.
  induction attachments as [|a rest IH]; intros k image_paths evs H; [exact H|].
  cbn [detect_attachments]. destruct (get_string a) as [filename|e]; [|exact H].
  pose proof (@add_attachment_converted W k filename _ _ H) as Ha.
  destruct (add_attachment W k filename image_paths evs) as [image_paths' evs'].
  apply IH. exact Ha.
Qed.

Lemma named_attachments_converted (W : world) (attachments : list json) :
  forall k image_paths evs,
    converted image_paths evs ->
    converted (fst (fst (named_attachments W k attachments image_paths evs)))
              (snd (fst (named_attachments W k attachments image_paths evs))).
Proof.
  induction attachments as [|a rest IH]; intros k image_paths evs H; [exact H|].
  cbn [named_attachments]. destruct (contains a (lit "filename")); [|apply IH; exact H].
  destruct (string_at a (lit "filename")) as [filename|e]; [|exact H].
  pose proof (@add_attachment_converted W k filename _ _ H) as Ha.
  destruct (add_attachment W k filename image_paths evs) as [image_paths' evs'].
  apply IH. exact Ha.
Qed.

Lemma converted_nil : converted [] [].
Proof. split; [reflexivity|constructor]. Qed.

Lemma optional_attachments_converted (W : world) (input_json : json) :
  converted (fst (fst (optional_attachments W input_json)))
            (snd (fst (optional_attachments W input_json))).
Proof.
  unfold optional_attachments.
  destruct (contains input_json (lit "attachments")); [|apply converted_nil].
  destruct (subscript input_json (lit "attachments")) as [a|e];
    [|apply converted_nil].
  destruct (is_array a); [|apply converted_nil].
  apply named_attachments_converted. apply converted_nil.
Qed.

Lemma converted_in_dir (image_paths : list std_string) (evs : list os_event) :
  converted image_paths evs -> Forall in_temp_dir image_paths.
Proof.
  intros [<- Hc]. apply (conversions_only Hc).
Qed.

Lemma cleanup_in_dir (image_paths : list std_string) :
  Forall in_temp_dir image_paths ->
  cleanup_temp_images image_paths = map os_remove (map c_str image_paths).
Proof.
  unfold cleanup_temp_images. intros H. rewrite map_map.
  induction H as [|path l [base [-> _]] _ IH]; [reflexivity|].
  cbn [filter]. change (lit "../uploads/temp/" ++ base ++ lit "_page1.png")
    with ("."%char :: skipn 1 (lit "../uploads/temp/") ++ base ++ lit "_page1.png").
  cbv iota. cbn [map]. rewrite IH. reflexivity.
Qed.




Lemma finish_done (output_json : json) (image_paths : list std_string)
  (evs : list os_event) :
  strings_valid output_json = true -> Forall in_temp_dir image_paths ->
  finish (Return output_json) image_paths evs
  = (Resp None (body_text (dump 2 output_json)),
     evs ++ map os_remove (map c_str image_paths)).
Proof.
  intros Hv Hd. unfold finish. cbn [bind].
  rewrite (@dump_checked_valid 2 _ Hv), (@cleanup_in_dir _ Hd). reflexivity.
Qed.

Lemma internal_error_done (e : exn) (image_paths : list std_string)
  (evs : list os_event) :
  Forall in_temp_dir image_paths ->
  internal_error e image_paths evs
  = (Resp (Some 500%Z) (body_from e),
     evs ++ map os_remove (map c_str image_paths)).
Proof. intros Hd. unfold internal_error. rewrite (@cleanup_in_dir _ Hd). reflexivity. Qed.

Lemma parse_cv_metadata_valid (model_output : std_string) (metadata : json) :
  parse_cv_metadata model_output = Return metadata -> strings_valid metadata = true.
Proof.
  unfold parse_cv_metadata. intros H.
  destruct (json_span model_output) as [json_str|];
    [|injection H as <-; reflexivity].
  destruct (Json.parse (clean json_str)) as [j|e] eqn:E.
  - injection H as <-. apply (@parse_valid _ _ E).
  - destruct e; try discriminate H. injection H as <-. reflexivity.
Qed.

Lemma parse_draft_reply_valid (model_output : std_string) (reply_data : json) :
  parse_draft_reply model_output = Return reply_data ->
  strings_valid reply_data = true.
Proof.
  unfold parse_draft_reply. intros H.
  destruct (json_span model_output) as [json_str|];
    [|injection H as <-; reflexivity].
  destruct (Json.parse (clean json_str)) as [j|e] eqn:E.
  - injection H as <-. apply (@parse_valid _ _ E).
  - destruct e; try discriminate H. injection H as <-. reflexivity.
Qed.

(** What [parse_classification] returns is always a record of one of the
    four categories and a confidence between 0.0 and 1.0. *)
Lemma parse_classification_returns (model_output : std_string) (data : json) :
  parse_classification model_output = Return data ->
  exists category confidence,
    data = classification category confidence
    /\ In category valid_categories
    /\ dec_leb dec_0_0 confidence = true /\ dec_leb confidence dec_1_0 = true.
Proof.
  assert (Hf : exists category confidence,
             classification_fallback = classification category confidence
             /\ In category valid_categories
             /\ dec_leb dec_0_0 confidence = true
             /\ dec_leb confidence dec_1_0 = true).
  { exists default_category, dec_0_5. split; [reflexivity|].
    split; [right; right; left; reflexivity|split; reflexivity]. }
  unfold parse_classification. intros H.
  destruct (json_span model_output) as [json_str|];
    [|injection H as <-; exact Hf].
  unfold classify in H.
  destruct (Json.parse (clean json_str)) as [parsed|e];
    [|destruct e; try discriminate H; injection H as <-; exact Hf].
  cbn [bind] in H.
  destruct (value_string parsed (lit "category") default_category) as [category|e];
    [|destruct e; try discriminate H; injection H as <-; exact Hf].
  cbn [bind] in H.
  destruct (value_double parsed (lit "confidence") dec_0_5) as [confidence|e];
    [|destruct e; try discriminate H; injection H as <-; exact Hf].
  cbn [bind catch_parse_error] in H. injection H as <-.
  exists (validate_category category), (clamp confidence).
  split; [reflexivity|]. split; [apply ExtractFacts.validate_category_valid|].
  apply ExtractFacts.clamp_bounds.
Qed.

Lemma valid_categories_utf8 (category : std_string) :
  In category valid_categories -> utf8_valid category = true.
Proof.
  intros [<-|[<-|[<-|[<-|[]]]]]; reflexivity.
Qed.

Lemma detect_cv_output_valid (email_id : std_string) (cv_detected : bool)
  (metadata : json) :
  utf8_valid email_id = true -> strings_valid metadata = true ->
  strings_valid (detect_cv_output email_id cv_detected metadata) = true.
Proof.
  intros He Hm. unfold detect_cv_output. cbn [strings_valid].
  apply obj_set_valid; [reflexivity|exact Hm|].
  apply json_object_valid. unfold entries_valid.
  cbn [forallb fst snd strings_valid]. rewrite He. reflexivity.
Qed.

(** Closes the conjuncts of one way a handler can end. *)
Ltac end_case :=
  repeat match goal with
    | |- _ /\ _ => split
    | |- _ <-> _ => split
    end;
  try (intros H; discriminate H);
  try (intros [j' [Hp' Hc']]; try discriminate Hp';
       injection Hp' as <-; repeat (destruct Hc' as [Hc'|Hc']); congruence);
  try reflexivity;
  try (constructor; fail);
  try apply converted_nil;
  auto.

(** Every way [/ai/inbox/detect-cv] can end. *)
Lemma detect_cv_full (cfg : config) (W : world) (req_body : std_string) :
  let r := detect_cv cfg W req_body in
  exists conversions image_paths cmds,
    snd r = conversions ++ map os_exec cmds
            ++ map os_remove (map c_str image_paths)
    /\ converted image_paths conversions
    /\ (cmds = [] \/ cmds = [cv_command cfg image_paths])
    /\ (status (fst r) = None ->
        exists input_json email_id metadata,
          Json.parse req_body = Return input_json
          /\ string_at input_json (lit "email_id") = Return email_id
          /\ body (fst r)
             = body_text (dump 2 (detect_cv_output email_id
                                    (match image_paths with [] => false | _ => true end)
                                    metadata))
          /\ match image_paths with
             | [] => cmds = [] /\ metadata = object []
             | _ => cmds = [cv_command cfg image_paths]
                    /\ exists model_output,
                         process_cv_with_vision cfg W image_paths = Return model_output
                         /\ parse_cv_metadata model_output = Return metadata
             end)
    /\ (status (fst r) = Some 400%Z <->
        exists input_json,
          Json.parse req_body = Return input_json
          /\ contains input_json (lit "attachments") = false)
    /\ (status (fst r) = Some 400%Z ->
        conversions = [] /\ cmds = []
        /\ body (fst r)
           = body_text (lit "{'error':'Missing required fields: attachments'}"))
    /\ (status (fst r) = None \/ status (fst r) = Some 400%Z
        \/ status (fst r) = Some 500%Z).
Proof.
  cbv zeta. unfold detect_cv.
  destruct (Json.parse req_body) as [j|e] eqn:Ep.
  2:{ exists [], [], []. rewrite internal_error_done by constructor.
      cbn [fst snd Http.status Http.body map app]. end_case. }
  pose proof (@parse_valid _ _ Ep) as Hj.
  destruct (contains j (lit "attachments")) eqn:Ec; cbn [negb].
  2:{ exists [], [], []. unfold bad_request.
      cbn [fst snd Http.status Http.body map app]. end_case.
      intros _. exists j. split; [reflexivity|exact Ec]. }
  destruct (string_at j (lit "email_id")) as [email_id|e] eqn:Eid; cbn [bind].
  2:{ exists [], [], []. rewrite internal_error_done by constructor.
      cbn [fst snd Http.status Http.body map app]. end_case. }
  destruct (subscript j (lit "attachments")) as [attachments|e] eqn:Eatt; cbn [bind].
  2:{ exists [], [], []. rewrite internal_error_done by constructor.
      cbn [fst snd Http.status Http.body map app]. end_case. }
  pose proof (@detect_attachments_converted W (elements attachments) 0 [] []
                converted_nil) as Hok.
  destruct (detect_attachments W 0 (elements attachments) [] [])
    as [[image_paths evs] failure].
  cbn [fst snd] in Hok. pose proof (converted_in_dir Hok) as Hd.
  exists evs, image_paths.
  destruct failure as [e|].
  { exists []. rewrite (@internal_error_done e _ _ Hd).
    cbn [fst snd Http.status Http.body map app]. end_case. }
  pose proof (@string_at_valid _ _ _ Hj Eid) as Hid.
  destruct image_paths as [|path rest].
  { exists []. rewrite finish_done;
      [|apply detect_cv_output_valid; [exact Hid|reflexivity]|constructor].
    cbn [fst snd Http.status Http.body map app]. end_case.
    intros _. exists j, email_id, (object []). end_case. }
  exists [cv_command cfg (path :: rest)].
  destruct (process_cv_with_vision cfg W (path :: rest)) as [model_output|e] eqn:Ev;
    cbn [bind].
  2:{ rewrite (@internal_error_done e _ _ Hd).
      rewrite <- app_assoc. cbn [fst snd Http.status Http.body]. end_case. }
  destruct (parse_cv_metadata model_output) as [metadata|e] eqn:Em.
  2:{ rewrite (@internal_error_done e _ _ Hd).
      rewrite <- app_assoc. cbn [fst snd Http.status Http.body]. end_case. }
  rewrite finish_done;
    [|apply detect_cv_output_valid;
      [exact Hid|apply (@parse_cv_metadata_valid _ _ Em)]|exact Hd].
  rewrite <- app_assoc. cbn [fst snd Http.status Http.body]. end_case.
  intros _. exists j, email_id, metadata. end_case.
  exists model_output. end_case.
Qed.

Lemma classify_output_valid (email_id category : std_string) (confidence : decimal) :
  utf8_valid email_id = true -> In category valid_categories ->
  strings_valid (classify_output email_id (string_ category) (number_float confidence))
  = true.
Proof.
  intros He Hc. unfold classify_output. cbn [strings_valid].
  apply json_object_valid. unfold entries_valid.
  cbn [forallb fst snd strings_valid].
  rewrite He, (@valid_categories_utf8 _ Hc). reflexivity.
Qed.

(** Every way [/ai/inbox/classify] can end. *)
Lemma classify_email_full (cfg : config) (W : world) (req_body : std_string) :
  let r := classify_email cfg W req_body in
  exists conversions image_paths cmds,
    snd r = conversions ++ map os_exec cmds
            ++ map os_remove (map c_str image_paths)
    /\ converted image_paths conversions
    /\ (cmds = []
        \/ exists subject body,
             cmds = [classification_command cfg image_paths subject body])
    /\ (status (fst r) = None ->
        exists input_json email_id subject body model_output category confidence,
          Json.parse req_body = Return input_json
          /\ string_at input_json (lit "email_id") = Return email_id
          /\ string_at input_json (lit "subject") = Return subject
          /\ string_at input_json (lit "body") = Return body
          /\ cmds = [classification_command cfg image_paths subject body]
          /\ process_classification_with_vision cfg W image_paths subject body
             = Return model_output
          /\ parse_classification model_output
             = Return (classification category confidence)
          /\ In category valid_categories
          /\ dec_leb dec_0_0 confidence = true
          /\ dec_leb confidence dec_1_0 = true
          /\ Http.body (fst r)
             = body_text (dump 2 (classify_output email_id (string_ category)
                                    (number_float confidence))))
    /\ (status (fst r) = Some 400%Z <->
        exists input_json,
          Json.parse req_body = Return input_json
          /\ (contains input_json (lit "email_id") = false
              \/ contains input_json (lit "subject") = false
              \/ contains input_json (lit "body") = false))
    /\ (status (fst r) = Some 400%Z ->
        conversions = [] /\ cmds = []
        /\ body (fst r)
           = body_text
               (lit "{'error':'Missing required fields: email_id, subject, body'}"))
    /\ (status (fst r) = None \/ status (fst r) = Some 400%Z
        \/ status (fst r) = Some 500%Z).
Proof.
  cbv zeta. unfold classify_email.
  destruct (Json.parse req_body) as [j|e] eqn:Ep.
  2:{ exists [], [], []. rewrite internal_error_done by constructor.
      cbn [fst snd Http.status Http.body map app]. end_case. }
  pose proof (@parse_valid _ _ Ep) as Hj.
  destruct (contains j (lit "email_id")) eqn:E1;
    destruct (contains j (lit "subject")) eqn:E2;
    destruct (contains j (lit "body")) eqn:E3; cbn [negb orb];
    try (exists [], [], []; unfold bad_request; cbn [fst snd Http.status Http.body map app];
         end_case; intros _; exists j; split; [reflexivity|auto]; fail).
  destruct (string_at j (lit "email_id")) as [email_id|e] eqn:Eid; cbn [bind].
  2:{ exists [], [], []. rewrite internal_error_done by constructor.
      cbn [fst snd Http.status Http.body map app]. end_case. }
  destruct (string_at j (lit "subject")) as [subject|e] eqn:Esub; cbn [bind].
  2:{ exists [], [], []. rewrite internal_error_done by constructor.
      cbn [fst snd Http.status Http.body map app]. end_case. }
  destruct (string_at j (lit "body")) as [body|e] eqn:Ebody; cbn [bind].
  2:{ exists [], [], []. rewrite internal_error_done by constructor.
      cbn [fst snd Http.status Http.body map app]. end_case. }
  pose proof (optional_attachments_converted W j) as Hok.
  destruct (optional_attachments W j) as [[image_paths evs] failure].
  cbn [fst snd] in Hok. pose proof (converted_in_dir Hok) as Hd.
  exists evs, image_paths.
  destruct failure as [e|].
  { exists []. rewrite (@internal_error_done e _ _ Hd).
    cbn [fst snd Http.status Http.body map app]. end_case. }
  pose proof (@string_at_valid _ _ _ Hj Eid) as Hid.
  exists [classification_command cfg image_paths subject body].
  destruct (process_classification_with_vision cfg W image_paths subject body)
    as [model_output|e] eqn:Ev; cbn [bind].
  2:{ rewrite (@internal_error_done e _ _ Hd).
      rewrite <- app_assoc. cbn [fst snd Http.status Http.body]. end_case.
      right. exists subject, body. reflexivity. }
  destruct (parse_classification model_output) as [data|e] eqn:Em; cbn [bind].
  2:{ rewrite (@internal_error_done e _ _ Hd).
      rewrite <- app_assoc. cbn [fst snd Http.status Http.body]. end_case.
      right. exists subject, body. reflexivity. }
  destruct (@parse_classification_returns _ _ Em)
    as [category [confidence [-> [Hcat [Hlo Hhi]]]]].
  change (subscript (classification category confidence) (lit "category"))
    with (Return (string_ category)).
  cbn [bind].
  change (subscript (classification category confidence) (lit "confidence"))
    with (Return (number_float confidence)).
  cbn [bind].
  rewrite finish_done; [|apply classify_output_valid; assumption|exact Hd].
  rewrite <- app_assoc. cbn [fst snd Http.status Http.body]. end_case.
  - right. exists subject, body. reflexivity.
  - intros _.
    exists j, email_id, subject, body, model_output, category, confidence. end_case.
Qed.

Lemma draft_reply_output_valid (email_id : std_string) (subject draft_reply : json) :
  utf8_valid email_id = true -> strings_valid subject = true ->
  strings_valid draft_reply = true ->
  strings_valid (draft_reply_output email_id subject draft_reply) = true.
Proof.
  intros He Hs Hd. unfold draft_reply_output. cbn [strings_valid].
  apply json_object_valid. unfold entries_valid.
  cbn [forallb fst snd strings_valid]. rewrite He, Hs, Hd. reflexivity.
Qed.

Lemma run_vision_no_nul (W : world) (cmd model_output : std_string) :
  run_vision W cmd = Return model_output -> ~ In "000"%char model_output.
Proof.
  unfold run_vision, exec_command.
  destruct (popen W cmd) as [stream|]; [|discriminate].
  intros H. injection H as <-. apply CliFacts.read_pipe_no_nul. simpl. tauto.
Qed.

(** Every way [/ai/inbox/draft-reply] can end. *)
Lemma draft_reply_full (cfg : config) (W : world) (req_body : std_string) :
  let r := draft_reply cfg W req_body in
  exists conversions image_paths cmds,
    snd r = conversions ++ map os_exec cmds
            ++ map os_remove (map c_str image_paths)
    /\ converted image_paths conversions
    /\ (cmds = []
        \/ exists persona_string subject body instruction,
             cmds = [draft_reply_command cfg image_paths persona_string subject
                       body instruction])
    /\ (status (fst r) = None ->
        exists input_json email_id subject body persona_string instruction
               model_output reply_data reply_subject reply_text,
          Json.parse req_body = Return input_json
          /\ string_at input_json (lit "email_id") = Return email_id
          /\ string_at input_json (lit "subject") = Return subject
          /\ string_at input_json (lit "body") = Return body
          /\ string_at input_json (lit "persona_string") = Return persona_string
          /\ value_string input_json (lit "instruction") [] = Return instruction
          /\ cmds = [draft_reply_command cfg image_paths persona_string subject
                       body instruction]
          /\ process_draft_reply_with_vision cfg W image_paths persona_string
               subject body instruction = Return model_output
          /\ parse_draft_reply model_output = Return reply_data
          /\ subscript reply_data (lit "subject") = Return reply_subject
          /\ subscript reply_data (lit "draft_reply") = Return reply_text
          /\ Http.body (fst r)
             = body_text (dump 2 (draft_reply_output email_id reply_subject
                                    reply_text)))
    /\ (status (fst r) = Some 400%Z <->
        exists input_json,
          Json.parse req_body = Return input_json
          /\ (contains input_json (lit "email_id") = false
              \/ contains input_json (lit "subject") = false
              \/ contains input_json (lit "body") = false
              \/ contains input_json (lit "persona_string") = false))
    /\ (status (fst r) = Some 400%Z ->
        conversions = [] /\ cmds = []
        /\ body (fst r)
           = body_text
               (lit "{'error':'Missing required fields: email_id, subject, body, persona_string'}"))
    /\ (status (fst r) = None \/ status (fst r) = Some 400%Z
        \/ status (fst r) = Some 500%Z).
Proof.
  cbv zeta. unfold draft_reply.
  destruct (Json.parse req_body) as [j|e] eqn:Ep.
  2:{ exists [], [], []. rewrite internal_error_done by constructor.
      cbn [fst snd Http.status Http.body map app]. end_case. }
  pose proof (@parse_valid _ _ Ep) as Hj.
  destruct (contains j (lit "email_id")) eqn:E1;
    destruct (contains j (lit "subject")) eqn:E2;
    destruct (contains j (lit "body")) eqn:E3;
    destruct (contains j (lit "persona_string")) eqn:E4; cbn [negb orb];
    try (exists [], [], []; unfold bad_request;
         cbn [fst snd Http.status Http.body map app];
         end_case; intros _; exists j; split; [reflexivity|auto]; fail).
  destruct (string_at j (lit "email_id")) as [email_id|e] eqn:Eid; cbn [bind].
  2:{ exists [], [], []. rewrite internal_error_done by constructor.
      cbn [fst snd Http.status Http.body map app]. end_case. }
  destruct (string_at j (lit "subject")) as [subject|e] eqn:Esub; cbn [bind].
  2:{ exists [], [], []. rewrite internal_error_done by constructor.
      cbn [fst snd Http.status Http.body map app]. end_case. }
  destruct (string_at j (lit "body")) as [body|e] eqn:Ebody; cbn [bind].
  2:{ exists [], [], []. rewrite internal_error_done by constructor.
      cbn [fst snd Http.status Http.body map app]. end_case. }
  destruct (string_at j (lit "persona_string")) as [persona_string|e] eqn:Eper;
    cbn [bind].
  2:{ exists [], [], []. rewrite internal_error_done by constructor.
      cbn [fst snd Http.status Http.body map app]. end_case. }
  destruct (value_string j (lit "instruction") []) as [instruction|e] eqn:Eins;
    cbn [bind].
  2:{ exists [], [], []. rewrite internal_error_done by constructor.
      cbn [fst snd Http.status Http.body map app]. end_case. }
  pose proof (optional_attachments_converted W j) as Hok.
  destruct (optional_attachments W j) as [[image_paths evs] failure].
  cbn [fst snd] in Hok. pose proof (converted_in_dir Hok) as Hd.
  exists evs, image_paths.
  destruct failure as [e|].
  { exists []. rewrite (@internal_error_done e _ _ Hd).
    cbn [fst snd Http.status Http.body map app]. end_case. }
  pose proof (@string_at_valid _ _ _ Hj Eid) as Hid.
  exists [draft_reply_command cfg image_paths persona_string subject body instruction].
  assert (Hcmd : [draft_reply_command cfg image_paths persona_string subject body
                    instruction] = []
                 \/ exists p s b i,
                      [draft_reply_command cfg image_paths persona_string subject body
                         instruction]
                      = [draft_reply_command cfg image_paths p s b i]).
  { right. exists persona_string, subject, body, instruction. reflexivity. }
  destruct (process_draft_reply_with_vision cfg W image_paths persona_string subject
              body instruction) as [model_output|e] eqn:Ev; cbn [bind].
  2:{ rewrite (@internal_error_done e _ _ Hd).
      rewrite <- app_assoc. cbn [fst snd Http.status Http.body]. end_case. }
  pose proof (@run_vision_no_nul _ _ _ Ev) as Hnul.
  destruct (parse_draft_reply model_output) as [reply_data|e] eqn:Em; cbn [bind].
  2:{ rewrite (@internal_error_done e _ _ Hd).
      rewrite <- app_assoc. cbn [fst snd Http.status Http.body]. end_case. }
  pose proof (@parse_draft_reply_valid _ _ Em) as Hr.
  pose proof (@ExtractionFacts.parse_draft_reply_object _ _ Hnul Em) as Ho.
  destruct reply_data as [| | | | | |m]; try discriminate Ho.
  set (reply_data := object m) in *.
  assert (Es : exists v, subscript reply_data (lit "subject") = Return v)
    by (eexists; reflexivity).
  assert (Et : exists v, subscript reply_data (lit "draft_reply") = Return v)
    by (eexists; reflexivity).
  destruct Es as [reply_subject Es]. destruct Et as [reply_text Et].
  rewrite Es. cbn [bind]. rewrite Et. cbn [bind].
  rewrite finish_done;
    [|apply draft_reply_output_valid;
      [exact Hid|apply (@subscript_valid _ _ _ Hr Es)
      |apply (@subscript_valid _ _ _ Hr Et)]|exact Hd].
  rewrite <- app_assoc. cbn [fst snd Http.status Http.body]. end_case.
  intros _.
  exists j, email_id, subject, body, persona_string, instruction, model_output,
         reply_data, reply_subject, reply_text. end_case.
Qed.

Lemma trace_parts (conversions : list os_event)
  (cmds removed : list std_string) :
  Forall conversion conversions ->
  let evs := conversions ++ map os_exec cmds ++ map os_remove removed in
  images_written evs = images_written conversions
  /\ commands_run evs = cmds
  /\ files_removed evs = removed.
Proof.
  intros Hc. cbv zeta. destruct (conversions_only Hc) as [H1 [H2 _]].
  unfold images_written, commands_run, files_removed in *.
  rewrite !flat_map_app, H1, H2.
  repeat split.
  - rewrite !flat_map_drop, !app_nil_r; reflexivity.
  - rewrite (@flat_map_keep _ _ _ os_exec), !flat_map_drop, ?app_nil_r;
      reflexivity.
  - rewrite (@flat_map_keep _ _ _ os_remove), !flat_map_drop; reflexivity.
Qed.



(** A reply of [/ai/inbox/classify] that is not an error echoes the
    [email_id] of the request and carries one of the four categories and a
    confidence between 0.0 and 1.0, whatever the model printed; exactly one
    command was run to get it. *)
Theorem classify_reply_is_valid (cfg : config) (W : world) (req_body : std_string) :
  let r := classify_email cfg W req_body in
  status (fst r) = None ->
  exists input_json email_id category confidence cmd,
    Json.parse req_body = Return input_json
    /\ string_at input_json (lit "email_id") = Return email_id
    /\ body (fst r)
       = body_text (dump 2 (classify_output email_id (string_ category)
                              (number_float confidence)))
    /\ In category valid_categories
    /\ dec_leb dec_0_0 confidence = true
    /\ dec_leb confidence dec_1_0 = true
    /\ commands_run (snd r) = [cmd].
Proof.
  cbv zeta. intros Hs.
  destruct (classify_email_full cfg W req_body)
    as [conversions [image_paths [cmds [Ht [[Hi Hcv] [_ [Hok _]]]]]]].
  destruct (Hok Hs)
    as [j [email_id [subject [body [model_output [category [confidence H]]]]]]].
  destruct H as [Hp [Hid [_ [_ [Hc [_ [_ [Hcat [Hlo [Hhi Hb]]]]]]]]]].
  exists j, email_id, category, confidence,
         (classification_command cfg image_paths subject body).
  repeat (split; [assumption|]).
  rewrite Ht.
  rewrite (proj1 (proj2 (trace_parts cmds (map c_str image_paths) Hcv))).
  exact Hc.
Qed.

Lemma string_at_contains (j : json) (key s : std_string) :
  string_at j key = Return s -> contains j key = true.
Proof.
  unfold string_at, subscript, contains. intros H.
  destruct j; try discriminate H. cbn [bind] in H.
  destruct (obj_find key m); [reflexivity|discriminate H].
Qed.

(** A request with its three fields and no attachments runs the model once,
    without images, and is answered from what [parse_classification] makes
    of the output: 200 when it returns, 500 with its exception when it
    raises. *)
Theorem classify_email_answers (cfg : config) (W : world)
  (req_body : std_string) (input_json : json)
  (email_id subject body stream : std_string) :
  Json.parse req_body = Return input_json ->
  string_at input_json (lit "email_id") = Return email_id ->
  string_at input_json (lit "subject") = Return subject ->
  string_at input_json (lit "body") = Return body ->
  contains input_json (lit "attachments") = false ->
  popen W (classification_command cfg [] subject body) = Some stream ->
  let r := classify_email cfg W req_body in
  let model_output := read_pipe (length stream) stream [] in
  snd r = [os_exec (classification_command cfg [] subject body)]
  /\ (forall data, parse_classification model_output = Return data ->
                   status (fst r) = None)
  /\ (forall e, parse_classification model_output = Throw e ->
                fst r = Resp (Some 500%Z) (body_from e)).
Proof.
  intros Hp Hid Hsub Hbody Hatt Hpopen. cbv zeta.
  pose proof (@parse_valid _ _ Hp) as Hj.
  pose proof (@string_at_valid _ _ _ Hj Hid) as Hv.
  unfold classify_email. rewrite Hp.
  rewrite (@string_at_contains _ _ _ Hid), (@string_at_contains _ _ _ Hsub),
    (@string_at_contains _ _ _ Hbody).
  cbn [negb orb]. rewrite Hid, Hsub, Hbody. cbn [bind].
  unfold optional_attachments. rewrite Hatt.
  unfold process_classification_with_vision, run_vision.
  rewrite Hpopen. cbn [exec_command bind map app].
  destruct (parse_classification (read_pipe (length stream) stream []))
    as [data|e] eqn:Em; cbn [bind].
  - destruct (@parse_classification_returns _ _ Em)
      as [category [confidence [-> [Hcat _]]]].
    change (subscript (classification category confidence) (lit "category"))
      with (Return (string_ category)).
    cbn [bind].
    change (subscript (classification category confidence) (lit "confidence"))
      with (Return (number_float confidence)).
    cbn [bind].
    rewrite finish_done;
      [|apply classify_output_valid; assumption|constructor].
    cbn [fst snd Http.status map app].
    split; [reflexivity|]. split; [reflexivity|]. intros e H; discriminate H.
  - rewrite internal_error_done by constructor. cbn [fst snd map app].
    split; [reflexivity|]. split; [intros data H; discriminate H|].
    intros e' H. injection H as <-. reflexivity.
Qed.

(** A reply of [/ai/inbox/detect-cv] that is not an error reports a CV
    exactly when at least one PDF attachment was turned into an image.
    Without an image the handler called nothing but [mkdir] on
    [../uploads/temp] and [save]s inside it that reported failure (for
    PDFs that did not convert): no command was run, [remove] was not
    called, and the metadata is the empty object.
    With one, the vision model was run once on all the images and the
    metadata is what [parse_cv_metadata] made of its output. *)
Theorem detect_cv_reply (cfg : config) (W : world) (req_body : std_string) :
  let r := detect_cv cfg W req_body in
  status (fst r) = None ->
  exists input_json email_id metadata,
    Json.parse req_body = Return input_json
    /\ string_at input_json (lit "email_id") = Return email_id
    /\ body (fst r)
       = body_text (dump 2 (detect_cv_output email_id
                              (match images_written (snd r) with
                               | [] => false
                               | _ => true
                               end) metadata))
    /\ match images_written (snd r) with
       | [] => Forall failed_conversion (snd r)
               /\ commands_run (snd r) = []
               /\ files_removed (snd r) = []
               /\ metadata = object []
       | image_paths =>
           commands_run (snd r) = [cv_command cfg image_paths]
           /\ exists model_output,
                process_cv_with_vision cfg W image_paths = Return model_output
                /\ parse_cv_metadata model_output = Return metadata
       end.
Proof.
  cbv zeta. intros Hs.
  destruct (detect_cv_full cfg W req_body)
    as [conversions [image_paths [cmds [Ht [[Hi Hcv] [_ [Hok _]]]]]]].
  destruct (Hok Hs) as [j [email_id [metadata [Hp [Hid [Hb Hm]]]]]].
  exists j, email_id, metadata.
  destruct (trace_parts cmds (map c_str image_paths) Hcv) as [Hw [Hc Hr]].
  cbv zeta in Hw, Hc, Hr.
  rewrite Ht at 1 2. rewrite Hw, Hi.
  split; [exact Hp|]. split; [exact Hid|]. split; [exact Hb|].
  destruct image_paths as [|path rest].
  - destruct Hm as [-> ->]. rewrite Ht. cbn [map app]. rewrite app_nil_r.
    destruct (conversions_only Hcv) as [H1 [H2 _]].
    split; [apply (conversions_without_image Hcv Hi)|]. auto.
  - destruct Hm as [Hcmd Hout]. split; [|exact Hout].
    rewrite Ht, Hc. exact Hcmd.
Qed.

Lemma detect_attachments_no_pdf (W : world) (attachments : list json) :
  (forall a, In a attachments ->
             exists filename, a = string_ filename /\ is_pdf_file filename = false) ->
  forall k image_paths evs,
    detect_attachments W k attachments image_paths evs = (image_paths, evs, None).
Proof.
  induction attachments as [|a rest IH]; intros H k image_paths evs; [reflexivity|].
  destruct (H a (or_introl eq_refl)) as [filename [-> Hf]].
  cbn [detect_attachments get_string]. unfold add_attachment. rewrite Hf.
  apply IH. intros a Ha. apply H. right. exact Ha.
Qed.

(** A request whose attachments are all file names that do not end in
    [.pdf] is answered without touching the file system or running anything:
    no CV, empty metadata. *)
Theorem detect_cv_without_pdf (cfg : config) (W : world)
  (req_body : std_string) (input_json attachments : json) (email_id : std_string) :
  Json.parse req_body = Return input_json ->
  contains input_json (lit "attachments") = true ->
  string_at input_json (lit "email_id") = Return email_id ->
  subscript input_json (lit "attachments") = Return attachments ->
  (forall a, In a (elements attachments) ->
             exists filename, a = string_ filename /\ is_pdf_file filename = false) ->
  detect_cv cfg W req_body
  = (Resp None (body_text (dump 2 (detect_cv_output email_id false (object [])))),
     []).
Proof.
  intros Hp Hc Hid Hatt Hnames.
  pose proof (@parse_valid _ _ Hp) as Hj.
  pose proof (@string_at_valid _ _ _ Hj Hid) as Hv.
  unfold detect_cv. rewrite Hp, Hc. cbn [negb]. rewrite Hid, Hatt. cbn [bind].
  rewrite (@detect_attachments_no_pdf W _ Hnames 0 [] []).
  rewrite finish_done;
    [reflexivity|apply detect_cv_output_valid; [exact Hv|reflexivity]|constructor].
Qed.

(** A reply of [/ai/inbox/draft-reply] that is not an error has the three
    keys [draft_reply], [email_id] and [subject]: the [email_id] of the
    request and, unchecked, what the value returned by [parse_draft_reply]
    holds under [subject] and [draft_reply] (null for a key it lacks).  The
    command that was run carries the request's [instruction], empty when
    the request has none. *)
Theorem draft_reply_reply (cfg : config) (W : world) (req_body : std_string) :
  let r := draft_reply cfg W req_body in
  status (fst r) = None ->
  exists input_json email_id subject body persona_string instruction
         model_output reply_data reply_subject reply_text,
    Json.parse req_body = Return input_json
    /\ string_at input_json (lit "email_id") = Return email_id
    /\ string_at input_json (lit "subject") = Return subject
    /\ string_at input_json (lit "body") = Return body
    /\ string_at input_json (lit "persona_string") = Return persona_string
    /\ value_string input_json (lit "instruction") [] = Return instruction
    /\ commands_run (snd r)
       = [draft_reply_command cfg (images_written (snd r)) persona_string subject
            body instruction]
    /\ process_draft_reply_with_vision cfg W (images_written (snd r))
         persona_string subject body instruction = Return model_output
    /\ parse_draft_reply model_output = Return reply_data
    /\ subscript reply_data (lit "subject") = Return reply_subject
    /\ subscript reply_data (lit "draft_reply") = Return reply_text
    /\ Http.body (fst r)
       = body_text (dump 2 (draft_reply_output email_id reply_subject reply_text)).
Proof.
  cbv zeta. intros Hs.
  destruct (draft_reply_full cfg W req_body)
    as [conversions [image_paths [cmds [Ht [[Hw Hcv] [_ [Hok _]]]]]]].
  destruct (Hok Hs)
    as [j [email_id [subject [body [persona_string [instruction [model_output
         [reply_data [reply_subject [reply_text H]]]]]]]]]].
  destruct H as [Hp [Hid [Hsub [Hbody [Hper [Hins [Hc [Hv [Hm [H1 [H2 Hb]]]]]]]]]]].
  exists j, email_id, subject, body, persona_string, instruction, model_output,
         reply_data, reply_subject, reply_text.
  destruct (trace_parts cmds (map c_str image_paths) Hcv) as [Hi [Hcm _]].
  cbv zeta in Hi, Hcm.
  rewrite Ht at 1 2 3. rewrite Hi, Hcm, Hw.
  repeat (split; [assumption|]). exact Hb.
Qed.

(** The three handlers answer 400 exactly when the body is JSON that lacks
    one of the fields they check, and then nothing else was done: no file
    written, no command run.  A body that is not JSON is not among these
    cases: the inbox server answers it with 500. *)
Theorem bad_request_only_for_missing_fields
  (cfg : config) (W : world) (req_body : std_string) :
  (status (fst (detect_cv cfg W req_body)) = Some 400%Z <->
   exists input_json,
     Json.parse req_body = Return input_json
     /\ contains input_json (lit "attachments") = false)
  /\ (status (fst (draft_reply cfg W req_body)) = Some 400%Z <->
      exists input_json,
        Json.parse req_body = Return input_json
        /\ (contains input_json (lit "email_id") = false
            \/ contains input_json (lit "subject") = false
            \/ contains input_json (lit "body") = false
            \/ contains input_json (lit "persona_string") = false))
  /\ (status (fst (classify_email cfg W req_body)) = Some 400%Z <->
      exists input_json,
        Json.parse req_body = Return input_json
        /\ (contains input_json (lit "email_id") = false
            \/ contains input_json (lit "subject") = false
            \/ contains input_json (lit "body") = false))
  /\ (forall handler,
        In handler [detect_cv; draft_reply; classify_email] ->
        (status (fst (handler cfg W req_body)) = Some 400%Z ->
         snd (handler cfg W req_body) = [])
        /\ (forall e, Json.parse req_body = Throw e ->
                      handler cfg W req_body
                      = (Resp (Some 500%Z) (body_from e), []))).
Proof.
  destruct (detect_cv_full cfg W req_body)
    as [v1 [i1 [c1 [Ht1 [[Hw1 _] [_ [_ [Hiff1 [Hbad1 _]]]]]]]]].
  destruct (draft_reply_full cfg W req_body)
    as [v2 [i2 [c2 [Ht2 [[Hw2 _] [_ [_ [Hiff2 [Hbad2 _]]]]]]]]].
  destruct (classify_email_full cfg W req_body)
    as [v3 [i3 [c3 [Ht3 [[Hw3 _] [_ [_ [Hiff3 [Hbad3 _]]]]]]]]].
  split; [exact Hiff1|]. split; [exact Hiff2|]. split; [exact Hiff3|].
  intros handler [<-|[<-|[<-|[]]]]; split.
  - intros H. destruct (Hbad1 H) as [-> [-> _]]. subst i1. exact Ht1.
  - intros e He. unfold detect_cv. rewrite He. reflexivity.
  - intros H. destruct (Hbad2 H) as [-> [-> _]]. subst i2. exact Ht2.
  - intros e He. unfold draft_reply. rewrite He. reflexivity.
  - intros H. destruct (Hbad3 H) as [-> [-> _]]. subst i3. exact Ht3.
  - intros e He. unfold classify_email. rewrite He. reflexivity.
Qed.

Lemma classify_reply_is_valid_witness :
  let r := classify_email Samples.sample_config (Samples.answering spam_text)
             Samples.classify_body in
  status (fst r) = None
  /\ exists input_json email_id category confidence cmd,
       Json.parse Samples.classify_body = Return input_json
       /\ string_at input_json (lit "email_id") = Return email_id
       /\ body (fst r)
          = body_text (dump 2 (classify_output email_id (string_ category)
                                 (number_float confidence)))
       /\ In category valid_categories
       /\ dec_leb dec_0_0 confidence = true
       /\ dec_leb confidence dec_1_0 = true
       /\ commands_run (snd r) = [cmd].
Proof.
  cbv zeta. split; [vm_compute; reflexivity|].
  apply (@classify_reply_is_valid Samples.sample_config
           (Samples.answering spam_text) Samples.classify_body).
  vm_compute. reflexivity.
Defined.

Lemma classify_email_answers_witness :
  let r := classify_email Samples.sample_config (Samples.answering spam_text)
             Samples.classify_body in
  let model_output := read_pipe (length spam_text) spam_text [] in
  Json.parse Samples.classify_body = Return (Samples.parsed Samples.classify_body)
  /\ snd r
     = [os_exec (classification_command Samples.sample_config [] (lit "Invoice")
                   (lit "Please pay today."))]
  /\ (forall data, parse_classification model_output = Return data ->
                   status (fst r) = None)
  /\ (forall e, parse_classification model_output = Throw e ->
                fst r = Resp (Some 500%Z) (body_from e)).
Proof.
  cbv zeta. split; [vm_compute; reflexivity|].
  apply (@classify_email_answers Samples.sample_config
           (Samples.answering spam_text) Samples.classify_body
           (Samples.parsed Samples.classify_body)
           (lit "e1") (lit "Invoice") (lit "Please pay today.") spam_text);
    vm_compute; reflexivity.
Defined.

Lemma detect_cv_reply_witness :
  let r := detect_cv Samples.sample_config (Samples.answering Samples.cv_output)
             Samples.detect_cv_body in
  status (fst r) = None
  /\ exists input_json email_id metadata,
       Json.parse Samples.detect_cv_body = Return input_json
       /\ string_at input_json (lit "email_id") = Return email_id
       /\ body (fst r)
          = body_text (dump 2 (detect_cv_output email_id
                                 (match images_written (snd r) with
                                  | [] => false
                                  | _ => true
                                  end) metadata))
       /\ match images_written (snd r) with
          | [] => Forall failed_conversion (snd r)
                  /\ commands_run (snd r) = []
                  /\ files_removed (snd r) = []
                  /\ metadata = object []
          | image_paths =>
              commands_run (snd r) = [cv_command Samples.sample_config image_paths]
              /\ exists model_output,
                   process_cv_with_vision Samples.sample_config
                     (Samples.answering Samples.cv_output) image_paths
                   = Return model_output
                   /\ parse_cv_metadata model_output = Return metadata
          end.
Proof.
  cbv zeta. split; [vm_compute; reflexivity|].
  apply (@detect_cv_reply Samples.sample_config
           (Samples.answering Samples.cv_output) Samples.detect_cv_body).
  vm_compute. reflexivity.
Defined.

Lemma detect_cv_without_pdf_witness :
  is_pdf_file (lit "notes.txt") = false
  /\ detect_cv Samples.sample_config (Samples.answering Samples.cv_output)
       Samples.notes_only_body
     = (Resp None
          (body_text (dump 2 (detect_cv_output (lit "e3") false (object [])))), []).
Proof.
  split; [vm_compute; reflexivity|].
  apply (@detect_cv_without_pdf Samples.sample_config
           (Samples.answering Samples.cv_output) Samples.notes_only_body
           (Samples.parsed Samples.notes_only_body)
           (array [string_ (lit "notes.txt")]) (lit "e3"));
    try (vm_compute; reflexivity).
  intros a [<-|[]]. exists (lit "notes.txt"). split; vm_compute; reflexivity.
Defined.

Lemma draft_reply_reply_witness :
  let r := draft_reply Samples.sample_config
             (Samples.answering Samples.draft_output) Samples.draft_reply_body in
  status (fst r) = None
  /\ exists input_json email_id subject body persona_string instruction
            model_output reply_data reply_subject reply_text,
       Json.parse Samples.draft_reply_body = Return input_json
       /\ string_at input_json (lit "email_id") = Return email_id
       /\ string_at input_json (lit "subject") = Return subject
       /\ string_at input_json (lit "body") = Return body
       /\ string_at input_json (lit "persona_string") = Return persona_string
       /\ value_string input_json (lit "instruction") [] = Return instruction
       /\ commands_run (snd r)
          = [draft_reply_command Samples.sample_config (images_written (snd r))
               persona_string subject body instruction]
       /\ process_draft_reply_with_vision Samples.sample_config
            (Samples.answering Samples.draft_output) (images_written (snd r))
            persona_string subject body instruction = Return model_output
       /\ parse_draft_reply model_output = Return reply_data
       /\ subscript reply_data (lit "subject") = Return reply_subject
       /\ subscript reply_data (lit "draft_reply") = Return reply_text
       /\ Http.body (fst r)
          = body_text (dump 2 (draft_reply_output email_id reply_subject reply_text)).
Proof.
  cbv zeta. split; [vm_compute; reflexivity|].
  apply (@draft_reply_reply Samples.sample_config
           (Samples.answering Samples.draft_output) Samples.draft_reply_body).
  vm_compute. reflexivity.
Defined.

End InboxFacts.
